(** * pixelmap: the grid graph, the route and the itinerary of [TopImage]

    A shallow embedding of the class [TopImage] of [top_image.py]
    ([read_nodes], [read_edges], [read_path]) together with the parts of
    Python and of networkx it runs on: integer ranges, binary64 floats,
    exceptions, an undirected attribute graph and the single-source
    Dijkstra search.  Mutating methods pass the object explicitly and
    return it next to their outcome, so that the state left behind by a
    raised exception stays visible. *)

From Stdlib Require Import ZArith List Lia Bool String SpecFloat.
From stdpp Require Import gmap strings list fin_maps.

Open Scope Z_scope.

(** ** Exceptions *)

Inductive Exn : Type :=
| KeyError
| TypeError
| ValueError
| OverflowError
| ZeroDivisionError
| IndexError
| SystemError
| NodeNotFound
| NetworkXNoPath.

Inductive result (A : Type) : Type :=
| Ok (a : A)
| Raise (e : Exn).

Arguments Ok {A} a.
Arguments Raise {A} e.

Definition bind {A B : Type} (r : result A) (k : A -> result B) : result B :=
  match r with
  | Ok a => k a
  | Raise e => Raise e
  end.

Notation "'let*' x ':=' r 'in' k" := (bind r (fun x => k))
  (at level 10, x pattern, r at level 100, k at level 200).

Definition of_option {A : Type} (e : Exn) (o : option A) : result A :=
  match o with
  | Some a => Ok a
  | None => Raise e
  end.

Definition is_raise {A : Type} (r : result A) : Prop :=
  match r with
  | Ok _ => False
  | Raise _ => True
  end.

(** A [for] loop whose body mutates a state and may raise: the state reached
    when the exception leaves the loop is kept. *)
Fixpoint for_each {A S : Type} (body : A -> S -> result unit * S)
    (l : list A) (s : S) : result unit * S :=
  match l with
  | [] => (Ok tt, s)
  | x :: l' =>
      match body x s with
      | (Ok _, s') => for_each body l' s'
      | (Raise e, s') => (Raise e, s')
      end
  end.

(** ** Python numbers

    [float] is IEEE 754 binary64, taken from the specification of the
    Standard Library ([SpecFloat], precision 53, exponent bound 1024,
    round to nearest even).  [int] is unbounded, hence [Z]. *)

Module PyFloat.

Definition prec : Z := 53.
Definition emax : Z := 1024.

Definition t : Type := spec_float.

(** The literal [0.0]. *)
Definition zero : t := S754_zero false.

(** The literal [1.5], that is 6755399441055744 * 2^-52. *)
Definition one_and_half : t := S754_finite false 6755399441055744 (-52).

(** The nearest float of an integer (infinite past the largest float). *)
Definition of_Z (z : Z) : t := binary_normalize prec emax z 0 false.

Definition add : t -> t -> t := SFadd prec emax.
Definition mul : t -> t -> t := SFmul prec emax.
Definition div : t -> t -> t := SFdiv prec emax.

(** [x >= y]; false as soon as one side is a NaN. *)
Definition ge (x y : t) : bool :=
  match SFcompare x y with
  | Some Eq | Some Gt => true
  | _ => false
  end.

(** [bool(x)]: every float but the two zeros. *)
Definition truthy (x : t) : bool :=
  match x with
  | S754_zero _ => false
  | _ => true
  end.

Definition is_zero (x : t) : bool := negb (truthy x).

(** [sum(l)] over floats: from the int 0, one addition after the other. *)
Definition sum (l : list t) : t := fold_left add l (of_Z 0).

End PyFloat.

Abbreviation float := PyFloat.t.

(** A number met in the edge attributes: the [int] 1 or the [float] 1.5. *)
Inductive pynum : Type :=
| PInt (z : Z)
| PFloat (x : float).

(** [float(z)] as the mixed arithmetic performs it: [OverflowError] when the
    integer is too large for a float. *)
Definition float_of_int (z : Z) : result float :=
  match PyFloat.of_Z z with
  | S754_infinity _ => Raise OverflowError
  | x => Ok x
  end.

Definition float_of_num (n : pynum) : result float :=
  match n with
  | PInt z => float_of_int z
  | PFloat x => Ok x
  end.

(** [x * n] for a float [x]. *)
Definition float_mul (x : float) (n : pynum) : result float :=
  let* y := float_of_num n in Ok (PyFloat.mul x y).

(** [x / n] for a float [x]. *)
Definition float_div (x : float) (n : pynum) : result float :=
  let* y := float_of_num n in
  if PyFloat.is_zero y then Raise ZeroDivisionError else Ok (PyFloat.div x y).

(** [z * n] for an int [z]: an int when [n] is an int, a float otherwise. *)
Definition int_mul (z : Z) (n : pynum) : result pynum :=
  match n with
  | PInt k => Ok (PInt (z * k))
  | PFloat y => let* x := float_of_int z in Ok (PFloat (PyFloat.mul x y))
  end.

(** [int(n)]: truncation toward zero. *)
Definition py_int (n : pynum) : result Z :=
  match n with
  | PInt z => Ok z
  | PFloat (S754_zero _) => Ok 0
  | PFloat (S754_finite s m e) =>
      let v := if 0 <=? e then Z.shiftl (Z.pos m) e else Z.shiftr (Z.pos m) (- e) in
      Ok (if s then - v else v)
  | PFloat (S754_infinity _) => Raise OverflowError
  | PFloat S754_nan => Raise ValueError
  end.

(** [range(start, stop, step)], its length computed as CPython does. *)
Definition range_len (start stop step : Z) : Z :=
  if 0 <? step then
    (if start <? stop then (stop - start - 1) / step + 1 else 0)
  else
    (if stop <? start then (start - stop - 1) / (- step) + 1 else 0).

Definition py_range (start stop step : Z) : result (list Z) :=
  if step =? 0 then Raise ValueError
  else Ok (map (fun k : nat => start + Z.of_nat k * step)
               (seq 0 (Z.to_nat (range_len start stop step)))).

(** ** The graph of networkx *)

Definition Node : Type := Z * Z.
Definition Color : Type := Z * Z * Z * Z.

(** The attribute dictionary of an edge: [factor], [terrain], [weight]. *)
Record EdgeData : Type := mkEdgeData {
  factor : pynum;
  terrain : string;
  weight : Z
}.

Definition Edge : Type := Node * Node * EdgeData.

(** [g_nodes] maps a node to its [color] attribute, [None] for a node that
    has no such attribute (one created by an edge insertion).  [g_edges] keeps
    the edges in insertion order, one entry for each unordered pair, which is
    also the order of every adjacency dictionary. *)
Record Graph : Type := mkGraph {
  g_nodes : gmap Node (option Color);
  g_edges : list Edge
}.

Definition joins (u v : Node) (e : Edge) : bool :=
  bool_decide (e.1.1 = u /\ e.1.2 = v) || bool_decide (e.1.1 = v /\ e.1.2 = u).

Module Graph.

Definition empty : Graph := mkGraph ∅ [].

(** [G.clear()] *)
Definition clear (g : Graph) : Graph := empty.

(** [G.clear_edges()] *)
Definition clear_edges (g : Graph) : Graph := mkGraph (g_nodes g) [].

(** [G.add_node(n, color=c)] *)
Definition add_node (n : Node) (c : Color) (g : Graph) : Graph :=
  mkGraph (<[n := Some c]> (g_nodes g)) (g_edges g).

Definition touch (n : Node) (ns : gmap Node (option Color)) : gmap Node (option Color) :=
  match ns !! n with
  | Some _ => ns
  | None => <[n := None]> ns
  end.

Fixpoint put_edge (u v : Node) (d : EdgeData) (es : list Edge) : list Edge :=
  match es with
  | [] => [(u, v, d)]
  | e :: es' => if joins u v e then (u, v, d) :: es' else e :: put_edge u v d es'
  end.

(** [G.add_edge(u, v, **d)] with all three attributes given: missing
    endpoints become nodes, the data of an edge already there is
    overwritten in place. *)
Definition add_edge (u v : Node) (d : EdgeData) (g : Graph) : Graph :=
  mkGraph (touch v (touch u (g_nodes g))) (put_edge u v d (g_edges g)).

(** [n in G] *)
Definition has_node (n : Node) (g : Graph) : bool :=
  bool_decide (is_Some (g_nodes g !! n)).

(** [G.nodes[n]['color']] *)
Definition node_color (n : Node) (g : Graph) : result Color :=
  match g_nodes g !! n with
  | Some (Some c) => Ok c
  | _ => Raise KeyError
  end.

(** [G.edges[(u, v)]] *)
Definition edge (u v : Node) (g : Graph) : result EdgeData :=
  match List.find (joins u v) (g_edges g) with
  | Some e => Ok e.2
  | None => Raise KeyError
  end.

(** [G._adj[v].items()] *)
Definition neighbors (v : Node) (g : Graph) : list (Node * EdgeData) :=
  omap (fun e : Edge =>
          if bool_decide (e.1.1 = v) then Some (e.1.2, e.2)
          else if bool_decide (e.1.2 = v) then Some (e.1.1, e.2)
          else None) (g_edges g).

End Graph.

(** ** The image and the object *)

(** [QImage]: its size and the colours of its pixels. *)
Record Image : Type := mkImage {
  width : Z;
  height : Z;
  pixelColor : Z -> Z -> Color
}.

Definition inside (img : Image) (i j : Z) : bool :=
  (0 <=? i) && (i <? width img) && (0 <=? j) && (j <? height img).

(** [image.pixelColor(i, j).toTuple()]: for a position outside the image
    [pixelColor] answers an invalid colour, and [toTuple] on an invalid
    colour raises [SystemError]. *)
Definition pixel_tuple (img : Image) (i j : Z) : result Color :=
  if inside img i j then Ok (pixelColor img i j) else Raise SystemError.

Record TopImage : Type := mkTopImage {
  density_dict : gmap Color (string * Z);
  graph : Graph;
  image : Image;
  step_size : option Z
}.

(** [TopImage(image)] *)
Definition init (img : Image) : TopImage := mkTopImage ∅ Graph.empty img None.

Definition set_graph (g : Graph) (self : TopImage) : TopImage :=
  mkTopImage (density_dict self) g (image self) (step_size self).

Definition set_density_dict (d : gmap Color (string * Z)) (self : TopImage) : TopImage :=
  mkTopImage d (graph self) (image self) (step_size self).

Definition set_step_size (s : Z) (self : TopImage) : TopImage :=
  mkTopImage (density_dict self) (graph self) (image self) (Some s).

(** *** [read_nodes] *)

(** The body of the two loops once the colour is read: register an unseen
    colour, add the node. *)
Definition add_sample (i j : Z) (color : Color) (self : TopImage) : TopImage :=
  let self :=
    match density_dict self !! color with
    | Some _ => self
    | None => set_density_dict (<[color := (""%string, 0)]> (density_dict self)) self
    end in
  set_graph (Graph.add_node (i, j) color (graph self)) self.

(** The body of the two loops: the colour is read first, and nothing is
    written when that raises. *)
Definition sample (i j : Z) (self : TopImage) : result unit * TopImage :=
  match pixel_tuple (image self) i j with
  | Ok color => (Ok tt, add_sample i j color self)
  | Raise e => (Raise e, self)
  end.

Definition read_nodes (step : Z) (self : TopImage) : result unit * TopImage :=
  let self := set_step_size step (set_graph (Graph.clear (graph self)) self) in
  match py_range 0 (width (image self) - 1) step with
  | Raise e => (Raise e, self)
  | Ok cols =>
      for_each (fun i self =>
        match py_range 0 (height (image self) - 1) step with
        | Raise e => (Raise e, self)
        | Ok rows => for_each (fun j self => sample i j self) rows self
        end) cols self
  end.

(** *** [read_edges] *)

(** [min(a, b, key=lambda d: d[1])]: the first of the smallest. *)
Definition min_by_cost (a b : string * Z) : string * Z :=
  if b.2 <? a.2 then b else a.

(** [get_density]: it reads the table handed to [read_edges]. *)
Definition get_density (table : gmap Color (string * Z)) (g : Graph) (s t : Node)
    : result (string * Z) :=
  let* cs := Graph.node_color s g in
  let* ds := of_option KeyError (table !! cs) in
  let* ct := Graph.node_color t g in
  let* dt := of_option KeyError (table !! ct) in
  Ok (min_by_cost ds dt).

(** The four forward neighbours of [get_star] with their factors. *)
Definition star (step : Z) (s : Node) : list (Node * pynum) :=
  [ ((s.1 + step, s.2), PInt 1);
    ((s.1, s.2 + step), PInt 1);
    ((s.1 + step, s.2 + step), PFloat PyFloat.one_and_half);
    ((s.1 + step, s.2 - step), PFloat PyFloat.one_and_half) ].

(** One triple of [get_star], built when [add_edges_from] asks for it. *)
Definition star_edge (table : gmap Color (string * Z)) (g : Graph) (s : Node)
    (tf : Node * pynum) : result EdgeData :=
  let* d := get_density table g s tf.1 in
  let* p := int_mul d.2 tf.2 in
  let* w := py_int p in
  Ok (mkEdgeData tf.2 d.1 w).

Definition add_star_edge (table : gmap Color (string * Z)) (stf : Node * (Node * pynum))
    (g : Graph) : result unit * Graph :=
  match star_edge table g stf.1 stf.2 with
  | Ok d => (Ok tt, Graph.add_edge stf.1 stf.2.1 d g)
  | Raise e => (Raise e, g)
  end.

(** The nodes the sweep starts a star from, in the order of the two loops. *)
Definition sweep (img : Image) (step : Z) : result (list Node) :=
  let* cols := py_range step (width img - step - 1) step in
  let fix rows_of (cols : list Z) : result (list Node) :=
    match cols with
    | [] => Ok []
    | i :: cols' =>
        let* rows := py_range step (height img - step - 1) step in
        let* rest := rows_of cols' in
        Ok (map (fun j => (i, j)) rows ++ rest)
    end in
  rows_of cols.

Definition read_edges (table : gmap Color (string * Z)) (self : TopImage)
    : result unit * TopImage :=
  let self := set_density_dict table (set_graph (Graph.clear_edges (graph self)) self) in
  match step_size self with
  | None => (Raise TypeError, self)
  | Some step =>
      match sweep (image self) step with
      | Raise e => (Raise e, self)
      | Ok sources =>
          let triples := flat_map (fun s => map (pair s) (star step s)) sources in
          let (r, g) := for_each (add_star_edge table) triples (graph self) in
          (r, set_graph g self)
      end
  end.

(** ** The shortest path: [nx.single_source_dijkstra]

    networkx is not part of the repository; the search below follows its
    [multi_source_dijkstra] and [_dijkstra_multisource] for one source, no
    cutoff and the [weight] attribute.  The fringe is a binary heap of
    triples (distance, counter, node); the counter is unique, so the heap
    always pops the least pair (distance, counter), whatever it holds.
    The source is looked up among the nodes before anything else, as
    networkx 3 does; networkx 2 answers a query whose target is its source
    before that lookup, and no statement below is about that case. *)

Module Dijkstra.

Definition entry : Type := Z * nat * Node.

Record state : Type := mkState {
  dist : gmap Node Z;
  seen : gmap Node Z;
  paths : gmap Node (list Node);
  fringe : list entry;
  count : nat
}.

Definition entry_le (a b : entry) : bool :=
  (a.1.1 <? b.1.1) || ((a.1.1 =? b.1.1) && (a.1.2 <=? b.1.2)%nat).

(** [heappop] *)
Fixpoint pop_min (q : list entry) : option (entry * list entry) :=
  match q with
  | [] => None
  | x :: q' =>
      match pop_min q' with
      | None => Some (x, [])
      | Some (y, r) => if entry_le x y then Some (x, q') else Some (y, x :: r)
      end
  end.

(** [seen[u] = vu_dist; push(...); paths[u] = paths[v] + [u]] *)
Definition push (v u : Node) (vu_dist : Z) (st : state) : result state :=
  let* pv := of_option KeyError (paths st !! v) in
  Ok (mkState (dist st) (<[u := vu_dist]> (seen st)) (<[u := pv ++ [u]]> (paths st))
              ((vu_dist, count st, u) :: fringe st) (S (count st))).

(** The body of [for u, e in G_succ[v].items()]. *)
Definition relax (v : Node) (dv : Z) (st : state) (ue : Node * EdgeData) : result state :=
  let vu_dist := dv + weight ue.2 in
  match dist st !! ue.1 with
  | Some u_dist => if vu_dist <? u_dist then Raise ValueError else Ok st
  | None =>
      match seen st !! ue.1 with
      | Some su => if vu_dist <? su then push v ue.1 vu_dist st else Ok st
      | None => push v ue.1 vu_dist st
      end
  end.

Fixpoint relax_all (v : Node) (dv : Z) (ues : list (Node * EdgeData)) (st : state)
    : result state :=
  match ues with
  | [] => Ok st
  | ue :: ues' => let* st' := relax v dv st ue in relax_all v dv ues' st'
  end.

(** [while fringe: ...]; [None] when the fuel runs out first. *)
Fixpoint loop (fuel : nat) (g : Graph) (target : Node) (st : state)
    : option (result state) :=
  match fuel with
  | O => None
  | S fuel' =>
      match pop_min (fringe st) with
      | None => Some (Ok st)
      | Some ((d, _, v), q) =>
          match dist st !! v with
          | Some _ =>
              loop fuel' g target (mkState (dist st) (seen st) (paths st) q (count st))
          | None =>
              let st1 := mkState (<[v := d]> (dist st)) (seen st) (paths st) q (count st) in
              if bool_decide (v = target) then Some (Ok st1)
              else
                match relax_all v d (Graph.neighbors v g) st1 with
                | Ok st2 => loop fuel' g target st2
                | Raise e => Some (Raise e)
                end
          end
      end
  end.

Definition start (source : Node) : state :=
  mkState ∅ {[source := 0]} {[source := [source]]} [(0, 0%nat, source)] 1.

(** Every turn of the loop removes an entry, and entries are pushed only
    when a node is settled, one for each of its edges at most. *)
Definition enough (g : Graph) : nat := S (S (2 * length (g_edges g))).

Definition single_source_dijkstra (g : Graph) (source target : Node)
    : result (Z * list Node) :=
  if negb (Graph.has_node source g) then Raise NodeNotFound
  else if bool_decide (target = source) then Ok (0, [target])
  else
    match loop (enough g) g target (start source) with
    | Some (Ok st) =>
        match dist st !! target, paths st !! target with
        | Some d, Some p => Ok (d, p)
        | _, _ => Raise NetworkXNoPath
        end
    | Some (Raise e) => Raise e
    | None => Raise NetworkXNoPath (* not taken: [enough g] is enough fuel *)
    end.

End Dijkstra.

(** ** [read_path] *)

(** An entry of [rests] or [stages]: (node, distance, cost, terrain). *)
Record Entry : Type := mkEntry {
  e_node : Node;
  e_distance : float;
  e_cost : float;
  e_terrain : string
}.

Record Itinerary : Type := mkItinerary {
  rests : list Entry;
  stages : list Entry;
  nodes : list Node
}.

(** The local variables of the loop. *)
Record Walk : Type := mkWalk {
  last_node : Node;
  w_rests : list Entry;
  w_stages : list Entry;
  rest_distance : float;
  rest_cost : float;
  stage_distance : float;
  stage_cost : float;
  stage_terrain : string
}.

(** [distance], [cost] and [terrain] of the edge from [a] to [b]. *)
Definition edge_metrics (self : TopImage) (pixel_length : float) (a b : Node)
    : result (float * float * string) :=
  let* edge := Graph.edge a b (graph self) in
  let* d0 := float_mul pixel_length (factor edge) in
  let* step := of_option TypeError (step_size self) in
  let* distance := float_mul d0 (PInt step) in
  let* c0 := float_mul distance (PInt (weight edge)) in
  let* cost := float_div c0 (factor edge) in
  Ok (distance, cost, terrain edge).

(** The rest checkpoint: [if rest and rest_cost >= rest]. *)
Definition rest_due (rest rest_cost : float) : bool :=
  PyFloat.truthy rest && PyFloat.ge rest_cost rest.

(** The stage boundary: [if terrain != stage_terrain or node == node_list[-1]]. *)
Definition stage_due (terrain stage_terrain : string) (node final : Node) : bool :=
  bool_decide (terrain <> stage_terrain) || bool_decide (node = final).

(** The body of [for node in node_list[1:]], once the edge is read. *)
Definition advance (rest : float) (final : Node) (w : Walk) (node : Node)
    (m : float * float * string) : Walk :=
  let '(distance, cost, terrain) := m in
  let rest_distance := PyFloat.add (rest_distance w) distance in
  let rest_cost := PyFloat.add (rest_cost w) cost in
  let stage_distance := PyFloat.add (stage_distance w) distance in
  let stage_cost := PyFloat.add (stage_cost w) cost in
  let '(rests, rest_distance, rest_cost) :=
    if rest_due rest rest_cost
    then (w_rests w ++ [mkEntry node rest_distance rest_cost terrain],
          PyFloat.zero, PyFloat.zero)
    else (w_rests w, rest_distance, rest_cost) in
  let '(stages, stage_terrain, stage_distance) :=
    if stage_due terrain (stage_terrain w) node final
    then (w_stages w ++ [mkEntry (last_node w) stage_distance stage_cost (stage_terrain w)],
          terrain, PyFloat.zero)
    else (w_stages w, stage_terrain w, stage_distance) in
  mkWalk node rests stages rest_distance rest_cost stage_distance stage_cost stage_terrain.

Definition walk_step (self : TopImage) (pixel_length rest : float) (final : Node)
    (w : Walk) (node : Node) : result Walk :=
  let* m := edge_metrics self pixel_length (last_node w) node in
  Ok (advance rest final w node m).

Fixpoint walk (self : TopImage) (pixel_length rest : float) (final : Node)
    (rest_nodes : list Node) (w : Walk) : result Walk :=
  match rest_nodes with
  | [] => Ok w
  | node :: rest_nodes' =>
      let* w' := walk_step self pixel_length rest final w node in
      walk self pixel_length rest final rest_nodes' w'
  end.

(** The part of [read_path] after the search, for any node list. *)
Definition segment (self : TopImage) (node_list : list Node) (pixel_length rest : float)
    : result Itinerary :=
  match node_list with
  | [] => Raise IndexError
  | first :: others =>
      let* color := Graph.node_color first (graph self) in
      let* d := of_option KeyError (density_dict self !! color) in
      let w0 := mkWalk first [] [] PyFloat.zero PyFloat.zero PyFloat.zero PyFloat.zero d.1 in
      let* w := walk self pixel_length rest (List.last node_list first) others w0 in
      Ok (mkItinerary (w_rests w) (w_stages w) node_list)
  end.

Definition shortest_path (self : TopImage) (source target : Node) : result (list Node) :=
  let* r := Dijkstra.single_source_dijkstra (graph self) source target in Ok r.2.

Definition read_path (self : TopImage) (source target : Node) (pixel_length rest : float)
    : result Itinerary :=
  let* node_list := shortest_path self source target in
  segment self node_list pixel_length rest.

(** The per-edge metrics of a whole node list, edge after edge. *)
Fixpoint path_metrics (self : TopImage) (pixel_length : float) (a : Node)
    (others : list Node) : result (list (float * float * string)) :=
  match others with
  | [] => Ok []
  | b :: others' =>
      let* m := edge_metrics self pixel_length a b in
      let* ms := path_metrics self pixel_length b others' in
      Ok (m :: ms)
  end.

(** A running sub-accumulator: [0.0], then [+=] for each edge of the block. *)
Definition accumulate (block : list float) : float :=
  fold_left PyFloat.add block PyFloat.zero.

(** ** Scenarios

    The terrain layout of the specification's example: columns 0 and 1 are
    "Plain" (cost 1), every other column is "Water" (cost 1000).  [build]
    is the start-up sequence of [Cormyr.__init__]: a fresh object, then
    [read_nodes], then [read_edges]. *)

Module Scenario.

Definition plain : Color := (129, 255, 0, 153).
Definition water : Color := (22, 64, 223, 153).

Definition table : gmap Color (string * Z) :=
  <[plain := ("Plain"%string, 1)]> (<[water := ("Water"%string, 1000)]> ∅).

Definition pixels (i j : Z) : Color := if i <? 2 then plain else water.

Definition image33 : Image := mkImage 3 3 pixels.
Definition image55 : Image := mkImage 5 5 pixels.
Definition image64 : Image := mkImage 6 4 pixels.
Definition image74 : Image := mkImage 7 4 pixels.

Definition build (img : Image) (step : Z) (t : gmap Color (string * Z))
    : result unit * TopImage :=
  match read_nodes step (init img) with
  | (Ok _, self) => read_edges t self
  | (Raise e, self) => (Raise e, self)
  end.

Definition grid33 : TopImage := (build image33 1 table).2.
Definition grid55 : TopImage := (build image55 1 table).2.
Definition grid64 : TopImage := (build image64 1 table).2.
Definition grid74 : TopImage := (build image74 1 table).2.

Definition fl (z : Z) : float := PyFloat.of_Z z.

(** The pixel length that [Main.calculate] passes: [1/2.7]. *)
Definition miles_per_pixel : float := PyFloat.div (fl 1) (PyFloat.div (fl 27) (fl 10)).

(** A colour that the table does not classify. *)
Definition unknown : Color := (0, 0, 0, 255).

(** An image without pixels: every position is outside of it. *)
Definition null_image : Image := mkImage 0 0 (fun _ _ => unknown).

(** The 5x5 layout with one unclassified pixel in the corner (0,0). *)
Definition image55_corner : Image :=
  mkImage 5 5 (fun i j => if (i =? 0) && (j =? 0) then unknown else pixels i j).

(** A table that does not classify the water. *)
Definition plain_only : gmap Color (string * Z) := <[plain := ("Plain"%string, 1)]> ∅.

(** A table whose costs need more than the 53 bits of a float. *)
Definition heavy : gmap Color (string * Z) :=
  <[plain := ("Plain"%string, 2 ^ 53 + 1)]> (<[water := ("Water"%string, 2 ^ 53 + 1)]> ∅).

(** A table with a negative cost. *)
Definition downhill : gmap Color (string * Z) :=
  <[plain := ("Plain"%string, -3)]> (<[water := ("Water"%string, 1000)]> ∅).

End Scenario.

(** ** The predicates of the statements *)

(** Where a stage entry is anchored: at the node the closing edge leaves. *)
Definition anchored (self : TopImage) (node_list : list Node) (final : Node)
    (e : Entry) : Prop :=
  exists (i : nat) (b : Node) (d : EdgeData),
    node_list !! i = Some (e_node e) /\
    node_list !! S i = Some b /\
    Graph.edge (e_node e) b (graph self) = Ok d /\
    (terrain d <> e_terrain e \/ b = final).

Definition nonempty (block : list float) : Prop := block <> [].

(** The weight in the words of the specification: the cost times the
    factor, as exact numbers, cut to an integer toward zero.  A float factor
    [m * 2^e] is taken at its exact value. *)
Definition truncated_product (cost : Z) (f : pynum) : option Z :=
  match f with
  | PInt k => Some (cost * k)
  | PFloat (S754_zero _) => Some 0
  | PFloat (S754_finite s m e) =>
      let n := cost * (if s then Z.neg m else Z.pos m) in
      Some (if 0 <=? e then n * 2 ^ e else Z.quot n (2 ^ (- e)))
  | PFloat _ => None
  end.

(** A float that [int] takes to a non-negative integer, if to any. *)
Definition nonneg_float (x : float) : Prop :=
  match x with
  | S754_zero _ => True
  | S754_infinity s => s = false
  | S754_nan => True
  | S754_finite s _ _ => s = false
  end.

(** What [get_star] writes on the edge from the sweep node [s] to [t]. *)
Definition star_attributes (table : gmap Color (string * Z)) (step : Z)
    (sources : list Node) (g : Graph) (e : Edge) : Prop :=
  exists cs ct ds dt,
    e.1.1 ∈ sources /\
    (e.1.2, factor e.2) ∈ star step e.1.1 /\
    Graph.node_color e.1.1 g = Ok cs /\ table !! cs = Some ds /\
    Graph.node_color e.1.2 g = Ok ct /\ table !! ct = Some dt /\
    terrain e.2 = (if dt.2 <? ds.2 then dt.1 else ds.1) /\
    (let* p := int_mul (if dt.2 <? ds.2 then dt.2 else ds.2) (factor e.2) in py_int p)
      = Ok (weight e.2).

(** A node that [get_density] cannot classify with the table: it has no
    colour, or its colour is not a key of the table. *)
Definition unclassified (table : gmap Color (string * Z)) (g : Graph) (n : Node) : Prop :=
  forall c, Graph.node_color n g = Ok c -> table !! c = None.

(** Two nodes joined by an edge, in either direction. *)
Definition adjacent (g : Graph) (a b : Node) : Prop :=
  exists e, e ∈ g_edges g /\ ((e.1.1 = a /\ e.1.2 = b) \/ (e.1.1 = b /\ e.1.2 = a)).

(** A connecting path in the graph. *)
Definition connected (g : Graph) : Node -> Node -> Prop := rtc (adjacent g).

Definition unsettled (d : gmap Node Z) (n : Node) : nat :=
  match d !! n with
  | Some _ => 0
  | None => 1
  end.

(** The ends of edges that are not settled yet. *)
Fixpoint slots (d : gmap Node Z) (es : list Edge) : nat :=
  match es with
  | [] => 0
  | e :: es' => unsettled d e.1.1 + unsettled d e.1.2 + slots d es'
  end.

(** What bounds the number of turns left to the loop. *)
Definition turns (g : Graph) (st : Dijkstra.state) : nat :=
  length (Dijkstra.fringe st) + slots (Dijkstra.dist st) (g_edges g).

(** The part of the invariant of the loop that the error cases rest on:
    settled nodes and fringe nodes are reached from the source, fringe nodes
    have a path recorded, and no settled distance exceeds a fringe
    distance. *)
Definition sound (g : Graph) (source : Node) (st : Dijkstra.state) : Prop :=
  (forall u du, Dijkstra.dist st !! u = Some du -> connected g source u) /\
  (forall x, x ∈ Dijkstra.fringe st ->
             connected g source x.2 /\ is_Some (Dijkstra.paths st !! x.2)) /\
  (forall u du x, Dijkstra.dist st !! u = Some du -> x ∈ Dijkstra.fringe st -> du <= x.1.1).

(** ** The click on the map and the notions of the further properties *)

(** [lambda c: c - c % step_size] of [Main.map_menu], for one coordinate of
    the click. *)
Definition snap (step : option Z) (c : Z) : result Z :=
  match step with
  | None => Raise TypeError
  | Some s => if s =? 0 then Raise ZeroDivisionError else Ok (c - c mod s)
  end.

(** [tuple(map(lambda c: ..., event.pos().toTuple()))] *)
Definition snap_position (step : option Z) (pos : Z * Z) : result Node :=
  let* x := snap step pos.1 in
  let* y := snap step pos.2 in
  Ok (x, y).

(** The coordinates that the two loops of [read_nodes] visit. *)
Definition sampled (img : Image) (step : Z) (n : Node) : Prop :=
  (0 <= n.1 < width img - 1 /\ n.1 mod step = 0) /\
  (0 <= n.2 < height img - 1 /\ n.2 mod step = 0).

(** The coordinates that the two loops of [read_edges] visit. *)
Definition swept (img : Image) (step : Z) (n : Node) : Prop :=
  (step <= n.1 < width img - step - 1 /\ n.1 mod step = 0) /\
  (step <= n.2 < height img - step - 1 /\ n.2 mod step = 0).

(** The table of an object against the table [d0] it started from: nothing
    is lost or changed, what is new has the empty label and the cost 0, and
    every coloured node of the graph has its colour in the table. *)
Definition registered (d0 : gmap Color (string * Z)) (self : TopImage) : Prop :=
  (forall c d, d0 !! c = Some d -> density_dict self !! c = Some d) /\
  (forall c d, density_dict self !! c = Some d ->
               d0 !! c = Some d \/ (d0 !! c = None /\ d = (""%string, 0))) /\
  (forall n c, Graph.node_color n (graph self) = Ok c ->
               is_Some (density_dict self !! c)).

(** A node of the path with the metrics of the edge that leads to it. *)
Definition Walked : Type := Node * (float * float * string).

Definition block_distance (b : list Walked) : float :=
  accumulate (map (fun x : Walked => x.2.1.1) b).

Definition block_cost (b : list Walked) : float :=
  accumulate (map (fun x : Walked => x.2.1.2) b).

(** A stretch of the walk within which no rest is due: the cost accumulated
    from its start reaches the budget after none of its edges. *)
Definition quiet (rest : float) (b : list Walked) : Prop :=
  forall k, (0 < k <= length b)%nat -> rest_due rest (block_cost (take k b)) = false.

(** The rest entry of a block of the walk, given as its edges but the last
    and its last edge: the rest is due at the last edge and not before, and
    the entry holds the node reached, the distance and the cost of the
    block, and the terrain of the last edge. *)
Definition rest_block (rest : float) (bx : list Walked * Walked) (e : Entry) : Prop :=
  e = mkEntry bx.2.1 (block_distance (bx.1 ++ [bx.2])) (block_cost (bx.1 ++ [bx.2])) bx.2.2.2 /\
  rest_due rest (block_cost (bx.1 ++ [bx.2])) = true /\
  quiet rest bx.1.

Definition flatten (blocks : list (list Walked * Walked)) : list Walked :=
  concat (map (fun bx : list Walked * Walked => bx.1 ++ [bx.2]) blocks).

(** A walk of the graph from [s]: the way [_dijkstra_multisource] builds its
    paths, one node appended after the other. *)
Inductive walk_to (g : Graph) (s : Node) : Node -> list Node -> Prop :=
| walk_here : walk_to g s s [s]
| walk_on (u v : Node) (p : list Node) :
    walk_to g s u p -> adjacent g u v -> walk_to g s v (p ++ [v]).

Definition paths_valid (g : Graph) (source : Node) (st : Dijkstra.state) : Prop :=
  forall u p, Dijkstra.paths st !! u = Some p -> walk_to g source u p.

(** A node that the search has settled or holds in its fringe. *)
Definition reached (st : Dijkstra.state) (u : Node) : Prop :=
  is_Some (Dijkstra.dist st !! u) \/ exists x, x ∈ Dijkstra.fringe st /\ x.2 = u.

(** The search loses no node: the neighbours of a settled node are reached
    (for the pairs in [cover]; between two turns of the loop these are all
    pairs), seen nodes are reached, the source is seen, reached nodes have a
    path. *)
Definition closed_upto (g : Graph) (source : Node) (cover : Node -> Node -> Prop)
    (st : Dijkstra.state) : Prop :=
  (forall v u, is_Some (Dijkstra.dist st !! v) -> adjacent g v u -> cover v u ->
               reached st u) /\
  (forall u, is_Some (Dijkstra.seen st !! u) -> reached st u) /\
  is_Some (Dijkstra.seen st !! source) /\
  (forall u, reached st u -> is_Some (Dijkstra.paths st !! u)).

(** A walk from [s] with its total weight, summed over the adjacency
    entries that the search reads. *)
Inductive weighed (g : Graph) (s : Node) : Node -> list Node -> Z -> Prop :=
| weighed_here : weighed g s s [s] 0
| weighed_on (u v : Node) (p : list Node) (w : Z) (d : EdgeData) :
    weighed g s u p w -> (v, d) ∈ Graph.neighbors u g ->
    weighed g s v (p ++ [v]) (w + weight d).

(** The invariant of the search behind the least weight: a settled distance
    is the weight of the recorded path and no walk is lighter; a seen
    distance is the weight of the recorded path; an unsettled seen node has
    a fringe entry with its seen distance, and no fringe entry of it is
    below that; the adjacency entries of a settled node are relaxed (for the
    entries in [cover]); the source is settled or waits with distance 0. *)
Record optimal (g : Graph) (source : Node) (cover : Node -> Node * EdgeData -> Prop)
    (st : Dijkstra.state) : Prop := mkOptimal {
  opt_least : forall u du p w,
    Dijkstra.dist st !! u = Some du -> weighed g source u p w -> du <= w;
  opt_path : forall u du,
    Dijkstra.dist st !! u = Some du ->
    exists p, Dijkstra.paths st !! u = Some p /\ weighed g source u p du;
  opt_seen : forall u su,
    Dijkstra.seen st !! u = Some su ->
    exists p, Dijkstra.paths st !! u = Some p /\ weighed g source u p su;
  opt_entry : forall u su,
    Dijkstra.dist st !! u = None -> Dijkstra.seen st !! u = Some su ->
    exists c, (su, c, u) ∈ Dijkstra.fringe st;
  opt_fringe : forall x,
    x ∈ Dijkstra.fringe st -> Dijkstra.dist st !! x.2 = None ->
    exists su, Dijkstra.seen st !! x.2 = Some su /\ su <= x.1.1;
  opt_relaxed : forall v dv ue,
    Dijkstra.dist st !! v = Some dv -> ue ∈ Graph.neighbors v g -> cover v ue ->
    is_Some (Dijkstra.dist st !! ue.1) \/
    exists su, Dijkstra.seen st !! ue.1 = Some su /\ su <= dv + weight ue.2;
  opt_source :
    is_Some (Dijkstra.dist st !! source) \/ exists c, (0, c, source) ∈ Dijkstra.fringe st
}.

(** The total weight of a node list, read edge after edge as [read_path]
    reads its edges: [G.edges[(a, b)]['weight']]. *)
Fixpoint path_weight (g : Graph) (a : Node) (others : list Node) : result Z :=
  match others with
  | [] => Ok 0
  | b :: others' =>
      let* d := Graph.edge a b g in
      let* w := path_weight g b others' in
      Ok (weight d + w)
  end.

(** An edge list with one entry for each unordered pair at most. *)
Inductive simple : list Edge -> Prop :=
| simple_nil : simple []
| simple_cons (e : Edge) (es : list Edge) :
    (forall e', e' ∈ es -> joins e.1.1 e.1.2 e' = false) ->
    simple es -> simple (e :: es).

(** * Properties *)

(** ** The result monad *)

Lemma bind_ok {A B : Type} (r : result A) (k : A -> result B) (b : B) :
  bind r k = Ok b -> exists a, r = Ok a /\ k a = Ok b.
Proof. destruct r as [a|e]; simpl; [eauto | discriminate]. Qed.

Lemma read_path_inv self source target pixel_length rest it :
  read_path self source target pixel_length rest = Ok it ->
  exists node_list,
    shortest_path self source target = Ok node_list /\
    segment self node_list pixel_length rest = Ok it.
Proof. intros H. apply bind_ok in H. exact H. Qed.

Lemma segment_inv self node_list pixel_length rest it :
  segment self node_list pixel_length rest = Ok it ->
  exists first others color d w,
    node_list = first :: others /\
    Graph.node_color first (graph self) = Ok color /\
    density_dict self !! color = Some d /\
    walk self pixel_length rest (List.last node_list first) others
      (mkWalk first [] [] PyFloat.zero PyFloat.zero PyFloat.zero PyFloat.zero d.1) = Ok w /\
    it = mkItinerary (w_rests w) (w_stages w) node_list.
Proof.
  destruct node_list as [|first others]; [discriminate|].
  unfold segment. intros H.
  apply bind_ok in H as (color & Hc & H).
  apply bind_ok in H as (d & Hd & H).
  apply bind_ok in H as (w & Hw & H).
  exists first, others, color, d, w.
  destruct (density_dict self !! color) eqn:E; simpl in Hd; [|discriminate].
  repeat split; congruence.
Qed.

Lemma walk_cons_inv self pixel_length rest final node l w w' :
  walk self pixel_length rest final (node :: l) w = Ok w' ->
  exists m,
    edge_metrics self pixel_length (last_node w) node = Ok m /\
    walk self pixel_length rest final l (advance rest final w node m) = Ok w'.
Proof.
  simpl. intros H. apply bind_ok in H as (w1 & H1 & H).
  unfold walk_step in H1. apply bind_ok in H1 as (m & Hm & H1).
  exists m. split; [exact Hm|]. congruence.
Qed.

(** ** What one turn of the loop does to each variable *)

Lemma advance_last_node rest final w node m :
  last_node (advance rest final w node m) = node.
Proof.
  unfold advance. destruct m as [[distance cost] terr].
  destruct (rest_due _ _), (stage_due _ _ _ _); reflexivity.
Qed.

Lemma advance_rests rest final w node distance cost terr :
  w_rests (advance rest final w node (distance, cost, terr)) =
    if rest_due rest (PyFloat.add (rest_cost w) cost)
    then w_rests w ++ [mkEntry node (PyFloat.add (rest_distance w) distance)
                               (PyFloat.add (rest_cost w) cost) terr]
    else w_rests w.
Proof.
  unfold advance.
  destruct (rest_due _ _), (stage_due _ _ _ _); reflexivity.
Qed.

Lemma advance_rest_distance rest final w node distance cost terr :
  rest_distance (advance rest final w node (distance, cost, terr)) =
    if rest_due rest (PyFloat.add (rest_cost w) cost)
    then PyFloat.zero
    else PyFloat.add (rest_distance w) distance.
Proof.
  unfold advance.
  destruct (rest_due _ _), (stage_due _ _ _ _); reflexivity.
Qed.

Lemma advance_stages rest final w node distance cost terr :
  w_stages (advance rest final w node (distance, cost, terr)) =
    if stage_due terr (stage_terrain w) node final
    then w_stages w ++ [mkEntry (last_node w) (PyFloat.add (stage_distance w) distance)
                                (PyFloat.add (stage_cost w) cost) (stage_terrain w)]
    else w_stages w.
Proof.
  unfold advance.
  destruct (rest_due _ _), (stage_due _ _ _ _); reflexivity.
Qed.

Lemma advance_stage_distance rest final w node distance cost terr :
  stage_distance (advance rest final w node (distance, cost, terr)) =
    if stage_due terr (stage_terrain w) node final
    then PyFloat.zero
    else PyFloat.add (stage_distance w) distance.
Proof.
  unfold advance.
  destruct (rest_due _ _), (stage_due _ _ _ _); reflexivity.
Qed.

(** The cost of the stage is carried over every boundary: the only
    assignments to [stage_cost] are its initialisation and [+=]. *)
Lemma advance_stage_cost rest final w node distance cost terr :
  stage_cost (advance rest final w node (distance, cost, terr)) =
    PyFloat.add (stage_cost w) cost.
Proof.
  unfold advance.
  destruct (rest_due _ _), (stage_due _ _ _ _); reflexivity.
Qed.

(** ** Rests *)

Lemma walk_rests_falsy self pixel_length rest final l :
  PyFloat.truthy rest = false ->
  forall w w',
    walk self pixel_length rest final l w = Ok w' -> w_rests w' = w_rests w.
Proof.
  intros Hz. induction l as [|node l IH]; intros w w' H.
  - simpl in H. congruence.
  - apply walk_cons_inv in H as ([[distance cost] terr] & _ & H).
    apply IH in H. rewrite H, advance_rests.
    unfold rest_due. rewrite Hz. reflexivity.
Qed.

Lemma walk_rests_reach_budget self pixel_length rest final l :
  forall w w',
    Forall (fun e => PyFloat.ge (e_cost e) rest = true) (w_rests w) ->
    walk self pixel_length rest final l w = Ok w' ->
    Forall (fun e => PyFloat.ge (e_cost e) rest = true) (w_rests w').
Proof.
  induction l as [|node l IH]; intros w w' Hw H.
  - simpl in H. congruence.
  - apply walk_cons_inv in H as ([[distance cost] terr] & _ & H).
    apply IH in H; [exact H|].
    rewrite advance_rests.
    destruct (rest_due _ _) eqn:Hdue; [|exact Hw].
    apply Forall_app. split; [exact Hw|].
    constructor; [|constructor]. simpl.
    unfold rest_due in Hdue. apply andb_true_iff in Hdue. tauto.
Qed.

(** C2, as amended: a rest budget that is zero ([0.0] or [-0.0], the values
    the guard [if rest] takes for false) disables the rests: [segment], hence
    [read_path], returns an empty [rests] list for every graph, node list and
    pixel length. *)
Theorem zero_budget_no_rests (self : TopImage) (pixel_length rest : float) :
  PyFloat.truthy rest = false ->
  (forall node_list it,
      segment self node_list pixel_length rest = Ok it -> rests it = []) /\
  (forall source target it,
      read_path self source target pixel_length rest = Ok it -> rests it = []).
Proof.
  intros Hz.
  assert (Hseg : forall node_list it,
             segment self node_list pixel_length rest = Ok it -> rests it = []).
  { intros node_list it H.
    apply segment_inv in H as (first & others & color & d & w & _ & _ & _ & Hw & ->).
    apply (walk_rests_falsy _ _ _ _ _ Hz) in Hw. exact Hw. }
  split; [exact Hseg|].
  intros source target it H.
  apply read_path_inv in H as (node_list & _ & H). eauto.
Qed.

Lemma zero_budget_no_rests_witness :
  exists it,
    read_path Scenario.grid64 (1, 1) (4, 1) (Scenario.fl 1) PyFloat.zero = Ok it /\
    rests it = [].
Proof.
  eexists. split; [vm_compute; reflexivity|].
  apply (proj2 (zero_budget_no_rests Scenario.grid64 (Scenario.fl 1) PyFloat.zero eq_refl)
           (1, 1) (4, 1)).
  vm_compute. reflexivity.
Defined.

(** C2, the claim as stated fails for a negative budget: [-1.0] is true for
    [if rest], and every accumulated cost is at least [-1.0], so a rest is
    recorded at every node of the route. *)
Lemma negative_budget_rests :
  PyFloat.ge PyFloat.zero (Scenario.fl (-1)) = true /\
  exists it,
    read_path Scenario.grid64 (1, 1) (4, 1) (Scenario.fl 1) (Scenario.fl (-1)) = Ok it /\
    rests it =
      [ mkEntry (2, 1) (Scenario.fl 1) (Scenario.fl 1) "Plain";
        mkEntry (3, 1) (Scenario.fl 1) (Scenario.fl 1000) "Water";
        mkEntry (4, 1) (Scenario.fl 1) (Scenario.fl 1000) "Water" ].
Proof.
  split; [reflexivity|].
  eexists. split; vm_compute; reflexivity.
Qed.

(** C10: every rest entry that [segment] or [read_path] returns records an
    accumulated cost [>=] the rest budget; this holds for every budget, so
    in particular for a strictly positive one. *)
Theorem rest_cost_reaches_budget (self : TopImage) (pixel_length rest : float) :
  (forall node_list it,
      segment self node_list pixel_length rest = Ok it ->
      Forall (fun e => PyFloat.ge (e_cost e) rest = true) (rests it)) /\
  (forall source target it,
      read_path self source target pixel_length rest = Ok it ->
      Forall (fun e => PyFloat.ge (e_cost e) rest = true) (rests it)).
Proof.
  assert (Hseg : forall node_list it,
             segment self node_list pixel_length rest = Ok it ->
             Forall (fun e => PyFloat.ge (e_cost e) rest = true) (rests it)).
  { intros node_list it H.
    apply segment_inv in H as (first & others & color & d & w & _ & _ & _ & Hw & ->).
    apply walk_rests_reach_budget in Hw; [exact Hw|constructor]. }
  split; [exact Hseg|].
  intros source target it H.
  apply read_path_inv in H as (node_list & _ & H). eauto.
Qed.

Lemma rest_cost_reaches_budget_witness :
  exists it,
    read_path Scenario.grid64 (1, 1) (4, 1) (Scenario.fl 1) (Scenario.fl 1001) = Ok it /\
    rests it = [mkEntry (3, 1) (Scenario.fl 2) (Scenario.fl 1001) "Water"] /\
    Forall (fun e => PyFloat.ge (e_cost e) (Scenario.fl 1001) = true) (rests it).
Proof.
  eexists. split; [vm_compute; reflexivity|].
  split; [vm_compute; reflexivity|].
  apply (proj2 (rest_cost_reaches_budget Scenario.grid64 (Scenario.fl 1) (Scenario.fl 1001))
           (1, 1) (4, 1)).
  vm_compute. reflexivity.
Defined.

(** ** Stages *)

Lemma edge_metrics_inv self pixel_length a b distance cost terr :
  edge_metrics self pixel_length a b = Ok (distance, cost, terr) ->
  exists d, Graph.edge a b (graph self) = Ok d /\ terrain d = terr.
Proof.
  unfold edge_metrics. intros H.
  apply bind_ok in H as (d & Hd & H).
  apply bind_ok in H as (d0 & _ & H).
  apply bind_ok in H as (step & _ & H).
  apply bind_ok in H as (dist & _ & H).
  apply bind_ok in H as (c0 & _ & H).
  apply bind_ok in H as (c & _ & H).
  exists d. split; [exact Hd|congruence].
Qed.

Lemma walk_stages_anchored self pixel_length rest final node_list l :
  forall pre w w',
    node_list = pre ++ last_node w :: l ->
    Forall (anchored self node_list final) (w_stages w) ->
    walk self pixel_length rest final l w = Ok w' ->
    Forall (anchored self node_list final) (w_stages w').
Proof.
  induction l as [|node l IH]; intros pre w w' Hnl Hw H.
  - simpl in H. congruence.
  - apply walk_cons_inv in H as ([[distance cost] terr] & Hm & H).
    apply (IH (pre ++ [last_node w])) in H; [exact H| |].
    + rewrite advance_last_node, <- app_assoc. exact Hnl.
    + rewrite advance_stages.
      destruct (stage_due _ _ _ _) eqn:Hdue; [|exact Hw].
      apply Forall_app. split; [exact Hw|].
      constructor; [|constructor].
      apply edge_metrics_inv in Hm as (d & Hd & <-).
      exists (length pre), node, d. simpl. repeat split.
      * rewrite Hnl. apply list_lookup_middle. reflexivity.
      * rewrite Hnl.
        replace (pre ++ last_node w :: node :: l)
          with ((pre ++ [last_node w]) ++ node :: l) by (rewrite <- app_assoc; reflexivity).
        apply list_lookup_middle. rewrite length_app. simpl. lia.
      * exact Hd.
      * unfold stage_due in Hdue. apply orb_true_iff in Hdue as [Hd'|Hd'].
        -- left. apply bool_decide_eq_true in Hd'. exact Hd'.
        -- right. apply bool_decide_eq_true in Hd'. exact Hd'.
Qed.

(** C3, as amended: every stage entry is anchored at the node that comes,
    on the path, immediately before the node at which the entry is emitted:
    it is the start of the edge that closes the stage (an edge whose terrain
    differs from the terrain of the stage, or the edge into the last node of
    the path).  No variable keeps the node at which a stage started. *)
Theorem stage_anchor_precedes_boundary (self : TopImage) (pixel_length rest : float) :
  (forall node_list it,
      segment self node_list pixel_length rest = Ok it ->
      Forall (anchored self node_list (List.last node_list (0, 0))) (stages it)) /\
  (forall source target it,
      read_path self source target pixel_length rest = Ok it ->
      Forall (anchored self (nodes it) (List.last (nodes it) (0, 0))) (stages it)).
Proof.
  assert (Hseg : forall node_list it,
             segment self node_list pixel_length rest = Ok it ->
             nodes it = node_list /\
             Forall (anchored self node_list (List.last node_list (0, 0))) (stages it)).
  { intros node_list it H.
    apply segment_inv in H as (first & others & color & d & w & -> & _ & _ & Hw & ->).
    split; [reflexivity|].
    replace (List.last (first :: others) (0, 0)) with (List.last (first :: others) first).
    - eapply (walk_stages_anchored _ _ _ _ _ _ []) in Hw; [exact Hw|reflexivity|constructor].
    - clear. generalize first at 1 3 as x. induction others as [|y l IH]; intros x; [reflexivity|].
      change (List.last (x :: y :: l) first) with (List.last (y :: l) first).
      change (List.last (x :: y :: l) (0, 0)) with (List.last (y :: l) (0, 0)).
      apply IH. }
  split.
  - intros node_list it H. apply Hseg in H. tauto.
  - intros source target it H.
    apply read_path_inv in H as (node_list & _ & H).
    apply Hseg in H as [-> H]. exact H.
Qed.

Lemma stage_anchor_precedes_boundary_witness :
  exists it,
    read_path Scenario.grid64 (1, 1) (4, 1) (Scenario.fl 1) PyFloat.zero = Ok it /\
    Forall (anchored Scenario.grid64 (nodes it) (List.last (nodes it) (0, 0))) (stages it).
Proof.
  eexists. split; [vm_compute; reflexivity|].
  apply (proj2 (stage_anchor_precedes_boundary Scenario.grid64 (Scenario.fl 1) PyFloat.zero)
           (1, 1) (4, 1)).
  vm_compute. reflexivity.
Defined.

(** C3, the claim as stated fails: on the route from (1,1) to (4,1) the
    first stage entry is anchored at (2,1), not at the source (1,1), and the
    second at (3,1). *)
Lemma stage_anchor_not_stage_start :
  exists it,
    read_path Scenario.grid64 (1, 1) (4, 1) (Scenario.fl 1) PyFloat.zero = Ok it /\
    nodes it = [(1, 1); (2, 1); (3, 1); (4, 1)] /\
    map e_node (stages it) = [(2, 1); (3, 1)].
Proof.
  eexists. split; [vm_compute; reflexivity|].
  split; vm_compute; reflexivity.
Qed.

Lemma accumulate_snoc (block : list float) (d : float) :
  accumulate (block ++ [d]) = PyFloat.add (accumulate block) d.
Proof. unfold accumulate. rewrite fold_left_app. reflexivity. Qed.

(** Every stage entry carries the cost of the whole walk up to its own
    closing edge: [stage_cost] accumulates from the first edge of the path,
    whatever stage boundaries were passed. *)
Lemma walk_stage_cost_prefix self pixel_length rest final l :
  forall w w',
    walk self pixel_length rest final l w = Ok w' ->
    forall done,
      stage_cost w = accumulate done ->
      exists ms,
        path_metrics self pixel_length (last_node w) l = Ok ms /\
        stage_cost w' = accumulate (done ++ map (fun m => m.1.2) ms) /\
        forall e, e ∈ w_stages w' ->
          e ∈ w_stages w \/
          exists pre suf,
            done ++ map (fun m => m.1.2) ms = pre ++ suf /\
            (length done < length pre)%nat /\
            e_cost e = accumulate pre.
Proof.
  induction l as [|node l IH]; intros w w' H done Hc.
  - simpl in H. injection H as <-. exists []. simpl. rewrite app_nil_r.
    split; [reflexivity|]. split; [exact Hc|]. auto.
  - apply walk_cons_inv in H as ([[distance cost] terr] & Hm & H).
    destruct (IH _ _ H (done ++ [cost])) as (ms & Hms & Hc' & Hst).
    { rewrite advance_stage_cost, accumulate_snoc, Hc. reflexivity. }
    exists ((distance, cost, terr) :: ms).
    rewrite advance_last_node in Hms. simpl. rewrite Hm. simpl. rewrite Hms. simpl.
    rewrite <- app_assoc in Hc'. simpl in Hc'.
    split; [reflexivity|]. split; [exact Hc'|].
    intros e He. destruct (Hst e He) as [Hold|(pre & suf & Heq & Hlen & Hcost)].
    + rewrite advance_stages in Hold.
      destruct (stage_due _ _ _ _); [|auto].
      apply elem_of_app in Hold as [Hold|Hnew]; [auto|].
      apply list_elem_of_singleton in Hnew as ->. right.
      exists (done ++ [cost]), (map (fun m => m.1.2) ms). simpl.
      split; [rewrite <- app_assoc; reflexivity|].
      split; [rewrite length_app; simpl; lia|].
      rewrite accumulate_snoc, Hc. reflexivity.
    + right. exists pre, suf. rewrite <- app_assoc in Heq. simpl in Heq.
      split; [exact Heq|]. split; [|exact Hcost].
      rewrite length_app in Hlen. simpl in Hlen. lia.
Qed.

(** C1: the code does not do what the claim says.  On the route from (1,1)
    to (4,1) the three edges cost 1, 1000 and 1000; the stage "Plain" is
    closed by the second edge, and the stage "Water" that follows is
    reported with the cost 2001 of the whole route, where the edges walked
    since the boundary cost 1000.  The distance is reset (1), the cost is
    not. *)
Theorem stage_cost_runs_over_boundaries :
  read_path Scenario.grid64 (1, 1) (4, 1) (Scenario.fl 1) PyFloat.zero =
    Ok (mkItinerary []
          [ mkEntry (2, 1) (Scenario.fl 2) (Scenario.fl 1001) "Plain";
            mkEntry (3, 1) (Scenario.fl 1) (Scenario.fl 2001) "Water" ]
          [(1, 1); (2, 1); (3, 1); (4, 1)]) /\
  path_metrics Scenario.grid64 (Scenario.fl 1) (1, 1) [(2, 1); (3, 1); (4, 1)] =
    Ok [ (Scenario.fl 1, Scenario.fl 1, "Plain"%string);
         (Scenario.fl 1, Scenario.fl 1000, "Water"%string);
         (Scenario.fl 1, Scenario.fl 1000, "Water"%string) ].
Proof. split; vm_compute; reflexivity. Qed.

(** ** The two decompositions of the walk *)

Lemma walk_stage_blocks self pixel_length rest final l :
  forall w w',
    walk self pixel_length rest final l w = Ok w' ->
    forall blocks open,
      map e_distance (w_stages w) = map accumulate blocks ->
      stage_distance w = accumulate open ->
      Forall nonempty blocks ->
      exists ms blocks' open',
        path_metrics self pixel_length (last_node w) l = Ok ms /\
        map e_distance (w_stages w') = map accumulate blocks' /\
        stage_distance w' = accumulate open' /\
        Forall nonempty blocks' /\
        concat blocks' ++ open' = (concat blocks ++ open) ++ map (fun m => m.1.1) ms /\
        (l = [] -> open' = open) /\
        ((exists l0, l = l0 ++ [final]) -> open' = []).
Proof.
  induction l as [|node l IH]; intros w w' H blocks open Hst Hod Hne.
  - simpl in H. injection H as <-.
    exists [], blocks, open. simpl. rewrite app_nil_r.
    split; [reflexivity|]. do 5 (split; [assumption || reflexivity|]).
    intros [l0 Hl0]. destruct l0; discriminate.
  - apply walk_cons_inv in H as ([[distance cost] terr] & Hm & H).
    destruct (stage_due terr (stage_terrain w) node final) eqn:Hdue.
    + destruct (IH _ _ H (blocks ++ [open ++ [distance]]) []) as
          (ms & blocks' & open' & Hms & Hst' & Hod' & Hne' & Hcat & Hnil & Hfin).
      * rewrite advance_stages, Hdue, !map_app, Hst. simpl.
        rewrite accumulate_snoc, Hod. reflexivity.
      * rewrite advance_stage_distance, Hdue. reflexivity.
      * apply Forall_app. split; [exact Hne|].
        constructor; [|constructor]. unfold nonempty. destruct open; discriminate.
      * exists ((distance, cost, terr) :: ms), blocks', open'.
        rewrite advance_last_node in Hms. simpl. rewrite Hm. simpl. rewrite Hms. simpl.
        split; [reflexivity|]. do 3 (split; [assumption|]). split; [|split].
        -- rewrite Hcat, concat_app. simpl. rewrite !app_nil_r, <- !app_assoc. reflexivity.
        -- discriminate.
        -- intros [l0 Hl0]. destruct l0 as [|x l0].
           ++ simpl in Hl0. injection Hl0 as -> ->. apply Hnil. reflexivity.
           ++ simpl in Hl0. injection Hl0 as -> ->. apply Hfin. eauto.
    + destruct (IH _ _ H blocks (open ++ [distance])) as
          (ms & blocks' & open' & Hms & Hst' & Hod' & Hne' & Hcat & Hnil & Hfin).
      * rewrite advance_stages, Hdue. exact Hst.
      * rewrite advance_stage_distance, Hdue, accumulate_snoc, Hod. reflexivity.
      * exact Hne.
      * exists ((distance, cost, terr) :: ms), blocks', open'.
        rewrite advance_last_node in Hms. simpl. rewrite Hm. simpl. rewrite Hms. simpl.
        split; [reflexivity|]. do 3 (split; [assumption|]). split; [|split].
        -- rewrite Hcat, <- !app_assoc. reflexivity.
        -- discriminate.
        -- intros [l0 Hl0]. destruct l0 as [|x l0].
           ++ simpl in Hl0. injection Hl0 as -> ->.
              unfold stage_due in Hdue. apply orb_false_iff in Hdue as [_ Hdue].
              apply bool_decide_eq_false in Hdue. contradiction.
           ++ simpl in Hl0. injection Hl0 as -> ->. apply Hfin. eauto.
Qed.

Lemma walk_rest_blocks self pixel_length rest final l :
  forall w w',
    walk self pixel_length rest final l w = Ok w' ->
    forall blocks open,
      map e_distance (w_rests w) = map accumulate blocks ->
      rest_distance w = accumulate open ->
      Forall nonempty blocks ->
      exists ms blocks' open',
        path_metrics self pixel_length (last_node w) l = Ok ms /\
        map e_distance (w_rests w') = map accumulate blocks' /\
        rest_distance w' = accumulate open' /\
        Forall nonempty blocks' /\
        concat blocks' ++ open' = (concat blocks ++ open) ++ map (fun m => m.1.1) ms.
Proof.
  induction l as [|node l IH]; intros w w' H blocks open Hst Hod Hne.
  - simpl in H. injection H as <-.
    exists [], blocks, open. simpl. rewrite app_nil_r.
    split; [reflexivity|]. do 3 (split; [assumption|]). reflexivity.
  - apply walk_cons_inv in H as ([[distance cost] terr] & Hm & H).
    destruct (rest_due rest (PyFloat.add (rest_cost w) cost)) eqn:Hdue.
    + destruct (IH _ _ H (blocks ++ [open ++ [distance]]) []) as
          (ms & blocks' & open' & Hms & Hst' & Hod' & Hne' & Hcat).
      * rewrite advance_rests, Hdue, !map_app, Hst. simpl.
        rewrite accumulate_snoc, Hod. reflexivity.
      * rewrite advance_rest_distance, Hdue. reflexivity.
      * apply Forall_app. split; [exact Hne|].
        constructor; [|constructor]. unfold nonempty. destruct open; discriminate.
      * exists ((distance, cost, terr) :: ms), blocks', open'.
        rewrite advance_last_node in Hms. simpl. rewrite Hm. simpl. rewrite Hms. simpl.
        split; [reflexivity|]. do 3 (split; [assumption|]).
        rewrite Hcat, concat_app. simpl. rewrite !app_nil_r, <- !app_assoc. reflexivity.
    + destruct (IH _ _ H blocks (open ++ [distance])) as
          (ms & blocks' & open' & Hms & Hst' & Hod' & Hne' & Hcat).
      * rewrite advance_rests, Hdue. exact Hst.
      * rewrite advance_rest_distance, Hdue, accumulate_snoc, Hod. reflexivity.
      * exact Hne.
      * exists ((distance, cost, terr) :: ms), blocks', open'.
        rewrite advance_last_node in Hms. simpl. rewrite Hm. simpl. rewrite Hms. simpl.
        split; [reflexivity|]. do 3 (split; [assumption|]).
        rewrite Hcat, <- !app_assoc. reflexivity.
Qed.

(** C4, as amended: the stage entries partition the walk, the rest entries
    only a beginning of it.  The per-edge distances split into consecutive
    non-empty blocks, one for each stage entry in order, which together are
    the whole list, and the distance of a stage is the accumulation ([0.0],
    then [+=] edge after edge) of its block: no distance is dropped or
    duplicated by the stages.  The rest entries accumulate, in the same way,
    consecutive non-empty blocks that are followed by a remainder [tail]:
    what is walked after the last rest is in no rest entry. *)
Theorem distances_partitioned (self : TopImage) (pixel_length rest : float)
    (node_list : list Node) (it : Itinerary) :
  segment self node_list pixel_length rest = Ok it ->
  exists first others ms,
    node_list = first :: others /\
    path_metrics self pixel_length first others = Ok ms /\
    (exists blocks,
        concat blocks = map (fun m => m.1.1) ms /\
        Forall nonempty blocks /\
        map e_distance (stages it) = map accumulate blocks) /\
    (exists blocks tail,
        concat blocks ++ tail = map (fun m => m.1.1) ms /\
        Forall nonempty blocks /\
        map e_distance (rests it) = map accumulate blocks).
Proof.
  intros H.
  apply segment_inv in H as (first & others & color & d & w & -> & _ & _ & Hw & ->).
  destruct (walk_stage_blocks _ _ _ _ _ _ _ Hw [] []) as
      (ms & sb & so & Hms & Hst & _ & Hne & Hcat & Hnil & Hfin);
    [reflexivity|reflexivity|constructor|].
  destruct (walk_rest_blocks _ _ _ _ _ _ _ Hw [] []) as
      (ms' & rb & ro & Hms' & Hrt & _ & Hrne & Hrcat);
    [reflexivity|reflexivity|constructor|].
  simpl in Hms, Hms'. rewrite Hms in Hms'. injection Hms' as <-.
  exists first, others, ms. split; [reflexivity|]. split; [exact Hms|]. split.
  - exists sb. split; [|split; assumption].
    assert (so = []) as ->.
    { destruct others as [|x others]; [apply Hnil; reflexivity|].
      apply Hfin. exists (removelast (x :: others)).
      change (List.last (first :: x :: others) first) with (List.last (x :: others) first).
      apply app_removelast_last. discriminate. }
    rewrite app_nil_r in Hcat. exact Hcat.
  - exists rb, ro. split; [exact Hrcat|]. split; assumption.
Qed.

Lemma distances_partitioned_witness :
  exists it,
    segment Scenario.grid64 [(1, 1); (2, 1); (3, 1); (4, 1)]
      (Scenario.fl 1) (Scenario.fl 1001) = Ok it /\
    exists first others ms,
      [(1, 1); (2, 1); (3, 1); (4, 1)] = first :: others /\
      path_metrics Scenario.grid64 (Scenario.fl 1) first others = Ok ms /\
      (exists blocks,
          concat blocks = map (fun m => m.1.1) ms /\
          Forall nonempty blocks /\
          map e_distance (stages it) = map accumulate blocks) /\
      (exists blocks tail,
          concat blocks ++ tail = map (fun m => m.1.1) ms /\
          Forall nonempty blocks /\
          map e_distance (rests it) = map accumulate blocks).
Proof.
  eexists. split; [vm_compute; reflexivity|].
  apply (distances_partitioned Scenario.grid64 (Scenario.fl 1) (Scenario.fl 1001)
           [(1, 1); (2, 1); (3, 1); (4, 1)]).
  vm_compute. reflexivity.
Defined.

(** C4, the claim as stated fails, twice.  With the budget 1001 on the route
    from (1,1) to (4,1) the only rest is recorded at (3,1) after two edges;
    the third edge, of cost 1000, does not reach the budget again, so its
    distance is in no rest entry: the stage distances sum to 3, the rest
    distances to 2.  With the pixel length [1/2.7] and the budget 96 on the
    route from (1,1) to (5,2), the two stage distances sum to
    7505999378950826 * 2^-52 and the four edge distances to
    7505999378950827 * 2^-52: float addition is not associative. *)
Lemma distance_sums_disagree :
  (exists it,
      read_path Scenario.grid64 (1, 1) (4, 1) (Scenario.fl 1) (Scenario.fl 1001) = Ok it /\
      map e_distance (stages it) = [Scenario.fl 2; Scenario.fl 1] /\
      map e_distance (rests it) = [Scenario.fl 2] /\
      PyFloat.sum (map e_distance (stages it)) = Scenario.fl 3 /\
      PyFloat.sum (map e_distance (rests it)) = Scenario.fl 2 /\
      PyFloat.sum (map e_distance (stages it)) <> PyFloat.sum (map e_distance (rests it))) /\
  (exists it ms,
      read_path Scenario.grid74 (1, 1) (5, 2) Scenario.miles_per_pixel (Scenario.fl 96)
        = Ok it /\
      nodes it = [(1, 1); (2, 1); (3, 1); (4, 1); (5, 2)] /\
      path_metrics Scenario.grid74 Scenario.miles_per_pixel (1, 1)
        [(2, 1); (3, 1); (4, 1); (5, 2)] = Ok ms /\
      PyFloat.sum (map e_distance (stages it))
        = S754_finite false 7505999378950826 (-52) /\
      PyFloat.sum (map (fun m => m.1.1) ms)
        = S754_finite false 7505999378950827 (-52)).
Proof.
  split.
  - eexists. split; [vm_compute; reflexivity|].
    split; [vm_compute; reflexivity|].
    split; [vm_compute; reflexivity|].
    split; [vm_compute; reflexivity|].
    split; [vm_compute; reflexivity|].
    vm_compute. discriminate.
  - eexists. eexists. split; [vm_compute; reflexivity|].
    split; [vm_compute; reflexivity|].
    split; [vm_compute; reflexivity|].
    split; vm_compute; reflexivity.
Qed.

(** ** [range] and [for] *)

Lemma py_range_zero (start stop : Z) : py_range start stop 0 = Raise ValueError.
Proof. reflexivity. Qed.

Lemma py_range_ok (start stop step : Z) :
  step <> 0 -> exists l, py_range start stop step = Ok l.
Proof.
  intros Hs. unfold py_range.
  destruct (step =? 0) eqn:E; [lia|eauto].
Qed.

Lemma py_range_empty (start stop step : Z) :
  (0 < step /\ stop <= start) \/ (step < 0 /\ start <= stop) ->
  py_range start stop step = Ok [].
Proof.
  intros H. unfold py_range, range_len.
  destruct (step =? 0) eqn:E; [lia|].
  destruct (0 <? step) eqn:E1.
  - destruct (start <? stop) eqn:E2; [lia|reflexivity].
  - destruct (stop <? start) eqn:E2; [lia|reflexivity].
Qed.

Lemma for_each_total {A S : Type} (body : A -> S -> result unit * S) (l : list A) :
  (forall x s, (body x s).1 = Ok tt) ->
  forall s, (for_each body l s).1 = Ok tt.
Proof.
  intros Hb. induction l as [|x l IH]; intros s; [reflexivity|].
  simpl. specialize (Hb x s). destruct (body x s) as [[[]|e] s']; simpl in Hb.
  - apply IH.
  - discriminate.
Qed.

Lemma for_each_skip {A S : Type} (body : A -> S -> result unit * S) (l : list A) (s : S) :
  (forall x, body x s = (Ok tt, s)) -> for_each body l s = (Ok tt, s).
Proof.
  intros Hb. induction l as [|x l IH]; [reflexivity|].
  simpl. rewrite Hb. exact IH.
Qed.

(** ** [read_nodes] *)

(** ** The elements of a range *)

Lemma py_range_elem (start stop step : Z) (l : list Z) (x : Z) :
  0 < step ->
  py_range start stop step = Ok l ->
  x ∈ l <-> start <= x < stop /\ (x - start) mod step = 0.
Proof.
  intros Hs H. unfold py_range in H.
  destruct (step =? 0) eqn:E; [lia|]. injection H as <-.
  unfold range_len. destruct (0 <? step) eqn:E1; [|lia].
  rewrite list_elem_of_In, in_map_iff. split.
  - intros (k & <- & Hk). apply in_seq in Hk.
    destruct (start <? stop) eqn:E2; [|simpl in Hk; lia].
    assert (Hk' : Z.of_nat k <= (stop - start - 1) / step) by lia.
    assert (Hm : step * ((stop - start - 1) / step) <= stop - start - 1)
      by (apply Z.mul_div_le; lia).
    split; [nia|].
    replace (start + Z.of_nat k * step - start) with (Z.of_nat k * step) by lia.
    apply Z_mod_mult.
  - intros [[H1 H2] Hm].
    assert (Hx : x - start = step * ((x - start) / step))
      by (apply Z_div_exact_full_2; lia).
    assert (Hq : 0 <= (x - start) / step) by (apply Z.div_pos; lia).
    assert (Hle : (x - start) / step <= (stop - start - 1) / step)
      by (apply Z.div_le_mono; lia).
    exists (Z.to_nat ((x - start) / step)). split; [lia|].
    apply in_seq. destruct (start <? stop) eqn:E2; lia.
Qed.

(** ** The nodes that [read_nodes] creates *)

Lemma add_sample_nodes (i j : Z) (c : Color) (self : TopImage) :
  g_nodes (graph (add_sample i j c self)) = <[(i, j) := Some c]> (g_nodes (graph self)).
Proof. unfold add_sample. destruct (density_dict self !! _); reflexivity. Qed.

Lemma add_sample_frame (i j : Z) (c : Color) (self : TopImage) :
  image (add_sample i j c self) = image self /\
  step_size (add_sample i j c self) = step_size self /\
  g_edges (graph (add_sample i j c self)) = g_edges (graph self).
Proof. unfold add_sample. destruct (density_dict self !! _); auto. Qed.

Lemma sample_inside (i j : Z) (self : TopImage) :
  inside (image self) i j = true ->
  sample i j self = (Ok tt, add_sample i j (pixelColor (image self) i j) self).
Proof. intros H. unfold sample, pixel_tuple. rewrite H. reflexivity. Qed.

Lemma sample_outside (i j : Z) (self : TopImage) :
  inside (image self) i j = false -> sample i j self = (Raise SystemError, self).
Proof. intros H. unfold sample, pixel_tuple. rewrite H. reflexivity. Qed.

Lemma inside_range (img : Image) (i j : Z) :
  0 <= i < width img - 1 -> 0 <= j < height img - 1 -> inside img i j = true.
Proof.
  intros Hi Hj. unfold inside.
  rewrite !andb_true_iff, !Z.leb_le, !Z.ltb_lt. lia.
Qed.

(** One column of the sampling, all of it inside the image. *)
Lemma sample_rows (i : Z) (rows : list Z) :
  forall self,
    (forall j, j ∈ rows -> inside (image self) i j = true) ->
    exists self',
      for_each (fun j self => sample i j self) rows self = (Ok tt, self') /\
      image self' = image self /\
      step_size self' = step_size self /\
      g_edges (graph self') = g_edges (graph self) /\
      forall n,
        (n.1 = i /\ n.2 ∈ rows ->
         g_nodes (graph self') !! n = Some (Some (pixelColor (image self) n.1 n.2))) /\
        (~ (n.1 = i /\ n.2 ∈ rows) ->
         g_nodes (graph self') !! n = g_nodes (graph self) !! n).
Proof.
  induction rows as [|j rows IH]; intros self Hin.
  - exists self. simpl. do 4 (split; [reflexivity|]). intros n. split.
    + intros [_ H]. apply elem_of_nil in H. contradiction.
    + reflexivity.
  - destruct (add_sample_frame i j (pixelColor (image self) i j) self)
      as (Him0 & Hst0 & Hed0).
    destruct (IH (add_sample i j (pixelColor (image self) i j) self))
      as (self' & Hrun & Him & Hst & Hed & Hn).
    { intros j' Hj'. rewrite Him0. apply Hin, list_elem_of_further, Hj'. }
    exists self'. cbn [for_each].
    rewrite (sample_inside i j self (Hin j (list_elem_of_here _ _))).
    split; [exact Hrun|].
    split; [congruence|]. split; [congruence|]. split; [congruence|].
    intros n. destruct (Hn n) as [Hin' Hout]. rewrite Him0 in Hin'.
    destruct (decide (n.1 = i /\ n.2 ∈ rows)) as [Hd|Hd].
    + split; [intros _; apply Hin', Hd|].
      intros Hnot. exfalso. apply Hnot. destruct Hd as [H1 H2].
      split; [exact H1|]. apply elem_of_cons. auto.
    + rewrite (Hout Hd), add_sample_nodes. split.
      * intros [H1 H2]. apply elem_of_cons in H2 as [H2|H2]; [|tauto].
        destruct n as [a b]. simpl in *. subst. apply lookup_insert_eq.
      * intros Hnot. apply lookup_insert_ne. intros <-. apply Hnot.
        split; [reflexivity|]. apply elem_of_cons. auto.
Qed.

(** All the columns. *)
Lemma sample_cols (step : Z) (rows cols : list Z) :
  forall self,
    py_range 0 (height (image self) - 1) step = Ok rows ->
    (forall i j, i ∈ cols -> j ∈ rows -> inside (image self) i j = true) ->
    exists self',
      for_each (fun i self =>
        match py_range 0 (height (image self) - 1) step with
        | Raise e => (Raise e, self)
        | Ok rows => for_each (fun j self => sample i j self) rows self
        end) cols self = (Ok tt, self') /\
      image self' = image self /\
      step_size self' = step_size self /\
      g_edges (graph self') = g_edges (graph self) /\
      forall n,
        (n.1 ∈ cols /\ n.2 ∈ rows ->
         g_nodes (graph self') !! n = Some (Some (pixelColor (image self) n.1 n.2))) /\
        (~ (n.1 ∈ cols /\ n.2 ∈ rows) ->
         g_nodes (graph self') !! n = g_nodes (graph self) !! n).
Proof.
  induction cols as [|i cols IH]; intros self Hrows Hin.
  - exists self. simpl. do 4 (split; [reflexivity|]). intros n. split.
    + intros [H _]. apply elem_of_nil in H. contradiction.
    + reflexivity.
  - destruct (sample_rows i rows self) as (self1 & Hrun1 & Him1 & Hst1 & Hed1 & Hn1).
    { intros j Hj. apply Hin; [apply list_elem_of_here|exact Hj]. }
    destruct (IH self1) as (self' & Hrun & Him & Hst & Hed & Hn).
    { rewrite Him1. exact Hrows. }
    { intros i' j' Hi' Hj'. rewrite Him1. apply Hin; [apply list_elem_of_further, Hi'|exact Hj']. }
    exists self'. cbn [for_each]. rewrite Hrows, Hrun1.
    split; [exact Hrun|].
    split; [congruence|]. split; [congruence|]. split; [congruence|].
    intros n. destruct (Hn n) as [Hin' Hout]. rewrite Him1 in Hin'.
    destruct (Hn1 n) as [Hin1 Hout1].
    destruct (decide (n.1 ∈ cols /\ n.2 ∈ rows)) as [Hd|Hd].
    + split; [intros _; apply Hin', Hd|].
      intros Hnot. exfalso. apply Hnot. destruct Hd as [H1 H2].
      split; [apply elem_of_cons; auto|exact H2].
    + rewrite (Hout Hd). split.
      * intros [H1 H2]. apply elem_of_cons in H1 as [H1|H1]; [|tauto].
        apply Hin1. auto.
      * intros Hnot. apply Hout1. intros [H1 H2]. apply Hnot.
        split; [apply elem_of_cons; auto|exact H2].
Qed.

Lemma read_nodes_sampled (step : Z) (self : TopImage) :
  0 < step ->
  (read_nodes step self).1 = Ok tt /\
  image (read_nodes step self).2 = image self /\
  step_size (read_nodes step self).2 = Some step /\
  g_edges (graph (read_nodes step self).2) = [] /\
  forall n,
    (sampled (image self) step n ->
     g_nodes (graph (read_nodes step self).2) !! n
       = Some (Some (pixelColor (image self) n.1 n.2))) /\
    (~ sampled (image self) step n ->
     g_nodes (graph (read_nodes step self).2) !! n = None).
Proof.
  intros Hs. unfold read_nodes.
  destruct (py_range_ok 0 (width (image self) - 1) step) as [cols Hcols]; [lia|].
  destruct (py_range_ok 0 (height (image self) - 1) step) as [rows Hrows]; [lia|].
  cbn [image set_step_size set_graph]. rewrite Hcols.
  destruct (sample_cols step rows cols
              (set_step_size step (set_graph (Graph.clear (graph self)) self)) Hrows)
    as (self' & Hrun & Him & Hst & Hed & Hn).
  { intros i j Hi Hj. cbn [image set_step_size set_graph].
    apply (py_range_elem _ _ _ _ i Hs Hcols) in Hi.
    apply (py_range_elem _ _ _ _ j Hs Hrows) in Hj.
    apply inside_range; lia. }
  rewrite Hrun. cbn [fst snd]. split; [reflexivity|].
  split; [exact Him|]. split; [exact Hst|]. split; [exact Hed|].
  intros n. destruct (Hn n) as [Hin Hout].
  assert (Hiff : sampled (image self) step n <-> n.1 ∈ cols /\ n.2 ∈ rows).
  { unfold sampled.
    rewrite (py_range_elem _ _ _ _ n.1 Hs Hcols), (py_range_elem _ _ _ _ n.2 Hs Hrows).
    rewrite !Z.sub_0_r. reflexivity. }
  split.
  - intros H. apply Hin, Hiff, H.
  - intros H.
    assert (Hd : ~ (n.1 ∈ cols /\ n.2 ∈ rows)) by (rewrite <- Hiff; exact H).
    etransitivity; [exact (Hout Hd)|]. apply lookup_empty.
Qed.

(** A range that runs downward from 0 starts with 0. *)
Lemma py_range_down (stop step : Z) :
  step < 0 -> stop < 0 -> exists l, py_range 0 stop step = Ok (0 :: l).
Proof.
  intros Hs Hstop. unfold py_range, range_len.
  destruct (step =? 0) eqn:E; [lia|].
  destruct (0 <? step) eqn:E1; [lia|].
  destruct (stop <? 0) eqn:E2; [|lia].
  assert (Hq : 0 <= (0 - stop - 1) / - step) by (apply Z.div_pos; lia).
  destruct (Z.to_nat ((0 - stop - 1) / - step + 1)) as [|n] eqn:En; [lia|].
  simpl. eauto.
Qed.

(** With a negative step on an image without width and height the first
    sample, (0,0), is outside the image. *)
Lemma read_nodes_outside (step : Z) (self : TopImage) :
  step < 0 -> width (image self) <= 0 -> height (image self) <= 0 ->
  read_nodes step self
    = (Raise SystemError, set_step_size step (set_graph (Graph.clear (graph self)) self)).
Proof.
  intros Hs Hw Hh. unfold read_nodes. cbn [image set_step_size set_graph].
  destruct (py_range_down (width (image self) - 1) step) as [cols ->]; [lia|lia|].
  cbn [for_each image set_step_size set_graph].
  destruct (py_range_down (height (image self) - 1) step) as [rows ->]; [lia|lia|].
  cbn [for_each]. rewrite sample_outside; [reflexivity|].
  cbn [image set_step_size set_graph]. unfold inside.
  destruct (Z.ltb_spec 0 (width (image self))); [lia|]. reflexivity.
Qed.

(** C9, as amended: [read_nodes] raises when the step is 0 (the [ValueError]
    of [range]) and when the step is negative on an image without width and
    without height (the sample (0,0) lies outside the image: [SystemError]).
    It has no check of its own: it returns normally for every positive step,
    also on an image of zero width or height, and for a negative step as
    soon as the width or the height is at least 1.  Whenever the step is not
    positive, or the width or the height is at most 1, no node is created,
    under a successful result and under a failed one. *)
Theorem read_nodes_outcome (step : Z) (self : TopImage) :
  (step = 0 -> (read_nodes step self).1 = Raise ValueError) /\
  (step < 0 -> width (image self) <= 0 -> height (image self) <= 0 ->
   (read_nodes step self).1 = Raise SystemError) /\
  (0 < step -> (read_nodes step self).1 = Ok tt) /\
  (step < 0 -> 1 <= width (image self) \/ 1 <= height (image self) ->
   (read_nodes step self).1 = Ok tt) /\
  (step <= 0 \/ width (image self) <= 1 \/ height (image self) <= 1 ->
   g_nodes (graph (read_nodes step self).2) = ∅).
Proof.
  assert (Hempty : forall st,
            (0 < st /\ (width (image self) <= 1 \/ height (image self) <= 1)) \/
            (st < 0 /\ (1 <= width (image self) \/ 1 <= height (image self))) ->
            read_nodes st self
              = (Ok tt, set_step_size st (set_graph (Graph.clear (graph self)) self))).
  { intros st Hst. unfold read_nodes. cbn [image set_step_size set_graph].
    destruct (py_range_ok 0 (width (image self) - 1) st) as [cols Hc]; [lia|].
    rewrite Hc.
    destruct Hst as [[Hs [Hw|Hh]]|[Hs [Hw|Hh]]].
    - rewrite py_range_empty in Hc by lia. injection Hc as <-. reflexivity.
    - apply for_each_skip. intros i. cbn [image set_step_size set_graph].
      rewrite py_range_empty by lia. reflexivity.
    - rewrite py_range_empty in Hc by lia. injection Hc as <-. reflexivity.
    - apply for_each_skip. intros i. cbn [image set_step_size set_graph].
      rewrite py_range_empty by lia. reflexivity. }
  split; [|split; [|split; [|split]]].
  - intros ->. reflexivity.
  - intros Hs Hw Hh. rewrite read_nodes_outside by assumption. reflexivity.
  - intros Hs. apply (read_nodes_sampled step self Hs).
  - intros Hs Hwh. rewrite Hempty by lia. reflexivity.
  - intros Hcase.
    destruct (Z.lt_trichotomy step 0) as [Hs|[->|Hs]].
    + destruct (Z_le_gt_dec (width (image self)) 0) as [Hw|Hw],
               (Z_le_gt_dec (height (image self)) 0) as [Hh|Hh];
        try (rewrite Hempty by lia; reflexivity).
      rewrite read_nodes_outside by assumption. reflexivity.
    + reflexivity.
    + rewrite Hempty by lia. reflexivity.
Qed.

Lemma read_nodes_outcome_witness :
  (read_nodes 0 (init Scenario.image33)).1 = Raise ValueError /\
  (read_nodes (-1) (init Scenario.null_image)).1 = Raise SystemError /\
  (read_nodes 2 (init Scenario.image33)).1 = Ok tt /\
  (read_nodes (-1) (init Scenario.image33)).1 = Ok tt /\
  g_nodes (graph (read_nodes 1 (init Scenario.null_image)).2) = ∅.
Proof.
  split; [|split; [|split; [|split]]].
  - apply (proj1 (read_nodes_outcome 0 (init Scenario.image33))). reflexivity.
  - apply (proj1 (proj2 (read_nodes_outcome (-1) (init Scenario.null_image))));
      simpl; lia.
  - apply (proj1 (proj2 (proj2 (read_nodes_outcome 2 (init Scenario.image33))))). lia.
  - apply (proj1 (proj2 (proj2 (proj2 (read_nodes_outcome (-1) (init Scenario.image33)))))).
    + lia.
    + left. simpl. lia.
  - apply (proj2 (proj2 (proj2 (proj2 (read_nodes_outcome 1 (init Scenario.null_image)))))).
    right. left. simpl. lia.
Defined.

(** C9, the claim as stated fails: [read_nodes] returns normally on an image
    without pixels (step 1), and on a negative step (image 3x3), each time
    with an empty graph. *)
Lemma read_nodes_accepts_degenerate_input :
  read_nodes 1 (init Scenario.null_image) =
    (Ok tt, mkTopImage ∅ Graph.empty Scenario.null_image (Some 1)) /\
  read_nodes (-1) (init Scenario.image33) =
    (Ok tt, mkTopImage ∅ Graph.empty Scenario.image33 (Some (-1))).
Proof.
  split; reflexivity.
Qed.

(** ** Signs of the floats met while building the edges *)

Lemma binary_round_aux_sign (sx : bool) (mx ex : Z) (lx : location) :
  sx = false -> nonneg_float (binary_round_aux PyFloat.prec PyFloat.emax sx mx ex lx).
Proof.
  intros ->. unfold binary_round_aux.
  destruct (shr_fexp _ _ mx ex lx) as [mrs' e'].
  destruct (shr_fexp _ _ _ e' loc_Exact) as [mrs'' e''].
  destruct (shr_m mrs''); simpl; [exact I| |exact I].
  destruct (e'' <=? _); reflexivity.
Qed.

Lemma of_Z_nonneg (z : Z) : 0 <= z -> nonneg_float (PyFloat.of_Z z).
Proof.
  intros Hz. unfold PyFloat.of_Z, binary_normalize.
  destruct z as [|m|m]; [exact I| |lia].
  unfold binary_round. destruct (shl_align _ _ _) as [mz ez].
  apply binary_round_aux_sign. reflexivity.
Qed.

Lemma mul_nonneg (x y : float) :
  nonneg_float x -> nonneg_float y -> nonneg_float (PyFloat.mul x y).
Proof.
  unfold PyFloat.mul, SFmul.
  destruct x as [sx|sx| |sx mx ex], y as [sy|sy| |sy my ey]; simpl;
    intros Hx Hy; subst; try exact I; try reflexivity.
  apply binary_round_aux_sign. reflexivity.
Qed.

Lemma py_int_nonneg (x : float) (w : Z) :
  nonneg_float x -> py_int (PFloat x) = Ok w -> 0 <= w.
Proof.
  destruct x as [s|s| |s m e]; simpl; intros Hx H; try discriminate.
  - injection H as <-. lia.
  - subst s. injection H as <-.
    destruct (0 <=? e).
    + apply Z.shiftl_nonneg. lia.
    + apply Z.shiftr_nonneg. lia.
Qed.

(** [int(cost * factor)] for the two factors of [get_star]. *)
Lemma weight_nonneg (cost : Z) (f : pynum) (w : Z) :
  0 <= cost ->
  f = PInt 1 \/ f = PFloat PyFloat.one_and_half ->
  (let* p := int_mul cost f in py_int p) = Ok w ->
  0 <= w.
Proof.
  intros Hc [->| ->] H; simpl in H.
  - injection H as <-. lia.
  - apply bind_ok in H as (p & Hp & H).
    apply bind_ok in Hp as (x & Hx & Hp). injection Hp as <-.
    apply (py_int_nonneg _ _) in H; [exact H|].
    apply mul_nonneg; [|reflexivity].
    unfold float_of_int in Hx. pose proof (of_Z_nonneg cost Hc) as Hn.
    destruct (PyFloat.of_Z cost); try discriminate; injection Hx as <-; exact Hn.
Qed.

(** ** Products that lose no bit *)

Lemma digits2_pos_bounds (p : positive) :
  2 ^ (Z.pos (digits2_pos p) - 1) <= Z.pos p < 2 ^ Z.pos (digits2_pos p).
Proof.
  induction p as [p IH|p IH|]; simpl digits2_pos.
  - rewrite Pos2Z.inj_succ. replace (Z.succ (Z.pos (digits2_pos p)) - 1)
      with (Z.succ (Z.pos (digits2_pos p) - 1)) by lia.
    rewrite !Z.pow_succ_r by lia. lia.
  - rewrite Pos2Z.inj_succ. replace (Z.succ (Z.pos (digits2_pos p)) - 1)
      with (Z.succ (Z.pos (digits2_pos p) - 1)) by lia.
    rewrite !Z.pow_succ_r by lia. lia.
  - simpl. lia.
Qed.

Lemma digits2_pos_unique (p : positive) (d : Z) :
  2 ^ (d - 1) <= Z.pos p < 2 ^ d -> Z.pos (digits2_pos p) = d.
Proof.
  intros [Hlo Hhi]. pose proof (digits2_pos_bounds p) as [Hlo' Hhi'].
  assert (0 < d).
  { destruct (Z.ltb_spec 0 d) as [|Hd]; [assumption|].
    destruct (Z.eqb_spec d 0) as [->|Hne]; [simpl in Hhi; lia|].
    rewrite Z.pow_neg_r in Hhi by lia. lia. }
  assert (H1 : d - 1 < Z.pos (digits2_pos p)).
  { apply (Z.pow_lt_mono_r_iff 2); lia. }
  assert (H2 : Z.pos (digits2_pos p) - 1 < d).
  { apply (Z.pow_lt_mono_r_iff 2); lia. }
  lia.
Qed.

Lemma iter_xO_value (n : nat) (q : positive) :
  Z.pos (Nat.iter n xO q) = Z.pos q * 2 ^ Z.of_nat n.
Proof.
  induction n as [|n IH]; [simpl; lia|].
  rewrite Nat2Z.inj_succ, Z.pow_succ_r by lia.
  change (Nat.iter (S n) xO q) with (xO (Nat.iter n xO q)).
  rewrite Pos2Z.inj_xO, IH. lia.
Qed.

Lemma nat_iter_swap {A : Type} (f : A -> A) (n : nat) (x : A) :
  Nat.iter n f (f x) = f (Nat.iter n f x).
Proof. induction n as [|n IH]; [reflexivity|]. simpl. rewrite IH. reflexivity. Qed.

Lemma nat_iter_add {A : Type} (f : A -> A) (n m : nat) (x : A) :
  Nat.iter (n + m) f x = Nat.iter n f (Nat.iter m f x).
Proof. induction n as [|n IH]; [reflexivity|]. simpl. rewrite IH. reflexivity. Qed.

Lemma iter_pos_nat {A : Type} (f : A -> A) (p : positive) :
  forall x, SpecFloat.iter_pos f p x = Nat.iter (Pos.to_nat p) f x.
Proof.
  induction p as [p IH|p IH|]; intros x; simpl SpecFloat.iter_pos.
  - rewrite !IH, Pos2Nat.inj_xI.
    replace (S (2 * Pos.to_nat p)) with (Pos.to_nat p + (Pos.to_nat p + 1))%nat by lia.
    rewrite !nat_iter_add. reflexivity.
  - rewrite !IH, Pos2Nat.inj_xO.
    replace (2 * Pos.to_nat p)%nat with (Pos.to_nat p + Pos.to_nat p)%nat by lia.
    rewrite nat_iter_add. reflexivity.
  - reflexivity.
Qed.

Lemma shr_1_iter (n : nat) (q : positive) :
  Nat.iter n shr_1 (Build_shr_record (Z.pos (Nat.iter n xO q)) false false)
    = Build_shr_record (Z.pos q) false false.
Proof.
  induction n as [|n IH]; [reflexivity|].
  change (Nat.iter (S n) xO q) with (xO (Nat.iter n xO q)).
  change (Nat.iter (S n) shr_1 ?x) with (shr_1 (Nat.iter n shr_1 x)).
  rewrite <- nat_iter_swap. exact IH.
Qed.

(** A mantissa of 53 bits followed by [j] zero bits rounds to itself. *)
Lemma binary_round_aux_exact (s : bool) (k : positive) (e : Z) (j : nat) :
  Z.pos (digits2_pos k) = 53 ->
  -1074 <= e <= 971 ->
  binary_round_aux PyFloat.prec PyFloat.emax s (Z.pos (Nat.iter j xO k))
    (e - Z.of_nat j) loc_Exact = S754_finite s k e.
Proof.
  intros Hk He.
  pose proof (digits2_pos_bounds k) as Hb. rewrite Hk in Hb.
  assert (Hd : Z.pos (digits2_pos (Nat.iter j xO k)) = 53 + Z.of_nat j).
  { apply digits2_pos_unique. rewrite iter_xO_value.
    replace (53 + Z.of_nat j - 1) with (52 + Z.of_nat j) by lia.
    rewrite !Z.pow_add_r by lia.
    pose proof (Z.pow_pos_nonneg 2 (Z.of_nat j) ltac:(lia) ltac:(lia)). nia. }
  assert (Hshr1 : shr_fexp PyFloat.prec PyFloat.emax (Z.pos (Nat.iter j xO k))
                    (e - Z.of_nat j) loc_Exact
                  = (Build_shr_record (Z.pos k) false false, e)).
  { unfold shr_fexp, shr. cbn [Zdigits2]. rewrite Hd.
    unfold fexp, emin, PyFloat.prec, PyFloat.emax.
    replace (Z.max (53 + Z.of_nat j + (e - Z.of_nat j) - 53) (3 - 1024 - 53)
             - (e - Z.of_nat j)) with (Z.of_nat j) by lia.
    cbn [shr_record_of_loc]. destruct j as [|j].
    - simpl. f_equal. lia.
    - destruct (Z.of_nat (S j)) as [|p|p] eqn:E; try lia.
      rewrite iter_pos_nat.
      assert (Pos.to_nat p = S j) as -> by lia.
      rewrite shr_1_iter. f_equal. lia. }
  assert (Hshr2 : shr_fexp PyFloat.prec PyFloat.emax (Z.pos k) e loc_Exact
                  = (Build_shr_record (Z.pos k) false false, e)).
  { unfold shr_fexp, shr. cbn [Zdigits2]. rewrite Hk.
    unfold fexp, emin, PyFloat.prec, PyFloat.emax.
    replace (Z.max (53 + e - 53) (3 - 1024 - 53) - e) with 0 by lia.
    reflexivity. }
  unfold binary_round_aux. rewrite Hshr1.
  cbn [shr_m loc_of_shr_record round_nearest_even]. rewrite Hshr2.
  cbn [shr_m]. unfold PyFloat.emax, PyFloat.prec.
  destruct (Z.leb_spec e (1024 - 53)); [reflexivity|lia].
Qed.

(** The shift that brings a positive number below 2^53 to 53 bits. *)
Lemma normalise (v : positive) :
  Z.pos v < 2 ^ 53 ->
  exists t : nat,
    Z.of_nat t = 53 - Z.pos (digits2_pos v) /\
    Z.pos (digits2_pos (Nat.iter t xO v)) = 53.
Proof.
  intros Hv. pose proof (digits2_pos_bounds v) as [Hlo Hhi].
  assert (Hd : Z.pos (digits2_pos v) <= 53).
  { assert (Z.pos (digits2_pos v) - 1 < 53); [|lia].
    apply (Z.pow_lt_mono_r_iff 2); lia. }
  exists (Z.to_nat (53 - Z.pos (digits2_pos v))).
  split; [lia|].
  apply digits2_pos_unique. rewrite iter_xO_value, Z2Nat.id by lia.
  set (d := Z.pos (digits2_pos v)) in *.
  assert (E52 : 2 ^ (53 - 1) = 2 ^ (d - 1) * 2 ^ (53 - d)).
  { rewrite <- Z.pow_add_r by lia. f_equal. lia. }
  assert (E53 : 2 ^ 53 = 2 ^ d * 2 ^ (53 - d)).
  { rewrite <- Z.pow_add_r by lia. f_equal. lia. }
  rewrite E52, E53.
  pose proof (Z.pow_pos_nonneg 2 (53 - d) ltac:(lia) ltac:(lia)).
  split; [apply Z.mul_le_mono_nonneg_r; lia|apply Z.mul_lt_mono_pos_r; lia].
Qed.

(** [float(v)] for a positive integer below 2^53: no bit is lost. *)
Lemma of_Z_exact (v : positive) (t : nat) :
  Z.of_nat t = 53 - Z.pos (digits2_pos v) ->
  Z.pos (digits2_pos (Nat.iter t xO v)) = 53 ->
  PyFloat.of_Z (Z.pos v) = S754_finite false (Nat.iter t xO v) (- Z.of_nat t).
Proof.
  intros Ht Hk. unfold PyFloat.of_Z, binary_normalize, binary_round.
  assert (Hal : shl_align v 0
                  (fexp PyFloat.prec PyFloat.emax (Z.pos (digits2_pos v) + 0))
                = (Nat.iter t xO v, - Z.of_nat t)).
  { unfold shl_align, fexp, emin, PyFloat.prec, PyFloat.emax.
    replace (Z.max (Z.pos (digits2_pos v) + 0 - 53) (3 - 1024 - 53)) with (- Z.of_nat t)
      by lia.
    rewrite Z.sub_0_r. destruct t as [|t].
    - reflexivity.
    - destruct (- Z.of_nat (S t)) as [|q|q] eqn:E; try lia.
      rewrite Pos2Nat.inj_iter.
      assert (Pos.to_nat q = S t) as -> by lia. reflexivity. }
  rewrite Hal.
  pose proof (binary_round_aux_exact false (Nat.iter t xO v) (- Z.of_nat t) 0 Hk) as Hr.
  change (Nat.iter 0 xO (Nat.iter t xO v)) with (Nat.iter t xO v) in Hr.
  change (Z.of_nat 0) with 0 in Hr. rewrite Z.sub_0_r in Hr.
  apply Hr. lia.
Qed.

(** [x * 1.5] for such a float, as long as the product stays below 2^52:
    no bit is lost either. *)
Lemma mul_one_and_half_exact (v : positive) (t t3 : nat) :
  Z.of_nat t = 53 - Z.pos (digits2_pos v) ->
  Z.of_nat t3 = 53 - Z.pos (digits2_pos (3 * v)%positive) ->
  Z.pos (digits2_pos (Nat.iter t3 xO (3 * v)%positive)) = 53 ->
  PyFloat.mul (S754_finite false (Nat.iter t xO v) (- Z.of_nat t)) PyFloat.one_and_half
    = S754_finite false (Nat.iter t3 xO (3 * v)%positive) (- Z.of_nat t3 - 1).
Proof.
  intros Ht Ht3 Hk3.
  pose proof (digits2_pos_bounds v) as [Hlo Hhi].
  pose proof (digits2_pos_bounds (3 * v)%positive) as [Hlo3 Hhi3].
  assert (Hd3 : 2 <= Z.pos (digits2_pos (3 * v)%positive)).
  { assert (1 < Z.pos (digits2_pos (3 * v)%positive)); [|lia].
    apply (Z.pow_lt_mono_r_iff 2); lia. }
  assert (Hd : 1 <= Z.pos (digits2_pos v)) by lia.
  unfold PyFloat.mul, PyFloat.one_and_half, SFmul. cbn [xorb].
  pose proof (binary_round_aux_exact false (Nat.iter t3 xO (3 * v)%positive)
                (- Z.of_nat t3 - 1) (t + 51 - t3) Hk3) as Hr.
  assert (Hm : (Nat.iter t xO v * 6755399441055744)%positive
               = Nat.iter (t + 51 - t3) xO (Nat.iter t3 xO (3 * v)%positive)).
  { apply Pos2Z.inj. rewrite Pos2Z.inj_mul, !iter_xO_value, Pos2Z.inj_mul.
    replace (Z.of_nat (t + 51 - t3)) with (Z.of_nat t + 51 - Z.of_nat t3) by lia.
    replace (Z.pos 6755399441055744) with (3 * 2 ^ 51) by reflexivity.
    rewrite <- !Z.mul_assoc, <- Z.pow_add_r by lia.
    replace (Z.of_nat t3 + (Z.of_nat t + 51 - Z.of_nat t3)) with (Z.of_nat t + 51) by lia.
    rewrite Z.pow_add_r by lia. lia. }
  rewrite Hm.
  replace (- Z.of_nat t + -52) with (- Z.of_nat t3 - 1 - Z.of_nat (t + 51 - t3)) by lia.
  apply Hr. lia.
Qed.

(** [int(cost * 1.5)] is the exact half of three times the cost, rounded
    down, while three times the cost stays below 2^53. *)
Lemma int_mul_one_and_half (cost : Z) :
  0 <= cost -> 3 * cost < 2 ^ 53 ->
  (let* p := int_mul cost (PFloat PyFloat.one_and_half) in py_int p)
    = Ok (3 * cost / 2).
Proof.
  intros H0 Hc. destruct cost as [|v|v]; [reflexivity| |lia].
  destruct (normalise v) as (t & Ht & Hk); [lia|].
  destruct (normalise (3 * v)%positive) as (t3 & Ht3 & Hk3); [lia|].
  unfold int_mul, float_of_int.
  rewrite (of_Z_exact v t Ht Hk). cbn [bind].
  rewrite (mul_one_and_half_exact v t t3 Ht Ht3 Hk3).
  unfold py_int. destruct (Z.leb_spec 0 (- Z.of_nat t3 - 1)) as [Hle|_]; [lia|].
  f_equal. rewrite Z.shiftr_div_pow2 by lia. rewrite iter_xO_value.
  replace (- (- Z.of_nat t3 - 1)) with (Z.succ (Z.of_nat t3)) by lia.
  rewrite Z.pow_succ_r by lia. rewrite Pos2Z.inj_mul.
  rewrite Z.div_mul_cancel_r; [reflexivity|lia|].
  pose proof (Z.pow_pos_nonneg 2 (Z.of_nat t3) ltac:(lia) ltac:(lia)). lia.
Qed.

Lemma truncated_one_and_half (cost : Z) :
  0 <= cost -> truncated_product cost (PFloat PyFloat.one_and_half) = Some (3 * cost / 2).
Proof.
  intros H0. unfold truncated_product, PyFloat.one_and_half.
  cbn [Z.leb Z.compare Z.opp]. f_equal.
  rewrite Z.quot_div_nonneg by lia.
  replace (Z.pos 6755399441055744) with (3 * 2 ^ 51) by reflexivity.
  replace (2 ^ 52) with (2 * 2 ^ 51) by reflexivity.
  rewrite Z.mul_assoc, (Z.mul_comm cost 3).
  apply Z.div_mul_cancel_r; lia.
Qed.

(** [int(cost * factor)] is the truncation of the exact product for the two
    factors of [get_star], while three times the cost stays below 2^53. *)
Lemma weight_exact (cost : Z) (f : pynum) (w : Z) :
  0 <= cost -> 3 * cost < 2 ^ 53 ->
  f = PInt 1 \/ f = PFloat PyFloat.one_and_half ->
  (let* p := int_mul cost f in py_int p) = Ok w ->
  truncated_product cost f = Some w.
Proof.
  intros H0 Hc [->| ->] H.
  - simpl in H. injection H as <-. reflexivity.
  - rewrite int_mul_one_and_half in H by assumption. injection H as <-.
    apply truncated_one_and_half, H0.
Qed.

(** ** [read_edges] *)

Lemma star_factor (step : Z) (s t : Node) (f : pynum) :
  (t, f) ∈ star step s -> f = PInt 1 \/ f = PFloat PyFloat.one_and_half.
Proof.
  unfold star. intros H.
  repeat (apply elem_of_cons in H as [H|H]; [injection H as _ ->; auto|]).
  apply elem_of_nil in H. contradiction.
Qed.

Lemma touch_lookup (n m : Node) (ns : gmap Node (option Color)) (c : Color) :
  Graph.touch n ns !! m = Some (Some c) <-> ns !! m = Some (Some c).
Proof.
  unfold Graph.touch. destruct (ns !! n) eqn:E; [reflexivity|].
  destruct (decide (n = m)) as [->|Hne].
  - rewrite lookup_insert_eq, E. split; discriminate.
  - rewrite lookup_insert_ne by exact Hne. reflexivity.
Qed.

Lemma node_color_ok (n : Node) (g : Graph) (c : Color) :
  Graph.node_color n g = Ok c <-> g_nodes g !! n = Some (Some c).
Proof.
  unfold Graph.node_color.
  destruct (g_nodes g !! n) as [[c'|]|]; split; intros H; congruence.
Qed.

(** Inserting an edge gives no node a colour and takes none away. *)
Lemma add_edge_node_color (u v n : Node) (d : EdgeData) (g : Graph) (c : Color) :
  Graph.node_color n (Graph.add_edge u v d g) = Ok c <-> Graph.node_color n g = Ok c.
Proof.
  rewrite !node_color_ok. unfold Graph.add_edge. simpl.
  rewrite !touch_lookup. reflexivity.
Qed.

Lemma put_edge_elem (u v : Node) (d : EdgeData) (es : list Edge) (e : Edge) :
  e ∈ Graph.put_edge u v d es -> e = (u, v, d) \/ e ∈ es.
Proof.
  induction es as [|e0 es IH]; simpl; intros H.
  - apply list_elem_of_singleton in H. auto.
  - destruct (joins u v e0).
    + apply elem_of_cons in H as [H|H]; [auto|]. right. apply elem_of_cons. auto.
    + apply elem_of_cons in H as [H|H].
      * right. apply elem_of_cons. auto.
      * apply IH in H as [H|H]; [auto|]. right. apply elem_of_cons. auto.
Qed.

Lemma star_attributes_add_edge table step sources g e u v d :
  star_attributes table step sources g e ->
  star_attributes table step sources (Graph.add_edge u v d g) e.
Proof.
  intros (cs & ct & ds & dt & H1 & H2 & H3 & H4 & H5 & H6 & H7).
  exists cs, ct, ds, dt.
  rewrite !add_edge_node_color. tauto.
Qed.

Lemma star_edge_attributes table step sources g s tf d :
  s ∈ sources -> tf ∈ star step s ->
  star_edge table g s tf = Ok d ->
  star_attributes table step sources g (s, tf.1, d).
Proof.
  intros Hs Htf H. unfold star_edge in H.
  apply bind_ok in H as (dd & Hdd & H).
  apply bind_ok in H as (p & Hp & H).
  apply bind_ok in H as (w & Hw & H). injection H as <-.
  unfold get_density in Hdd.
  apply bind_ok in Hdd as (cs & Hcs & Hdd).
  apply bind_ok in Hdd as (ds & Hds & Hdd).
  apply bind_ok in Hdd as (ct & Hct & Hdd).
  apply bind_ok in Hdd as (dt & Hdt & Hdd). injection Hdd as <-.
  destruct (table !! cs) as [ds'|] eqn:Es; simpl in Hds; [injection Hds as ->|discriminate].
  destruct (table !! ct) as [dt'|] eqn:Et; simpl in Hdt; [injection Hdt as ->|discriminate].
  exists cs, ct, ds, dt. simpl.
  destruct tf as [t f]. simpl in *.
  unfold min_by_cost in *.
  repeat (split; [assumption || reflexivity|]).
  split.
  - destruct (dt.2 <? ds.2); reflexivity.
  - destruct (dt.2 <? ds.2); rewrite Hp; exact Hw.
Qed.

Lemma for_each_add_star_edge table step sources triples :
  forall g g',
    (forall stf, stf ∈ triples -> stf.1 ∈ sources /\ stf.2 ∈ star step stf.1) ->
    (forall e, e ∈ g_edges g -> star_attributes table step sources g e) ->
    for_each (add_star_edge table) triples g = (Ok tt, g') ->
    forall e, e ∈ g_edges g' -> star_attributes table step sources g' e.
Proof.
  induction triples as [|[s tf] triples IH]; intros g g' Htr Hg H.
  - simpl in H. injection H as <-. exact Hg.
  - simpl in H. unfold add_star_edge in H at 1. simpl in H.
    destruct (star_edge table g s tf) as [d|err] eqn:Hd; [|discriminate].
    refine (IH _ _ _ _ H).
    + intros stf Hin. apply Htr. apply elem_of_cons. auto.
    + intros e He. simpl in He. apply put_edge_elem in He as [->|He].
      * apply star_attributes_add_edge.
        destruct (Htr (s, tf)) as [Hs Htf]; [apply elem_of_cons; auto|].
        eapply star_edge_attributes; eassumption.
      * apply star_attributes_add_edge, Hg, He.
Qed.

(** What a successful [read_edges] leaves behind. *)
Lemma read_edges_inv (table : gmap Color (string * Z)) (self self' : TopImage) :
  read_edges table self = (Ok tt, self') ->
  exists step sources,
    step_size self' = Some step /\
    sweep (image self') step = Ok sources /\
    density_dict self' = table /\
    forall e, e ∈ g_edges (graph self') ->
              star_attributes table step sources (graph self') e.
Proof.
  intros H. unfold read_edges in H. simpl in H.
  destruct (step_size self) as [step|] eqn:Hstep; [|discriminate].
  destruct (sweep (image self) step) as [sources|err] eqn:Hsw; [|discriminate].
  destruct (for_each _ _ _) as [r g'] eqn:Hfe.
  injection H as -> <-. simpl.
  exists step, sources. do 3 (split; [assumption || reflexivity|]).
  assert (Htr : forall stf : Node * (Node * pynum),
             stf ∈ flat_map (fun s => map (pair s) (star step s)) sources ->
             stf.1 ∈ sources /\ stf.2 ∈ star step stf.1).
  { intros [s0 tf0] Hin0. simpl.
    apply list_elem_of_In, in_flat_map in Hin0 as (s1 & Hs1 & Hin0).
    apply in_map_iff in Hin0 as (tf1 & Heq & Hin0). injection Heq as -> ->.
    split; apply list_elem_of_In; assumption. }
  assert (Hg : forall e, e ∈ g_edges (Graph.clear_edges (graph self)) ->
             star_attributes table step sources (Graph.clear_edges (graph self)) e).
  { simpl. intros e He. apply elem_of_nil in He. contradiction. }
  exact (for_each_add_star_edge table step sources _ _ _ Htr Hg Hfe).
Qed.

Lemma star_attributes_weight table step sources g e :
  (forall c d, table !! c = Some d -> 0 <= d.2) ->
  star_attributes table step sources g e -> 0 <= weight e.2.
Proof.
  intros Hcost (cs & ct & ds & dt & H1 & H2 & H3 & H4 & H5 & H6 & H7 & H8).
  eapply weight_nonneg; [|eapply star_factor; exact H2|exact H8].
  destruct (dt.2 <? ds.2); eapply Hcost; eassumption.
Qed.

Lemma star_attributes_nodes table step sources g e :
  star_attributes table step sources g e ->
  Graph.has_node e.1.1 g = true /\ Graph.has_node e.1.2 g = true.
Proof.
  intros (cs & ct & ds & dt & H1 & H2 & H3 & H4 & H5 & H6 & H7 & H8).
  apply node_color_ok in H3, H5. unfold Graph.has_node.
  split; apply bool_decide_eq_true; eauto.
Qed.

(** C5, as amended: after a successful [read_edges] on a table of
    non-negative costs, every edge of the graph leaves a node [s] of the
    sweep for one of its four forward neighbours [t] and carries: as
    terrain, the label of the endpoint of weakly lower cost, the sweep node
    [s] on a tie; as weight, [int(cost * factor)] for the cost of that same
    endpoint, a non-negative integer.  While three times that cost stays
    below 2^53 the weight is the truncation of the exact product of the cost
    and the factor: the cost itself along the axes, three halves of it
    rounded down on the diagonals. *)
Theorem read_edges_attributes (table : gmap Color (string * Z)) (self self' : TopImage) :
  (forall c d, table !! c = Some d -> 0 <= d.2) ->
  read_edges table self = (Ok tt, self') ->
  forall s t d, (s, t, d) ∈ g_edges (graph self') ->
    exists step sources cs ct ds dt,
      step_size self' = Some step /\
      sweep (image self') step = Ok sources /\
      s ∈ sources /\
      (t, factor d) ∈ star step s /\
      Graph.node_color s (graph self') = Ok cs /\ table !! cs = Some ds /\
      Graph.node_color t (graph self') = Ok ct /\ table !! ct = Some dt /\
      terrain d = (if dt.2 <? ds.2 then dt.1 else ds.1) /\
      (let* p := int_mul (if dt.2 <? ds.2 then dt.2 else ds.2) (factor d) in py_int p)
        = Ok (weight d) /\
      0 <= weight d /\
      (3 * (if dt.2 <? ds.2 then dt.2 else ds.2) < 2 ^ 53 ->
       truncated_product (if dt.2 <? ds.2 then dt.2 else ds.2) (factor d)
         = Some (weight d)).
Proof.
  intros Hcost H s t d Hin.
  destruct (read_edges_inv _ _ _ H) as (step & sources & Hstep & Hsw & _ & Hall).
  pose proof (Hall _ Hin) as Hattr.
  pose proof (star_attributes_weight _ _ _ _ _ Hcost Hattr) as Hw.
  destruct Hattr as (cs & ct & ds & dt & H1 & H2 & H3 & H4 & H5 & H6 & H7 & H8).
  simpl in *. exists step, sources, cs, ct, ds, dt.
  do 11 (split; [assumption|]).
  intros Hbound. eapply weight_exact; [|exact Hbound|eapply star_factor; exact H2|exact H8].
  destruct (dt.2 <? ds.2); eapply Hcost; eassumption.
Qed.

Lemma scenario_table_nonneg (c : Color) (d : string * Z) :
  Scenario.table !! c = Some d -> 0 <= d.2.
Proof.
  unfold Scenario.table. intros H.
  apply lookup_insert_Some in H as [[_ <-]|[_ H]]; [simpl; lia|].
  apply lookup_insert_Some in H as [[_ <-]|[_ H]]; [simpl; lia|].
  rewrite lookup_empty in H. discriminate.
Qed.

Lemma read_edges_attributes_witness :
  exists cs ct ds dt,
    Graph.node_color (2, 2) (graph Scenario.grid55) = Ok cs /\
    Scenario.table !! cs = Some ds /\
    Graph.node_color (3, 3) (graph Scenario.grid55) = Ok ct /\
    Scenario.table !! ct = Some dt /\
    (if dt.2 <? ds.2 then dt.2 else ds.2) = 1000 /\
    "Water"%string = (if dt.2 <? ds.2 then dt.1 else ds.1) /\
    truncated_product 1000 (PFloat PyFloat.one_and_half) = Some 1500.
Proof.
  destruct (read_edges_attributes Scenario.table
              (read_nodes 1 (init Scenario.image55)).2 Scenario.grid55
              scenario_table_nonneg eq_refl
              (2, 2) (3, 3) (mkEdgeData (PFloat PyFloat.one_and_half) "Water" 1500))
    as (step & sources & cs & ct & ds & dt & _ & _ & _ & _ & Hcs & Hds & Hct & Hdt
        & Hter & _ & _ & Hexact).
  { apply list_elem_of_In. vm_compute. tauto. }
  assert (Hmin : (if dt.2 <? ds.2 then dt.2 else ds.2) = 1000).
  { vm_compute in Hcs, Hct. injection Hcs as <-. injection Hct as <-.
    vm_compute in Hds, Hdt. injection Hds as <-. injection Hdt as <-. reflexivity. }
  exists cs, ct, ds, dt. do 4 (split; [assumption|]).
  split; [exact Hmin|]. split; [exact Hter|].
  rewrite Hmin in Hexact. apply Hexact. lia.
Defined.

(** C5, the claim as stated fails for costs that a float cannot hold: with
    the cost 2^53 + 1 on both terrains, the diagonal edge from (1,1) to
    (2,2) gets the weight 13510798882111488, the truncation of the float
    product, where the truncation of the exact product is
    13510798882111489. *)
Lemma weight_not_exact_for_large_cost :
  exists self' d,
    read_edges Scenario.heavy (read_nodes 1 (init Scenario.image55)).2 = (Ok tt, self') /\
    Graph.edge (1, 1) (2, 2) (graph self') = Ok d /\
    factor d = PFloat PyFloat.one_and_half /\
    weight d = 13510798882111488 /\
    truncated_product (2 ^ 53 + 1) (factor d) = Some 13510798882111489.
Proof.
  eexists _, _. split; [vm_compute; reflexivity|].
  split; [vm_compute; reflexivity|].
  split; [reflexivity|]. split; vm_compute; reflexivity.
Qed.

Lemma for_each_raises {A S : Type} (body : A -> S -> result unit * S)
    (P : S -> Prop) (x : A) (l : list A) :
  x ∈ l ->
  (forall s, P s -> is_raise (body x s).1) ->
  (forall y s, P s -> P (body y s).2) ->
  forall s, P s -> is_raise (for_each body l s).1.
Proof.
  intros Hin Hx Hstep. induction l as [|y l IH]; intros s Hs.
  - apply elem_of_nil in Hin. contradiction.
  - simpl. pose proof (Hstep y s Hs) as Hs'.
    apply elem_of_cons in Hin as [<-|Hin].
    + specialize (Hx s Hs). destruct (body x s) as [[u|e] s']; simpl in *; [contradiction|exact I].
    + destruct (body y s) as [[u|e] s']; simpl in *; [|exact I].
      apply IH; assumption.
Qed.

Lemma star_edge_unclassified table g s tf :
  unclassified table g s \/ unclassified table g tf.1 ->
  is_raise (star_edge table g s tf).
Proof.
  intros H. unfold star_edge, get_density.
  destruct (Graph.node_color s g) as [cs|e] eqn:Hs; simpl; [|exact I].
  destruct (table !! cs) as [ds|] eqn:Hds; simpl; [|exact I].
  destruct (Graph.node_color tf.1 g) as [ct|e] eqn:Ht; simpl; [|exact I].
  destruct (table !! ct) as [dt|] eqn:Hdt; simpl; [|exact I].
  destruct H as [H|H].
  - apply H in Hs. congruence.
  - apply H in Ht. congruence.
Qed.

(** C8, as amended: [read_edges] raises when it is called before
    [read_nodes] (no step yet: [TypeError]), and, with the nodes built, when
    the table handed to it lacks the colour of a node that the sweep visits
    or of one of its four forward neighbours.  The table of the object, with
    the entries that [read_nodes] registered on its own, is not consulted. *)
Theorem read_edges_failure (table : gmap Color (string * Z)) (self : TopImage) :
  (step_size self = None -> (read_edges table self).1 = Raise TypeError) /\
  (forall step sources s tf,
      step_size self = Some step ->
      sweep (image self) step = Ok sources ->
      s ∈ sources -> tf ∈ star step s ->
      unclassified table (graph self) s \/ unclassified table (graph self) tf.1 ->
      is_raise (read_edges table self).1).
Proof.
  split.
  - intros H. unfold read_edges. simpl. rewrite H. reflexivity.
  - intros step sources s tf Hstep Hsw Hs Htf Hun.
    assert (Hin : (s, tf) ∈ flat_map (fun s => map (pair s) (star step s)) sources).
    { apply list_elem_of_In, in_flat_map. exists s.
      split; [apply list_elem_of_In, Hs|].
      apply in_map, list_elem_of_In, Htf. }
    unfold read_edges. simpl. rewrite Hstep, Hsw.
    destruct (for_each _ _ _) as [r g'] eqn:Hfe. simpl.
    change r with (r, g').1. rewrite <- Hfe.
    apply (for_each_raises _
             (fun g => unclassified table g s \/ unclassified table g tf.1) (s, tf)).
    + exact Hin.
    + intros g Hg. unfold add_star_edge. simpl.
      pose proof (star_edge_unclassified _ _ _ _ Hg) as Hr.
      destruct (star_edge table g s tf); [contradiction|exact I].
    + intros [s0 tf0] g Hg. unfold add_star_edge. simpl.
      destruct (star_edge table g s0 tf0) as [d|e]; simpl; [|exact Hg].
      unfold unclassified in *.
      destruct Hg as [Hg|Hg]; [left|right]; intros c Hc;
        apply add_edge_node_color in Hc; auto.
    + exact Hun.
Qed.

(** The entries registered by [read_nodes] do not help: the water was
    registered with an empty label and the cost 0, and [read_edges] on a
    table without the water raises [KeyError]. *)
Lemma read_edges_failure_witness :
  density_dict (read_nodes 1 (init Scenario.image55)).2 !! Scenario.water
    = Some (""%string, 0) /\
  (read_edges Scenario.plain_only (read_nodes 1 (init Scenario.image55)).2).1
    = Raise KeyError /\
  is_raise (read_edges Scenario.plain_only (read_nodes 1 (init Scenario.image55)).2).1.
Proof.
  split; [vm_compute; reflexivity|].
  split; [vm_compute; reflexivity|].
  apply (proj2 (read_edges_failure Scenario.plain_only
                  (read_nodes 1 (init Scenario.image55)).2)
           1 [(1, 1); (1, 2); (2, 1); (2, 2)] (2, 1) ((3, 1), PInt 1)).
  - vm_compute. reflexivity.
  - vm_compute. reflexivity.
  - apply list_elem_of_In. vm_compute. tauto.
  - apply list_elem_of_In. vm_compute. tauto.
  - left. intros c H. vm_compute in H. injection H as <-. vm_compute. reflexivity.
Defined.

(** C8, the claim as stated fails: a table that lacks the colour of a node
    is accepted when the sweep never reads that node.  The corner (0,0) of
    the 5x5 image is a node of an unclassified colour, and [read_edges]
    succeeds; on the 3x3 image, where the sweep is empty, it succeeds with
    an empty table. *)
Lemma read_edges_tolerates_unswept_nodes :
  Graph.node_color (0, 0) (graph (read_nodes 1 (init Scenario.image55_corner)).2)
    = Ok Scenario.unknown /\
  Scenario.table !! Scenario.unknown = None /\
  (read_edges Scenario.table (read_nodes 1 (init Scenario.image55_corner)).2).1 = Ok tt /\
  length (g_edges (graph
     (read_edges Scenario.table (read_nodes 1 (init Scenario.image55_corner)).2).2))
    = 16%nat /\
  (read_edges ∅ (read_nodes 1 (init Scenario.image33)).2).1 = Ok tt.
Proof.
  split; [vm_compute; reflexivity|].
  split; [vm_compute; reflexivity|].
  split; [vm_compute; reflexivity|].
  split; vm_compute; reflexivity.
Qed.

(** ** The search *)

Lemma pop_min_none (q : list Dijkstra.entry) : Dijkstra.pop_min q = None -> q = [].
Proof.
  destruct q as [|x q]; [reflexivity|]. simpl.
  destruct (Dijkstra.pop_min q) as [[y r]|]; [|discriminate].
  destruct (Dijkstra.entry_le x y); discriminate.
Qed.

Lemma entry_le_false (x y : Dijkstra.entry) :
  Dijkstra.entry_le x y = false -> y.1.1 <= x.1.1.
Proof.
  unfold Dijkstra.entry_le. intros H.
  apply orb_false_iff in H as [H1 H2]. lia.
Qed.

Lemma entry_le_true (x y : Dijkstra.entry) :
  Dijkstra.entry_le x y = true -> x.1.1 <= y.1.1.
Proof.
  unfold Dijkstra.entry_le. intros H.
  apply orb_true_iff in H as [H|H]; [lia|].
  apply andb_true_iff in H as [H _]. lia.
Qed.

(** [heappop] takes an entry of least distance out of the heap. *)
Lemma pop_min_some (q : list Dijkstra.entry) :
  forall x r,
    Dijkstra.pop_min q = Some (x, r) ->
    x ∈ q /\ (forall y, y ∈ r -> y ∈ q) /\ (forall y, y ∈ q -> x.1.1 <= y.1.1) /\
    length q = S (length r).
Proof.
  induction q as [|a q IH]; intros x r H; [discriminate|].
  simpl in H. destruct (Dijkstra.pop_min q) as [[y r']|] eqn:E.
  - destruct (IH y r' eq_refl) as (Hy & Hr & Hmin & Hlen).
    destruct (Dijkstra.entry_le a y) eqn:Hle; injection H as <- <-.
    + split; [apply list_elem_of_here|]. split; [intros z Hz; apply list_elem_of_further, Hz|].
      split; [|reflexivity].
      intros z Hz. apply elem_of_cons in Hz as [->|Hz]; [lia|].
      apply entry_le_true in Hle. specialize (Hmin z Hz). lia.
    + split; [apply list_elem_of_further, Hy|]. split.
      * intros z Hz. apply elem_of_cons in Hz as [->|Hz];
          [apply list_elem_of_here|apply list_elem_of_further, Hr, Hz].
      * split; [|simpl; lia].
        intros z Hz. apply elem_of_cons in Hz as [->|Hz]; [|apply Hmin, Hz].
        apply entry_le_false in Hle. exact Hle.
  - apply pop_min_none in E. subst q. injection H as <- <-.
    split; [apply list_elem_of_here|]. split; [intros z Hz; apply elem_of_nil in Hz; contradiction|].
    split; [|reflexivity].
    intros z Hz. apply list_elem_of_singleton in Hz as ->. lia.
Qed.

Lemma neighbors_elem (v u : Node) (d : EdgeData) (g : Graph) :
  (u, d) ∈ Graph.neighbors v g ->
  adjacent g v u /\ exists e, e ∈ g_edges g /\ d = e.2.
Proof.
  unfold Graph.neighbors. intros H.
  apply list_elem_of_omap in H as (e & He & Hf).
  destruct (bool_decide (e.1.1 = v)) eqn:E1.
  - apply bool_decide_eq_true in E1. injection Hf as <- <-.
    split; [|eauto]. exists e. split; [exact He|]. left. auto.
  - destruct (bool_decide (e.1.2 = v)) eqn:E2; [|discriminate].
    apply bool_decide_eq_true in E2. injection Hf as <- <-.
    split; [|eauto]. exists e. split; [exact He|]. right. auto.
Qed.

(** *** The loop ends *)

Lemma unsettled_insert_le (d : gmap Node Z) (v n : Node) (x : Z) :
  (unsettled (<[v := x]> d) n <= unsettled d n)%nat.
Proof.
  unfold unsettled. destruct (decide (v = n)) as [->|Hne].
  - rewrite lookup_insert_eq. destruct (d !! n); lia.
  - rewrite lookup_insert_ne by exact Hne. lia.
Qed.

Lemma unsettled_insert_eq (d : gmap Node Z) (v : Node) (x : Z) :
  d !! v = None -> (unsettled (<[v := x]> d) v = 0 /\ unsettled d v = 1)%nat.
Proof.
  intros H. unfold unsettled. rewrite lookup_insert_eq, H. auto.
Qed.

Lemma slots_settle (d : gmap Node Z) (v : Node) (x : Z) (g : Graph) :
  d !! v = None ->
  (slots (<[v := x]> d) (g_edges g) + length (Graph.neighbors v g) <= slots d (g_edges g))%nat.
Proof.
  intros Hv. unfold Graph.neighbors, omap.
  induction (g_edges g) as [|e es IH]; [simpl; lia|].
  simpl.
  pose proof (unsettled_insert_le d v e.1.1 x) as H1.
  pose proof (unsettled_insert_le d v e.1.2 x) as H2.
  destruct (bool_decide (e.1.1 = v)) eqn:E1.
  - apply bool_decide_eq_true in E1. rewrite E1 in *.
    destruct (unsettled_insert_eq d v x Hv) as [Ha Hb]. simpl. lia.
  - destruct (bool_decide (e.1.2 = v)) eqn:E2.
    + apply bool_decide_eq_true in E2. rewrite E2 in *.
      destruct (unsettled_insert_eq d v x Hv) as [Ha Hb]. simpl. lia.
    + lia.
Qed.

Lemma push_inv (v u : Node) (vu_dist : Z) (st st' : Dijkstra.state) :
  Dijkstra.push v u vu_dist st = Ok st' ->
  exists pv,
    Dijkstra.paths st !! v = Some pv /\
    st' = Dijkstra.mkState (Dijkstra.dist st) (<[u := vu_dist]> (Dijkstra.seen st))
            (<[u := pv ++ [u]]> (Dijkstra.paths st))
            ((vu_dist, Dijkstra.count st, u) :: Dijkstra.fringe st)
            (S (Dijkstra.count st)).
Proof.
  unfold Dijkstra.push. intros H. apply bind_ok in H as (pv & Hpv & H).
  exists pv. destruct (Dijkstra.paths st !! v); simpl in Hpv; [|discriminate].
  split; congruence.
Qed.

Lemma relax_fringe (v : Node) (dv : Z) (st st' : Dijkstra.state) (ue : Node * EdgeData) :
  Dijkstra.relax v dv st ue = Ok st' ->
  Dijkstra.dist st' = Dijkstra.dist st /\
  (length (Dijkstra.fringe st') <= S (length (Dijkstra.fringe st)))%nat.
Proof.
  unfold Dijkstra.relax. intros H.
  assert (Hpush : forall x, Dijkstra.push v ue.1 x st = Ok st' ->
            Dijkstra.dist st' = Dijkstra.dist st /\
            (length (Dijkstra.fringe st') <= S (length (Dijkstra.fringe st)))%nat).
  { intros x Hx. apply push_inv in Hx as (pv & _ & ->). simpl. auto. }
  destruct (Dijkstra.dist st !! ue.1).
  - destruct (_ <? _); [discriminate|]. injection H as <-. auto.
  - destruct (Dijkstra.seen st !! ue.1).
    + destruct (_ <? _); [eauto|]. injection H as <-. auto.
    + eauto.
Qed.

Lemma relax_all_fringe (v : Node) (dv : Z) (ues : list (Node * EdgeData)) :
  forall st st',
    Dijkstra.relax_all v dv ues st = Ok st' ->
    Dijkstra.dist st' = Dijkstra.dist st /\
    (length (Dijkstra.fringe st') <= length ues + length (Dijkstra.fringe st))%nat.
Proof.
  induction ues as [|ue ues IH]; intros st st' H.
  - simpl in H. injection H as <-. auto.
  - simpl in H. apply bind_ok in H as (st1 & H1 & H).
    apply relax_fringe in H1 as [Hd Hl].
    apply IH in H as [Hd' Hl']. split; [congruence|simpl; lia].
Qed.

(** With more fuel than [turns], the loop comes to its end. *)
Lemma loop_terminates (g : Graph) (target : Node) (fuel : nat) :
  forall st, (turns g st < fuel)%nat -> exists r, Dijkstra.loop fuel g target st = Some r.
Proof.
  induction fuel as [|fuel IH]; intros st Hlt; [lia|].
  simpl. destruct (Dijkstra.pop_min (Dijkstra.fringe st)) as [[[[d c] v] q]|] eqn:Hpop;
    [|eauto].
  apply pop_min_some in Hpop as (_ & _ & _ & Hlen).
  unfold turns in Hlt. rewrite Hlen in Hlt.
  destruct (Dijkstra.dist st !! v) eqn:Hv.
  - apply IH. unfold turns. simpl. lia.
  - destruct (bool_decide (v = target)); [eauto|].
    destruct (Dijkstra.relax_all _ _ _ _) as [st2|e] eqn:Hrel; [|eauto].
    apply relax_all_fringe in Hrel as [Hd Hl]. simpl in Hd, Hl.
    apply IH. unfold turns. rewrite Hd.
    pose proof (slots_settle (Dijkstra.dist st) v d g Hv). lia.
Qed.

Lemma slots_empty (es : list Edge) : slots ∅ es = (2 * length es)%nat.
Proof.
  induction es as [|e es IH]; [reflexivity|].
  simpl. unfold unsettled. rewrite !lookup_empty. lia.
Qed.

Lemma start_terminates (g : Graph) (source target : Node) :
  exists r, Dijkstra.loop (Dijkstra.enough g) g target (Dijkstra.start source) = Some r.
Proof.
  apply loop_terminates. unfold turns, Dijkstra.enough. simpl.
  rewrite slots_empty. lia.
Qed.

(** *** The loop keeps its invariant *)

Lemma relax_sound (g : Graph) (source v : Node) (dv : Z) (st : Dijkstra.state)
    (ue : Node * EdgeData) :
  (forall e, e ∈ g_edges g -> 0 <= weight e.2) ->
  sound g source st ->
  connected g source v ->
  is_Some (Dijkstra.paths st !! v) ->
  (forall u du, Dijkstra.dist st !! u = Some du -> du <= dv) ->
  ue ∈ Graph.neighbors v g ->
  exists st',
    Dijkstra.relax v dv st ue = Ok st' /\
    sound g source st' /\
    Dijkstra.dist st' = Dijkstra.dist st /\
    is_Some (Dijkstra.paths st' !! v).
Proof.
  intros Hw Hs Hv [pv Hpv] Hmax Hue.
  pose proof Hs as (I1 & I2 & I3).
  destruct ue as [u d]. apply neighbors_elem in Hue as (Hadj & e & He & ->).
  pose proof (Hw e He) as Hwe.
  assert (Hpush : exists st',
             Dijkstra.push v u (dv + weight e.2) st = Ok st' /\
             sound g source st' /\
             Dijkstra.dist st' = Dijkstra.dist st /\
             is_Some (Dijkstra.paths st' !! v)).
  { unfold Dijkstra.push. rewrite Hpv. simpl. eexists. split; [reflexivity|].
    split; [|split; [reflexivity|]].
    - split; [exact I1|]. split.
      + simpl. intros x Hx. apply elem_of_cons in Hx as [->|Hx].
        * simpl. split; [eapply rtc_r; eassumption|].
          rewrite lookup_insert_eq. eauto.
        * destruct (I2 x Hx) as [Hc Hp]. split; [exact Hc|].
          apply lookup_insert_is_Some. destruct (decide (u = x.2)); auto.
      + simpl. intros u' du x Hd Hx. apply elem_of_cons in Hx as [->|Hx].
        * simpl. specialize (Hmax u' du Hd). lia.
        * eapply I3; eassumption.
    - simpl. apply lookup_insert_is_Some. destruct (decide (u = v)); eauto. }
  unfold Dijkstra.relax. simpl.
  destruct (Dijkstra.dist st !! u) as [ud|] eqn:Hud.
  - specialize (Hmax u ud Hud).
    destruct (dv + weight e.2 <? ud) eqn:Hlt; [lia|].
    exists st. split; [reflexivity|]. split; [exact Hs|]. split; [reflexivity|eauto].
  - destruct (Dijkstra.seen st !! u) as [su|]; [|exact Hpush].
    destruct (dv + weight e.2 <? su); [exact Hpush|].
    exists st. split; [reflexivity|]. split; [exact Hs|]. split; [reflexivity|eauto].
Qed.

Lemma relax_all_sound (g : Graph) (source v : Node) (dv : Z)
    (ues : list (Node * EdgeData)) :
  (forall e, e ∈ g_edges g -> 0 <= weight e.2) ->
  connected g source v ->
  (forall ue, ue ∈ ues -> ue ∈ Graph.neighbors v g) ->
  forall st,
    sound g source st ->
    is_Some (Dijkstra.paths st !! v) ->
    (forall u du, Dijkstra.dist st !! u = Some du -> du <= dv) ->
    exists st', Dijkstra.relax_all v dv ues st = Ok st' /\ sound g source st'.
Proof.
  intros Hw Hv. induction ues as [|ue ues IH]; intros Hsub st Hs Hp Hmax.
  - exists st. split; [reflexivity|exact Hs].
  - destruct (relax_sound g source v dv st ue Hw Hs Hv Hp Hmax) as (st1 & H1 & Hs1 & Hd1 & Hp1).
    { apply Hsub, list_elem_of_here. }
    simpl. rewrite H1. simpl. apply IH; [| exact Hs1 | exact Hp1 |].
    + intros x Hx. apply Hsub, list_elem_of_further, Hx.
    + rewrite Hd1. exact Hmax.
Qed.

(** With non-negative weights the loop raises nothing, and every node it
    has settled is connected to the source. *)
Lemma loop_sound (g : Graph) (source target : Node) :
  (forall e, e ∈ g_edges g -> 0 <= weight e.2) ->
  forall fuel st r,
    sound g source st ->
    Dijkstra.loop fuel g target st = Some r ->
    exists st',
      r = Ok st' /\
      (forall u du, Dijkstra.dist st' !! u = Some du -> connected g source u).
Proof.
  intros Hw. induction fuel as [|fuel IH]; intros st r Hs H; [discriminate|].
  simpl in H. destruct Hs as (I1 & I2 & I3).
  destruct (Dijkstra.pop_min (Dijkstra.fringe st)) as [[[[d c] v] q]|] eqn:Hpop.
  - apply pop_min_some in Hpop as (Hin & Hsub & Hmin & _).
    destruct (I2 _ Hin) as [Hcv Hpv]. simpl in Hcv, Hpv.
    destruct (Dijkstra.dist st !! v) as [dv|] eqn:Hdv.
    + apply IH in H; [exact H|].
      split; [exact I1|]. split; simpl.
      * intros x Hx. apply I2, Hsub, Hx.
      * intros u du x Hd Hx. eapply I3; [exact Hd|apply Hsub, Hx].
    + assert (Hs1 : sound g source
                (Dijkstra.mkState (<[v := d]> (Dijkstra.dist st)) (Dijkstra.seen st)
                   (Dijkstra.paths st) q (Dijkstra.count st))).
      { split; [|split]; simpl.
        - intros u du Hd. apply lookup_insert_Some in Hd as [[<- _]|[_ Hd]]; eauto.
        - intros x Hx. apply I2, Hsub, Hx.
        - intros u du x Hd Hx. apply lookup_insert_Some in Hd as [[<- <-]|[_ Hd]].
          + apply (Hmin x), Hsub, Hx.
          + eapply I3; [exact Hd|apply Hsub, Hx]. }
      destruct (bool_decide (v = target)).
      * injection H as <-. eexists. split; [reflexivity|]. apply Hs1.
      * destruct (relax_all_sound g source v d (Graph.neighbors v g) Hw Hcv
                    (fun ue Hue => Hue) _ Hs1 Hpv) as (st2 & H2 & Hs2).
        { simpl. intros u du Hd. apply lookup_insert_Some in Hd as [[_ <-]|[_ Hd]]; [lia|].
          apply (I3 u du (d, c, v) Hd Hin). }
        rewrite H2 in H. apply IH in H; [exact H|exact Hs2].
  - injection H as <-. exists st. split; [reflexivity|exact I1].
Qed.

Lemma start_sound (g : Graph) (source : Node) : sound g source (Dijkstra.start source).
Proof.
  split; [|split]; simpl.
  - intros u du H. rewrite lookup_empty in H. discriminate.
  - intros x Hx. apply list_elem_of_singleton in Hx as ->. simpl.
    split; [apply rtc_refl|]. rewrite lookup_singleton_eq. eauto.
  - intros u du x H. rewrite lookup_empty in H. discriminate.
Qed.

Lemma dijkstra_no_path (g : Graph) (source target : Node) :
  Graph.has_node source g = true ->
  (forall e, e ∈ g_edges g -> 0 <= weight e.2) ->
  ~ connected g source target ->
  Dijkstra.single_source_dijkstra g source target = Raise NetworkXNoPath.
Proof.
  intros Hs Hw Hnc. unfold Dijkstra.single_source_dijkstra. rewrite Hs. cbn [negb].
  destruct (bool_decide (target = source)) eqn:Heq.
  - apply bool_decide_eq_true in Heq. subst. exfalso. apply Hnc, rtc_refl.
  - destruct (start_terminates g source target) as [r Hr]. rewrite Hr.
    destruct (loop_sound g source target Hw _ _ _ (start_sound g source) Hr)
      as (st' & -> & Hd).
    destruct (Dijkstra.dist st' !! target) as [d|] eqn:Ht; [|reflexivity].
    exfalso. eapply Hnc, Hd, Ht.
Qed.

(** In a graph whose edges end at nodes, only nodes are reached. *)
Lemma connected_has_node (g : Graph) (source target : Node) :
  (forall e, e ∈ g_edges g ->
             Graph.has_node e.1.1 g = true /\ Graph.has_node e.1.2 g = true) ->
  connected g source target ->
  source = target \/ Graph.has_node target g = true.
Proof.
  intros Hwf H. apply rtc_inv_r in H as [H|(y & _ & e & He & Hends)]; [auto|].
  right. destruct (Hwf e He) as [H1 H2].
  destruct Hends as [[_ <-]|[<- _]]; assumption.
Qed.

(** C7, as amended: [shortest_path] raises [NodeNotFound] when the source is
    not a node of the graph (and the target is another coordinate).  When
    the source is a node and the weights are non-negative, it raises
    [NetworkXNoPath] whenever no path connects the source to the target, and
    this is also what it raises when the target is not a node: the search
    never looks the target up among the nodes.  The last part states it for
    the graphs that [read_edges] builds from a table of non-negative
    costs. *)
Theorem shortest_path_errors (self : TopImage) (source target : Node) :
  (Graph.has_node source (graph self) = false ->
   target <> source ->
   shortest_path self source target = Raise NodeNotFound) /\
  (Graph.has_node source (graph self) = true ->
   (forall e, e ∈ g_edges (graph self) -> 0 <= weight e.2) ->
   ~ connected (graph self) source target ->
   shortest_path self source target = Raise NetworkXNoPath) /\
  (Graph.has_node source (graph self) = true ->
   Graph.has_node target (graph self) = false ->
   (forall e, e ∈ g_edges (graph self) ->
              0 <= weight e.2 /\
              Graph.has_node e.1.1 (graph self) = true /\
              Graph.has_node e.1.2 (graph self) = true) ->
   shortest_path self source target = Raise NetworkXNoPath) /\
  (forall table before,
      (forall c d, table !! c = Some d -> 0 <= d.2) ->
      read_edges table before = (Ok tt, self) ->
      Graph.has_node source (graph self) = true ->
      Graph.has_node target (graph self) = false ->
      shortest_path self source target = Raise NetworkXNoPath).
Proof.
  assert (Hmissing :
            Graph.has_node source (graph self) = true ->
            Graph.has_node target (graph self) = false ->
            (forall e, e ∈ g_edges (graph self) ->
                       0 <= weight e.2 /\
                       Graph.has_node e.1.1 (graph self) = true /\
                       Graph.has_node e.1.2 (graph self) = true) ->
            shortest_path self source target = Raise NetworkXNoPath).
  { intros Hs Ht Hwf. unfold shortest_path.
    rewrite dijkstra_no_path; [reflexivity|exact Hs| |].
    + intros e He. apply Hwf, He.
    + intros Hc. apply connected_has_node in Hc as [<-|Hc]; [congruence|congruence|].
      intros e He. apply Hwf, He. }
  split; [|split; [|split]].
  - intros H _. unfold shortest_path, Dijkstra.single_source_dijkstra.
    rewrite H. reflexivity.
  - intros Hs Hw Hnc. unfold shortest_path.
    rewrite dijkstra_no_path by assumption. reflexivity.
  - exact Hmissing.
  - intros table before Hcost Hbuilt Hs Ht. apply Hmissing; [exact Hs|exact Ht|].
    destruct (read_edges_inv _ _ _ Hbuilt) as (step & sources & _ & _ & _ & Hall).
    intros e He. specialize (Hall e He). split.
    + eapply star_attributes_weight; eassumption.
    + eapply star_attributes_nodes; eassumption.
Qed.

Lemma grid33_not_connected : ~ connected (graph Scenario.grid33) (0, 0) (1, 0).
Proof.
  intros H. apply rtc_inv_r in H as [H|(y & _ & e & He & _)]; [discriminate|].
  vm_compute in He. inversion He.
Qed.

Lemma shortest_path_errors_witness :
  shortest_path Scenario.grid55 (7, 7) (1, 1) = Raise NodeNotFound /\
  shortest_path Scenario.grid33 (0, 0) (1, 0) = Raise NetworkXNoPath /\
  shortest_path Scenario.grid55 (1, 1) (9, 9) = Raise NetworkXNoPath.
Proof.
  split; [|split].
  - apply (proj1 (shortest_path_errors Scenario.grid55 (7, 7) (1, 1))).
    + vm_compute. reflexivity.
    + discriminate.
  - apply (proj1 (proj2 (shortest_path_errors Scenario.grid33 (0, 0) (1, 0)))).
    + vm_compute. reflexivity.
    + intros e He. vm_compute in He. inversion He.
    + exact grid33_not_connected.
  - apply (proj2 (proj2 (proj2 (shortest_path_errors Scenario.grid55 (1, 1) (9, 9))))
             Scenario.table (read_nodes 1 (init Scenario.image55)).2).
    + exact scenario_table_nonneg.
    + vm_compute. reflexivity.
    + vm_compute. reflexivity.
    + vm_compute. reflexivity.
Defined.

(** Without the condition on the costs the search has another outcome: with
    a negative cost in the table it meets a settled node at a lower distance
    and raises [ValueError]. *)
Lemma negative_cost_raises_value_error :
  shortest_path (Scenario.build Scenario.image55 1 Scenario.downhill).2 (1, 1) (9, 9)
    = Raise ValueError.
Proof. vm_compute. reflexivity. Qed.

(** C7, the claim as stated fails for a target that is not a node: (1,1) is
    a node of the 5x5 grid, (9,9) is not, and the search raises
    [NetworkXNoPath], not [NodeNotFound]. *)
Lemma missing_target_raises_no_path :
  Graph.has_node (1, 1) (graph Scenario.grid55) = true /\
  Graph.has_node (9, 9) (graph Scenario.grid55) = false /\
  shortest_path Scenario.grid55 (1, 1) (9, 9) = Raise NetworkXNoPath /\
  read_path Scenario.grid55 (1, 1) (9, 9) (Scenario.fl 1) PyFloat.zero
    = Raise NetworkXNoPath.
Proof.
  split; [vm_compute; reflexivity|].
  split; [vm_compute; reflexivity|].
  split; vm_compute; reflexivity.
Qed.

(** ** The scenario of the specification *)

(** C6, as amended: on the 3x3 image [read_nodes] samples the four nodes
    (0,0), (0,1), (1,0), (1,1) only (the last column and the last row are
    left out) and [read_edges] has no node to sweep, so the graph has no
    edge and the query from (0,0) to (1,0) raises [NetworkXNoPath].  On the
    5x5 image of the same layout the query from (1,1) to (1,2), two nodes of
    the plain, returns the path [(1,1), (1,2)] and exactly one stage:
    terrain "Plain", distance 1.0, cost 1.0. *)
Theorem scenario_grids :
  (Scenario.build Scenario.image33 1 Scenario.table).1 = Ok tt /\
  dom (g_nodes (graph Scenario.grid33)) = list_to_set [(0, 0); (0, 1); (1, 0); (1, 1)] /\
  g_edges (graph Scenario.grid33) = [] /\
  read_path Scenario.grid33 (0, 0) (1, 0) (Scenario.fl 1) PyFloat.zero
    = Raise NetworkXNoPath /\
  (Scenario.build Scenario.image55 1 Scenario.table).1 = Ok tt /\
  read_path Scenario.grid55 (1, 1) (1, 2) (Scenario.fl 1) PyFloat.zero
    = Ok (mkItinerary []
            [mkEntry (1, 1) (Scenario.fl 1) (Scenario.fl 1) "Plain"]
            [(1, 1); (1, 2)]).
Proof.
  split; [vm_compute; reflexivity|].
  split; [vm_compute; reflexivity|].
  split; [vm_compute; reflexivity|].
  split; [vm_compute; reflexivity|].
  split; vm_compute; reflexivity.
Qed.

(** C6, the claim as stated fails: the query does not succeed.  The search
    raises [NetworkXNoPath]; the graph has no edge at all, so that even the
    node list [(0,0), (1,0)] handed to the segmentation raises, at the
    lookup of its edge. *)
Lemma scenario_3x3_has_no_path :
  read_path Scenario.grid33 (0, 0) (1, 0) (Scenario.fl 1) PyFloat.zero
    = Raise NetworkXNoPath /\
  g_edges (graph Scenario.grid33) = [] /\
  segment Scenario.grid33 [(0, 0); (1, 0)] (Scenario.fl 1) PyFloat.zero = Raise KeyError.
Proof.
  split; [vm_compute; reflexivity|].
  split; vm_compute; reflexivity.
Qed.

(** * Further properties *)

(** ** The nodes that [read_nodes] creates *)

(** X1: with a positive step, [read_nodes] succeeds and leaves a graph
    without edges whose nodes are exactly the coordinates (i, j) with
    0 <= i < width - 1 and 0 <= j < height - 1, both multiples of the step,
    each with the colour of its pixel; what the graph held before plays no
    part. *)
Theorem read_nodes_grid (step : Z) (self : TopImage) :
  0 < step ->
  (read_nodes step self).1 = Ok tt /\
  image (read_nodes step self).2 = image self /\
  step_size (read_nodes step self).2 = Some step /\
  g_edges (graph (read_nodes step self).2) = [] /\
  forall n,
    (sampled (image self) step n ->
     g_nodes (graph (read_nodes step self).2) !! n
       = Some (Some (pixelColor (image self) n.1 n.2))) /\
    (~ sampled (image self) step n ->
     g_nodes (graph (read_nodes step self).2) !! n = None).
Proof. exact (read_nodes_sampled step self). Qed.

Lemma read_nodes_grid_witness :
  (read_nodes 1 (init Scenario.image33)).1 = Ok tt /\
  image (read_nodes 1 (init Scenario.image33)).2 = image (init Scenario.image33) /\
  step_size (read_nodes 1 (init Scenario.image33)).2 = Some 1 /\
  g_edges (graph (read_nodes 1 (init Scenario.image33)).2) = [] /\
  forall n,
    (sampled (image (init Scenario.image33)) 1 n ->
     g_nodes (graph (read_nodes 1 (init Scenario.image33)).2) !! n
       = Some (Some (pixelColor (image (init Scenario.image33)) n.1 n.2))) /\
    (~ sampled (image (init Scenario.image33)) 1 n ->
     g_nodes (graph (read_nodes 1 (init Scenario.image33)).2) !! n = None).
Proof. apply (read_nodes_grid 1 (init Scenario.image33)). lia. Defined.

(** ** The colours that [read_nodes] registers *)

Lemma for_each_invariant {A S : Type} (body : A -> S -> result unit * S)
    (P : S -> Prop) (l : list A) :
  (forall x s, x ∈ l -> P s -> P (body x s).2) ->
  forall s, P s -> P (for_each body l s).2.
Proof.
  induction l as [|x l IH]; intros Hb s Hs; [exact Hs|].
  simpl. pose proof (Hb x s (list_elem_of_here _ _) Hs) as Hx.
  destruct (body x s) as [[u|e] s']; simpl in *; [|exact Hx].
  apply IH; [|exact Hx].
  intros y t Hy. apply Hb, list_elem_of_further, Hy.
Qed.

Lemma sample_registers (d0 : gmap Color (string * Z)) (i j : Z) (self : TopImage) :
  registered d0 self -> registered d0 (sample i j self).2.
Proof.
  intros Hr. unfold sample.
  destruct (pixel_tuple (image self) i j) as [color|e]; [|exact Hr].
  destruct Hr as (Ha & Hb & Hc). cbn [snd]. unfold add_sample.
  destruct (density_dict self !! color) as [d|] eqn:E.
  - split; [exact Ha|]. split; [exact Hb|].
    intros n c Hn. apply node_color_ok in Hn. simpl in Hn.
    apply lookup_insert_Some in Hn as [[_ Hn]|[_ Hn]].
    + injection Hn as <-. simpl. rewrite E. eauto.
    + apply (Hc n c), node_color_ok, Hn.
  - split; [|split]; simpl.
    + intros c d Hd. rewrite lookup_insert_ne; [apply Ha, Hd|].
      intros <-. apply Ha in Hd. congruence.
    + intros c d Hd. apply lookup_insert_Some in Hd as [[<- <-]|[_ Hd]].
      * right. split; [|reflexivity].
        destruct (d0 !! color) as [d'|] eqn:E0; [|reflexivity].
        apply Ha in E0. congruence.
      * apply Hb, Hd.
    + intros n c Hn. apply node_color_ok in Hn. simpl in Hn.
      apply lookup_insert_is_Some. destruct (decide (color = c)) as [|Hne]; [auto|].
      right. split; [exact Hne|].
      apply lookup_insert_Some in Hn as [[_ Hn]|[_ Hn]]; [congruence|].
      apply (Hc n c), node_color_ok, Hn.
Qed.

(** X2: whatever its outcome, [read_nodes] keeps every entry of the table
    of the object as it is, adds only entries with the empty label and the
    cost 0, and leaves every node of the graph with a colour that is a key
    of the table. *)
Theorem read_nodes_registers (step : Z) (self : TopImage) :
  (forall c d, density_dict self !! c = Some d ->
               density_dict (read_nodes step self).2 !! c = Some d) /\
  (forall c d, density_dict (read_nodes step self).2 !! c = Some d ->
               density_dict self !! c = Some d \/
               (density_dict self !! c = None /\ d = (""%string, 0))) /\
  (forall n c, Graph.node_color n (graph (read_nodes step self).2) = Ok c ->
               is_Some (density_dict (read_nodes step self).2 !! c)).
Proof.
  change (registered (density_dict self) (read_nodes step self).2).
  assert (H0 : registered (density_dict self)
                 (set_step_size step (set_graph (Graph.clear (graph self)) self))).
  { split; [auto|]. split; [auto|].
    intros n c Hn. apply node_color_ok in Hn. simpl in Hn.
    rewrite lookup_empty in Hn. discriminate. }
  unfold read_nodes. destruct (py_range 0 _ step) as [cols|e]; [|exact H0].
  apply for_each_invariant; [|exact H0].
  intros i s _ Hs. destruct (py_range 0 _ step) as [rows|e]; [|exact Hs].
  apply for_each_invariant; [|exact Hs].
  intros j t _ Ht. apply sample_registers, Ht.
Qed.

(** ** The nodes that [read_edges] sweeps *)

Lemma mod_shift (x step : Z) : step <> 0 -> (x - step) mod step = x mod step.
Proof.
  intros Hs. replace (x - step) with (x + (-1) * step) by lia.
  apply Z_mod_plus_full.
Qed.

Lemma mod_shift_up (x step : Z) : step <> 0 -> (x + step) mod step = x mod step.
Proof.
  intros Hs. replace (x + step) with (x + 1 * step) by lia.
  apply Z_mod_plus_full.
Qed.

Lemma sweep_elem (img : Image) (step : Z) (sources : list Node) :
  0 < step ->
  sweep img step = Ok sources ->
  forall n, n ∈ sources <-> swept img step n.
Proof.
  intros Hs H n. unfold sweep in H.
  destruct (py_range step (width img - step - 1) step) as [cols|e] eqn:Hcols;
    [|discriminate].
  destruct (py_range_ok step (height img - step - 1) step) as [rows Hrows]; [lia|].
  simpl in H. rewrite Hrows in H.
  assert (Hin : n ∈ sources <-> n.1 ∈ cols /\ n.2 ∈ rows).
  { clear Hcols. revert sources H.
    induction cols as [|i cols IH]; intros sources H.
    - injection H as <-. split; [intros H; apply elem_of_nil in H; contradiction|].
      intros [H _]. apply elem_of_nil in H. contradiction.
    - simpl in H. apply bind_ok in H as (more & Hmore & H). injection H as <-.
      rewrite elem_of_app, (IH more Hmore), elem_of_cons, list_elem_of_In, in_map_iff.
      split.
      + intros [(j & <- & Hj)|[H1 H2]]; simpl.
        * split; [auto|apply list_elem_of_In, Hj].
        * auto.
      + intros [[H1|H1] H2]; [|auto].
        left. exists n.2. split; [|apply list_elem_of_In, H2].
        destruct n as [a b]. simpl in *. congruence. }
  rewrite Hin. unfold swept.
  rewrite (py_range_elem _ _ _ _ n.1 Hs Hcols), (py_range_elem _ _ _ _ n.2 Hs Hrows).
  rewrite !mod_shift by lia. reflexivity.
Qed.

(** A star stays on the sampled grid. *)
Lemma swept_sampled (img : Image) (step : Z) (s : Node) (tf : Node * pynum) :
  0 < step -> swept img step s -> tf ∈ star step s ->
  sampled img step s /\ sampled img step tf.1 /\ step <= s.1 /\ step <= tf.1.1.
Proof.
  intros Hs [[Hx Hxm] [Hy Hym]] Htf. unfold sampled.
  split; [split; split; (lia || assumption)|].
  unfold star in Htf.
  repeat (apply elem_of_cons in Htf as [->|Htf]; [
    simpl; rewrite ?mod_shift, ?mod_shift_up by lia;
    (split; [split; split; (lia || assumption)|lia])|]).
  apply elem_of_nil in Htf. contradiction.
Qed.

Lemma touch_present (n : Node) (ns : gmap Node (option Color)) :
  is_Some (ns !! n) -> Graph.touch n ns = ns.
Proof. intros [x H]. unfold Graph.touch. rewrite H. reflexivity. Qed.

Lemma triples_elem (step : Z) (sources : list Node) (s : Node) (tf : Node * pynum) :
  (s, tf) ∈ flat_map (fun s => map (pair s) (star step s)) sources <->
  s ∈ sources /\ tf ∈ star step s.
Proof.
  rewrite list_elem_of_In, in_flat_map. split.
  - intros (s1 & Hs1 & Hin). apply in_map_iff in Hin as (tf1 & Heq & Hin).
    injection Heq as -> ->. split; apply list_elem_of_In; assumption.
  - intros [H1 H2]. exists s. split; [apply list_elem_of_In, H1|].
    apply in_map, list_elem_of_In, H2.
Qed.

Lemma read_edges_keeps_nodes (table : gmap Color (string * Z)) (step : Z)
    (self : TopImage) :
  0 < step ->
  step_size self = Some step ->
  (forall n, sampled (image self) step n -> is_Some (g_nodes (graph self) !! n)) ->
  g_nodes (graph (read_edges table self).2) = g_nodes (graph self).
Proof.
  intros Hs Hstep Hnodes. unfold read_edges. simpl. rewrite Hstep.
  destruct (sweep (image self) step) as [sources|e] eqn:Hsw; [|reflexivity].
  pose proof (for_each_invariant (add_star_edge table)
                (fun g => g_nodes g = g_nodes (graph self))
                (flat_map (fun s => map (pair s) (star step s)) sources)) as Hinv.
  destruct (for_each _ _ _) as [r g'] eqn:Hfe. cbn [snd graph set_graph].
  change g' with (r, g').2. rewrite <- Hfe. apply Hinv; [|reflexivity].
  intros [s tf] g Hin Hg. unfold add_star_edge. cbn [fst snd].
  destruct (star_edge table g s tf) as [d|e]; cbn [snd]; [|exact Hg].
  apply triples_elem in Hin as [Hs1 Hin].
  apply (sweep_elem _ _ _ Hs Hsw) in Hs1.
  destruct (swept_sampled _ _ _ _ Hs Hs1 Hin) as (H1 & H2 & _).
  unfold Graph.add_edge. cbn [g_nodes].
  rewrite Hg, (touch_present s), (touch_present tf.1); auto.
Qed.

(** X3: [read_edges] creates no node and changes no colour when it follows
    [read_nodes] with a positive step, whatever the table and whatever its
    own outcome: every end of an edge it adds is a coordinate that was
    sampled, so the nodes of the built graph are those of X1. *)
Theorem build_keeps_nodes (table : gmap Color (string * Z)) (step : Z) (self : TopImage) :
  0 < step ->
  g_nodes (graph (read_edges table (read_nodes step self).2).2)
    = g_nodes (graph (read_nodes step self).2).
Proof.
  intros Hs.
  destruct (read_nodes_sampled step self Hs) as (_ & Him & Hst & _ & Hn).
  apply (read_edges_keeps_nodes table step); [exact Hs|exact Hst|].
  intros n Hsam. rewrite Him in Hsam. rewrite (proj1 (Hn n) Hsam). eauto.
Qed.

Lemma build_keeps_nodes_witness :
  g_nodes (graph (read_edges Scenario.table (read_nodes 1 (init Scenario.image55)).2).2)
    = g_nodes (graph (read_nodes 1 (init Scenario.image55)).2).
Proof. apply (build_keeps_nodes Scenario.table 1 (init Scenario.image55)). lia. Defined.

(** ** The first column *)

Lemma built_edges_inset (table : gmap Color (string * Z)) (before self : TopImage)
    (step : Z) (e : Edge) :
  0 < step ->
  read_edges table before = (Ok tt, self) ->
  step_size self = Some step ->
  e ∈ g_edges (graph self) ->
  step <= e.1.1.1 /\ step <= e.1.2.1.
Proof.
  intros Hs H Hstep He.
  destruct (read_edges_inv _ _ _ H) as (step' & sources & Hstep' & Hsw & _ & Hall).
  assert (step' = step) as -> by congruence.
  destruct (Hall e He) as (cs & ct & ds & dt & H1 & H2 & _).
  apply (sweep_elem _ _ _ Hs Hsw) in H1.
  destruct (swept_sampled _ _ _ _ Hs H1 H2) as (_ & _ & Ha & Hb). auto.
Qed.

Lemma adjacent_inset (table : gmap Color (string * Z)) (before self : TopImage)
    (step : Z) (a b : Node) :
  0 < step ->
  read_edges table before = (Ok tt, self) ->
  step_size self = Some step ->
  adjacent (graph self) a b ->
  step <= a.1 /\ step <= b.1.
Proof.
  intros Hs H Hstep (e & He & Hends).
  destruct (built_edges_inset _ _ _ _ _ Hs H Hstep He) as [H1 H2].
  destruct Hends as [[<- <-]|[<- <-]]; auto.
Qed.

(** X4: in a graph built with a positive step no edge touches a node whose
    x coordinate is below the step (the sweep starts at x = step and only
    looks forward), so a route that starts or ends at such a node of the
    first column, and does not stay there, is never found: [shortest_path]
    and [read_path] raise [NetworkXNoPath]. *)
Theorem first_column_unreachable (table : gmap Color (string * Z))
    (before self : TopImage) (step : Z) (source target : Node)
    (pixel_length rest : float) :
  (forall c d, table !! c = Some d -> 0 <= d.2) ->
  0 < step ->
  read_edges table before = (Ok tt, self) ->
  step_size self = Some step ->
  Graph.has_node source (graph self) = true ->
  target <> source ->
  source.1 < step \/ target.1 < step ->
  shortest_path self source target = Raise NetworkXNoPath /\
  read_path self source target pixel_length rest = Raise NetworkXNoPath.
Proof.
  intros Hcost Hs H Hstep Hnode Hne Hcol.
  assert (Hsp : shortest_path self source target = Raise NetworkXNoPath).
  { unfold shortest_path. rewrite dijkstra_no_path; [reflexivity|exact Hnode| |].
    - destruct (read_edges_inv _ _ _ H) as (step' & sources & _ & _ & _ & Hall).
      intros e He. eapply star_attributes_weight; [exact Hcost|apply Hall, He].
    - intros Hc. destruct Hcol as [Hcol|Hcol].
      + apply rtc_inv in Hc as [Hc|(y & Hadj & _)]; [congruence|].
        apply (adjacent_inset _ _ _ _ _ _ Hs H Hstep) in Hadj. lia.
      + apply rtc_inv_r in Hc as [Hc|(y & _ & Hadj)]; [congruence|].
        apply (adjacent_inset _ _ _ _ _ _ Hs H Hstep) in Hadj. lia. }
  split; [exact Hsp|]. unfold read_path. rewrite Hsp. reflexivity.
Qed.

Lemma first_column_unreachable_witness :
  shortest_path Scenario.grid55 (0, 1) (1, 1) = Raise NetworkXNoPath /\
  read_path Scenario.grid55 (0, 1) (1, 1) (Scenario.fl 1) PyFloat.zero
    = Raise NetworkXNoPath.
Proof.
  apply (first_column_unreachable Scenario.table
           (read_nodes 1 (init Scenario.image55)).2 Scenario.grid55 1).
  - exact scenario_table_nonneg.
  - lia.
  - vm_compute. reflexivity.
  - vm_compute. reflexivity.
  - vm_compute. reflexivity.
  - discriminate.
  - left. simpl. lia.
Defined.

(** ** The rests, block by block *)

Lemma block_cost_snoc (b : list Walked) (x : Walked) :
  block_cost (b ++ [x]) = PyFloat.add (block_cost b) x.2.1.2.
Proof. unfold block_cost. rewrite map_app. apply accumulate_snoc. Qed.

Lemma block_distance_snoc (b : list Walked) (x : Walked) :
  block_distance (b ++ [x]) = PyFloat.add (block_distance b) x.2.1.1.
Proof. unfold block_distance. rewrite map_app. apply accumulate_snoc. Qed.

Lemma quiet_snoc (rest : float) (b : list Walked) (x : Walked) :
  quiet rest b -> rest_due rest (block_cost (b ++ [x])) = false -> quiet rest (b ++ [x]).
Proof.
  intros Hq Hx k Hk. rewrite length_app in Hk. simpl in Hk.
  destruct (decide (k <= length b)%nat) as [Hle|Hgt].
  - rewrite take_app_le by exact Hle. apply Hq. lia.
  - rewrite take_ge by (rewrite length_app; simpl; lia). exact Hx.
Qed.

Lemma flatten_snoc (blocks : list (list Walked * Walked)) (b : list Walked) (x : Walked) :
  flatten (blocks ++ [(b, x)]) = flatten blocks ++ b ++ [x].
Proof.
  unfold flatten. rewrite map_app, concat_app. simpl. rewrite app_nil_r. reflexivity.
Qed.

Lemma walk_rests_greedy self pixel_length rest final l :
  forall w w',
    walk self pixel_length rest final l w = Ok w' ->
    forall blocks open,
      Forall2 (rest_block rest) blocks (w_rests w) ->
      rest_distance w = block_distance open ->
      rest_cost w = block_cost open ->
      quiet rest open ->
      exists ms blocks' open',
        path_metrics self pixel_length (last_node w) l = Ok ms /\
        Forall2 (rest_block rest) blocks' (w_rests w') /\
        quiet rest open' /\
        flatten blocks' ++ open' = (flatten blocks ++ open) ++ combine l ms.
Proof.
  induction l as [|node l IH]; intros w w' H blocks open Hb Hd Hc Hq.
  - simpl in H. injection H as <-. exists [], blocks, open.
    simpl. rewrite app_nil_r. auto.
  - apply walk_cons_inv in H as ([[distance cost] terr] & Hm & H).
    set (x := (node, (distance, cost, terr)) : Walked).
    assert (Hcx : PyFloat.add (rest_cost w) cost = block_cost (open ++ [x]))
      by (rewrite block_cost_snoc, Hc; reflexivity).
    assert (Hdx : PyFloat.add (rest_distance w) distance = block_distance (open ++ [x]))
      by (rewrite block_distance_snoc, Hd; reflexivity).
    destruct (rest_due rest (PyFloat.add (rest_cost w) cost)) eqn:Hdue.
    + destruct (IH _ _ H (blocks ++ [(open, x)]) []) as (ms & blocks' & open' & Hms & Hb' & Hq' & Hcat).
      * rewrite advance_rests, Hdue. apply Forall2_app; [exact Hb|].
        constructor; [|constructor].
        split; [|split]; simpl; [rewrite Hdx, Hcx; reflexivity|rewrite <- Hcx; exact Hdue|exact Hq].
      * rewrite advance_rest_distance, Hdue. reflexivity.
      * unfold advance. rewrite Hdue. destruct (stage_due _ _ _ _); reflexivity.
      * intros k Hk. simpl in Hk. lia.
      * exists ((distance, cost, terr) :: ms), blocks', open'.
        rewrite advance_last_node in Hms. simpl. rewrite Hm. simpl. rewrite Hms. simpl.
        split; [reflexivity|]. split; [exact Hb'|]. split; [exact Hq'|].
        rewrite Hcat, flatten_snoc, app_nil_r, <- !app_assoc. reflexivity.
    + destruct (IH _ _ H blocks (open ++ [x])) as (ms & blocks' & open' & Hms & Hb' & Hq' & Hcat).
      * rewrite advance_rests, Hdue. exact Hb.
      * rewrite advance_rest_distance, Hdue. exact Hdx.
      * unfold advance. rewrite Hdue. destruct (stage_due _ _ _ _); exact Hcx.
      * apply quiet_snoc; [exact Hq|]. rewrite <- Hcx. exact Hdue.
      * exists ((distance, cost, terr) :: ms), blocks', open'.
        rewrite advance_last_node in Hms. simpl. rewrite Hm. simpl. rewrite Hms. simpl.
        split; [reflexivity|]. split; [exact Hb'|]. split; [exact Hq'|].
        rewrite Hcat, <- !app_assoc. reflexivity.
Qed.

(** X5: the rests are the greedy cut of the walk by the budget.  The nodes
    after the source, each with the metrics of the edge that leads to it,
    split into consecutive blocks followed by a remainder; every block gives
    one rest entry, in order: it is anchored at the last node of the block,
    holds the distance and the cost accumulated over the block alone (both
    accumulators restart after a rest) and the terrain of its last edge; the
    rest is due ([rest] is true and the cost [>=] it) at the last edge of
    the block and after none of the edges before; in the remainder no rest
    is due at all. *)
Theorem rests_greedy (self : TopImage) (node_list : list Node)
    (pixel_length rest : float) (it : Itinerary) :
  segment self node_list pixel_length rest = Ok it ->
  exists first others ms blocks tail,
    node_list = first :: others /\
    path_metrics self pixel_length first others = Ok ms /\
    flatten blocks ++ tail = combine others ms /\
    Forall2 (rest_block rest) blocks (rests it) /\
    quiet rest tail.
Proof.
  intros H.
  apply segment_inv in H as (first & others & color & d & w & -> & _ & _ & Hw & ->).
  destruct (walk_rests_greedy _ _ _ _ _ _ _ Hw [] []) as (ms & blocks & tail & Hms & Hb & Hq & Hcat).
  - constructor.
  - reflexivity.
  - reflexivity.
  - intros k Hk. simpl in Hk. lia.
  - exists first, others, ms, blocks, tail. simpl in *. auto.
Qed.

Lemma rests_greedy_witness :
  exists it,
    segment Scenario.grid64 [(1, 1); (2, 1); (3, 1); (4, 1)]
      (Scenario.fl 1) (Scenario.fl 1001) = Ok it /\
    rests it = [mkEntry (3, 1) (Scenario.fl 2) (Scenario.fl 1001) "Water"] /\
    exists first others ms blocks tail,
      [(1, 1); (2, 1); (3, 1); (4, 1)] = first :: others /\
      path_metrics Scenario.grid64 (Scenario.fl 1) first others = Ok ms /\
      flatten blocks ++ tail = combine others ms /\
      Forall2 (rest_block (Scenario.fl 1001)) blocks (rests it) /\
      quiet (Scenario.fl 1001) tail.
Proof.
  eexists. split; [vm_compute; reflexivity|].
  split; [vm_compute; reflexivity|].
  apply (rests_greedy Scenario.grid64 [(1, 1); (2, 1); (3, 1); (4, 1)]
           (Scenario.fl 1) (Scenario.fl 1001)).
  vm_compute. reflexivity.
Defined.

(** ** The stages of a route *)

Lemma path_metrics_length self pixel_length (l : list Node) :
  forall a ms, path_metrics self pixel_length a l = Ok ms -> length ms = length l.
Proof.
  induction l as [|b l IH]; intros a ms H.
  - injection H as <-. reflexivity.
  - simpl in H. apply bind_ok in H as (m & _ & H).
    apply bind_ok in H as (ms' & Hms & H). injection H as <-.
    simpl. f_equal. eapply IH, Hms.
Qed.

Lemma blocks_length (blocks : list (list float)) :
  Forall nonempty blocks -> (length blocks <= length (concat blocks))%nat.
Proof.
  induction 1 as [|b blocks Hb _ IH]; [reflexivity|].
  simpl. rewrite length_app. destruct b; [contradiction|simpl; lia].
Qed.

Lemma last_cons_default {A : Type} (l : list A) :
  forall a d, List.last (a :: l) d = List.last l a.
Proof.
  induction l as [|b l IH]; intros a d; [reflexivity|].
  change (List.last (a :: b :: l) d) with (List.last (b :: l) d).
  rewrite (IH b d), (IH b a). reflexivity.
Qed.

Lemma Ok_inj {A : Type} (a b : A) : Ok a = Ok b -> a = b.
Proof. intros H. injection H as H. exact H. Qed.

(** The last turn of the loop closes a stage at the node before the last. *)
Lemma walk_last_stage self pixel_length rest final (l : list Node) :
  forall init w w',
    l = init ++ [final] ->
    walk self pixel_length rest final l w = Ok w' ->
    exists earlier e,
      w_stages w' = earlier ++ [e] /\
      e_node e = List.last init (last_node w).
Proof.
  induction l as [|node l IH]; intros init w w' Hl H.
  - destruct init; discriminate.
  - apply walk_cons_inv in H as ([[distance cost] terr] & Hm & H).
    destruct init as [|a init].
    + simpl in Hl. injection Hl as -> ->. apply Ok_inj in H. subst w'.
      eexists _, _. rewrite advance_stages. unfold stage_due.
      rewrite (bool_decide_eq_true_2 (final = final)) by reflexivity.
      rewrite orb_true_r. split; reflexivity.
    + simpl in Hl. injection Hl as -> ->.
      destruct (IH init _ _ eq_refl H) as (earlier & e & Hst & He).
      exists earlier, e. split; [exact Hst|].
      rewrite advance_last_node in He. rewrite He.
      symmetry. apply last_cons_default.
Qed.

(** X6: a route of n nodes has at most n - 1 stages and at most n - 1
    rests (so the day of arrival that [Main.calculate] prints, the number
    of rests plus one, is at most n); as soon as it has an edge it has a
    stage, and its last stage is anchored at the last node but one. *)
Theorem itinerary_sizes (self : TopImage) (node_list : list Node)
    (pixel_length rest : float) (it : Itinerary) :
  segment self node_list pixel_length rest = Ok it ->
  (length (stages it) <= length node_list - 1)%nat /\
  (length (rests it) <= length node_list - 1)%nat /\
  forall first init final,
    node_list = first :: init ++ [final] ->
    exists earlier e,
      stages it = earlier ++ [e] /\ e_node e = List.last init first.
Proof.
  intros H.
  apply segment_inv in H as (first & others & color & d & w & -> & _ & _ & Hw & ->).
  destruct (walk_stage_blocks _ _ _ _ _ _ _ Hw [] []) as
      (ms & sb & so & Hms & Hst & _ & Hne & Hcat & _ & _);
    [reflexivity|reflexivity|constructor|].
  destruct (walk_rest_blocks _ _ _ _ _ _ _ Hw [] []) as
      (ms' & rb & ro & Hms' & Hrt & _ & Hrne & Hrcat);
    [reflexivity|reflexivity|constructor|].
  simpl in Hms, Hms'. rewrite Hms in Hms'. injection Hms' as <-.
  pose proof (path_metrics_length _ _ _ _ _ Hms) as Hlen.
  simpl in Hcat, Hrcat.
  apply (f_equal (@length float)) in Hcat, Hrcat.
  rewrite length_app, length_map in Hcat, Hrcat.
  apply (f_equal (@length float)) in Hst, Hrt. rewrite !length_map in Hst, Hrt.
  pose proof (blocks_length _ Hne). pose proof (blocks_length _ Hrne).
  simpl. split; [lia|]. split; [lia|].
  intros first' init final Hnl. injection Hnl as <- ->.
  assert (Hfinal : List.last (first :: init ++ [final]) first = final).
  { change (List.last (first :: init ++ [final]) first)
      with (List.last ((first :: init) ++ [final]) first).
    apply last_last. }
  rewrite Hfinal in Hw.
  destruct (walk_last_stage _ _ _ _ _ init _ _ eq_refl Hw) as (earlier & e & Hst' & He).
  exists earlier, e. auto.
Qed.

Lemma itinerary_sizes_witness :
  exists it,
    segment Scenario.grid64 [(1, 1); (2, 1); (3, 1); (4, 1)]
      (Scenario.fl 1) (Scenario.fl 1001) = Ok it /\
    (length (stages it) <= length [(1, 1); (2, 1); (3, 1); (4, 1)] - 1)%nat /\
    (length (rests it) <= length [(1, 1); (2, 1); (3, 1); (4, 1)] - 1)%nat /\
    forall first init final,
      [(1, 1); (2, 1); (3, 1); (4, 1)] = first :: init ++ [final] ->
      exists earlier e,
        stages it = earlier ++ [e] /\ e_node e = List.last init first.
Proof.
  eexists. split; [vm_compute; reflexivity|].
  apply (itinerary_sizes Scenario.grid64 [(1, 1); (2, 1); (3, 1); (4, 1)]
           (Scenario.fl 1) (Scenario.fl 1001)).
  vm_compute. reflexivity.
Defined.

(** A walk over edges of the terrain of the stage closes nothing before the
    last node. *)
Lemma walk_uniform self pixel_length rest final (T : string) (l : list Node) :
  forall init w w' ms dd dc,
    l = init ++ [final] ->
    final ∉ init ->
    walk self pixel_length rest final l w = Ok w' ->
    path_metrics self pixel_length (last_node w) l = Ok ms ->
    Forall (fun m => m.2 = T) ms ->
    w_stages w = [] ->
    stage_terrain w = T ->
    stage_distance w = accumulate dd ->
    stage_cost w = accumulate dc ->
    w_stages w' =
      [mkEntry (List.last init (last_node w))
         (accumulate (dd ++ map (fun m => m.1.1) ms))
         (accumulate (dc ++ map (fun m => m.1.2) ms)) T].
Proof.
  induction l as [|node l IH]; intros init w w' ms dd dc Hl Hnot H Hms HT Hst Hter Hd Hc.
  - destruct init; discriminate.
  - apply walk_cons_inv in H as ([[distance cost] terr] & Hm & H).
    simpl in Hms. rewrite Hm in Hms. simpl in Hms.
    apply bind_ok in Hms as (ms' & Hms' & Hms). injection Hms as <-.
    apply Forall_cons in HT as [Hterr HT]. simpl in Hterr. subst terr.
    destruct init as [|a init].
    + simpl in Hl. injection Hl as -> ->. apply Ok_inj in H. subst w'.
      simpl in Hms'. injection Hms' as <-.
      rewrite advance_stages. unfold stage_due.
      rewrite (bool_decide_eq_true_2 (final = final)) by reflexivity.
      rewrite orb_true_r, Hst, Hter, Hd, Hc, <- !accumulate_snoc. reflexivity.
    + simpl in Hl. injection Hl as -> ->.
      assert (Hdue : stage_due T (stage_terrain w) a final = false).
      { unfold stage_due. rewrite Hter.
        rewrite (bool_decide_eq_false_2 (T <> T)) by (intros Hn; apply Hn; reflexivity).
        rewrite bool_decide_eq_false_2; [reflexivity|].
        intros ->. apply Hnot, list_elem_of_here. }
      rewrite (IH init (advance rest final w a (distance, cost, T)) w' ms'
                 (dd ++ [distance]) (dc ++ [cost]) eq_refl); try assumption.
      * rewrite advance_last_node, <- !app_assoc.
        rewrite (last_cons_default init a (last_node w)). reflexivity.
      * intros Hin. apply Hnot, list_elem_of_further, Hin.
      * rewrite advance_last_node. exact Hms'.
      * rewrite advance_stages, Hdue. exact Hst.
      * unfold advance. destruct (rest_due _ _); rewrite Hdue; exact Hter.
      * rewrite advance_stage_distance, Hdue, accumulate_snoc, Hd. reflexivity.
      * rewrite advance_stage_cost, accumulate_snoc, Hc. reflexivity.
Qed.

(** X7: a route over uniform terrain yields exactly one stage.  When every
    edge of the path has the terrain that the table of the object gives to
    the colour of the source node, and the last node occurs nowhere else on
    the path, the only stage entry is anchored at the last node but one and
    holds the distance and the cost accumulated over the whole path. *)
Theorem uniform_terrain_one_stage (self : TopImage) (first final : Node)
    (init : list Node) (pixel_length rest : float) (it : Itinerary)
    (c : Color) (d : string * Z) (ms : list (float * float * string)) :
  segment self (first :: init ++ [final]) pixel_length rest = Ok it ->
  final ∉ init ->
  Graph.node_color first (graph self) = Ok c ->
  density_dict self !! c = Some d ->
  path_metrics self pixel_length first (init ++ [final]) = Ok ms ->
  Forall (fun m => m.2 = d.1) ms ->
  stages it =
    [mkEntry (List.last init first)
       (accumulate (map (fun m => m.1.1) ms))
       (accumulate (map (fun m => m.1.2) ms)) d.1].
Proof.
  intros H Hnot Hc Hd Hms HT.
  apply segment_inv in H as (first' & others & color & d' & w & Hnl & Hc' & Hd' & Hw & ->).
  injection Hnl as <- <-.
  assert (color = c) as -> by congruence. assert (d' = d) as -> by congruence.
  assert (Hfinal : List.last (first :: init ++ [final]) first = final).
  { change (List.last (first :: init ++ [final]) first)
      with (List.last ((first :: init) ++ [final]) first).
    apply last_last. }
  rewrite Hfinal in Hw. simpl.
  apply (walk_uniform _ _ _ _ d.1 _ init _ _ ms [] [] eq_refl Hnot Hw Hms HT);
    reflexivity.
Qed.

Lemma uniform_terrain_one_stage_witness :
  stages (mkItinerary []
            [mkEntry (1, 2) (Scenario.fl 2) (Scenario.fl 2) "Plain"]
            [(1, 1); (1, 2); (1, 3)]) =
    [mkEntry (List.last [(1, 2)] (1, 1))
       (accumulate (map (fun m => m.1.1)
          [(Scenario.fl 1, Scenario.fl 1, "Plain"%string);
           (Scenario.fl 1, Scenario.fl 1, "Plain"%string)]))
       (accumulate (map (fun m => m.1.2)
          [(Scenario.fl 1, Scenario.fl 1, "Plain"%string);
           (Scenario.fl 1, Scenario.fl 1, "Plain"%string)]))
       ("Plain"%string, 1).1].
Proof.
  apply (uniform_terrain_one_stage Scenario.grid55 (1, 1) (1, 3) [(1, 2)]
           (Scenario.fl 1) PyFloat.zero _ Scenario.plain).
  - vm_compute. reflexivity.
  - intros H. apply list_elem_of_singleton in H. discriminate.
  - vm_compute. reflexivity.
  - vm_compute. reflexivity.
  - vm_compute. reflexivity.
  - repeat constructor.
Defined.

(** ** The path that the search returns *)

Lemma push_paths_valid (g : Graph) (source v u : Node) (x : Z) (st st' : Dijkstra.state) :
  adjacent g v u ->
  paths_valid g source st ->
  Dijkstra.push v u x st = Ok st' ->
  paths_valid g source st'.
Proof.
  intros Hadj Hv H. apply push_inv in H as (pv & Hpv & ->).
  intros n p Hp. simpl in Hp.
  apply lookup_insert_Some in Hp as [[<- <-]|[_ Hp]].
  - eapply walk_on; [apply Hv, Hpv|exact Hadj].
  - apply Hv, Hp.
Qed.

Lemma relax_paths_valid (g : Graph) (source v : Node) (dv : Z) (st st' : Dijkstra.state)
    (ue : Node * EdgeData) :
  ue ∈ Graph.neighbors v g ->
  paths_valid g source st ->
  Dijkstra.relax v dv st ue = Ok st' ->
  paths_valid g source st'.
Proof.
  intros Hue Hv H. destruct ue as [u d].
  apply neighbors_elem in Hue as [Hadj _].
  unfold Dijkstra.relax in H. simpl in H.
  destruct (Dijkstra.dist st !! u).
  - destruct (_ <? _); [discriminate|]. apply Ok_inj in H. subst. exact Hv.
  - destruct (Dijkstra.seen st !! u).
    + destruct (_ <? _); [eapply push_paths_valid; eassumption|].
      apply Ok_inj in H. subst. exact Hv.
    + eapply push_paths_valid; eassumption.
Qed.

Lemma relax_all_paths_valid (g : Graph) (source v : Node) (dv : Z)
    (ues : list (Node * EdgeData)) :
  (forall ue, ue ∈ ues -> ue ∈ Graph.neighbors v g) ->
  forall st st',
    paths_valid g source st ->
    Dijkstra.relax_all v dv ues st = Ok st' ->
    paths_valid g source st'.
Proof.
  induction ues as [|ue ues IH]; intros Hsub st st' Hv H.
  - apply Ok_inj in H. subst. exact Hv.
  - simpl in H. apply bind_ok in H as (st1 & H1 & H).
    refine (IH _ st1 st' _ H).
    + intros x Hx. apply Hsub, list_elem_of_further, Hx.
    + refine (relax_paths_valid g source v dv st st1 ue _ Hv H1).
      apply Hsub, list_elem_of_here.
Qed.

Lemma loop_paths_valid (g : Graph) (source target : Node) (fuel : nat) :
  forall st st',
    paths_valid g source st ->
    Dijkstra.loop fuel g target st = Some (Ok st') ->
    paths_valid g source st'.
Proof.
  induction fuel as [|fuel IH]; intros st st' Hv H; [discriminate|].
  simpl in H.
  destruct (Dijkstra.pop_min (Dijkstra.fringe st)) as [[[[d c] v] q]|].
  - destruct (Dijkstra.dist st !! v).
    + eapply IH; [|exact H]. exact Hv.
    + destruct (bool_decide (v = target)).
      * injection H as <-. exact Hv.
      * destruct (Dijkstra.relax_all _ _ _ _) as [st2|e] eqn:Hrel; [|discriminate].
        eapply IH; [|exact H].
        refine (relax_all_paths_valid g source v d _ (fun _ Hx => Hx) _ _ _ Hrel).
        exact Hv.
  - injection H as <-. exact Hv.
Qed.

Lemma dijkstra_walk (g : Graph) (source target : Node) (d : Z) (p : list Node) :
  Dijkstra.single_source_dijkstra g source target = Ok (d, p) ->
  walk_to g source target p.
Proof.
  unfold Dijkstra.single_source_dijkstra. intros H.
  destruct (negb _); [discriminate|].
  destruct (bool_decide (target = source)) eqn:Heq.
  - apply bool_decide_eq_true in Heq. injection H as _ <-. subst. constructor.
  - destruct (Dijkstra.loop _ _ _ _) as [[st|e]|] eqn:Hloop; try discriminate.
    destruct (Dijkstra.dist st !! target); [|discriminate].
    destruct (Dijkstra.paths st !! target) as [p'|] eqn:Hp; [|discriminate].
    injection H as _ <-.
    eapply (loop_paths_valid g source target) in Hloop; [apply Hloop, Hp|].
    intros u q Hq. simpl in Hq. apply lookup_singleton_Some in Hq as [<- <-].
    constructor.
Qed.

Lemma adjacent_edge (g : Graph) (a b : Node) :
  adjacent g a b -> exists d, Graph.edge a b g = Ok d.
Proof.
  intros (e & He & Hends). unfold Graph.edge.
  destruct (List.find (joins a b) (g_edges g)) as [e'|] eqn:Hf; [eauto|].
  exfalso. apply list_elem_of_In in He.
  pose proof (find_none _ _ Hf e He) as Hj. unfold joins in Hj.
  apply orb_false_iff in Hj as [H1 H2].
  apply bool_decide_eq_false in H1, H2. tauto.
Qed.

Lemma lookup_last_node (l : list Node) :
  forall (d a : Node) (i : nat),
    length l = S i -> l !! i = Some a -> List.last l d = a.
Proof.
  induction l as [|x l IH]; intros d a i Hlen Ha; [discriminate|].
  destruct i as [|i].
  - destruct l; [|discriminate]. simpl in *. congruence.
  - destruct l as [|y l]; [discriminate|].
    change (List.last (x :: y :: l) d) with (List.last (y :: l) d).
    apply (IH d a i); [simpl in *; lia|exact Ha].
Qed.

(** What a walk looks like as a list. *)
Lemma walk_to_list (g : Graph) (s t : Node) (p : list Node) :
  walk_to g s t p ->
  (exists others, p = s :: others) /\
  List.last p s = t /\
  forall i a b, p !! i = Some a -> p !! S i = Some b ->
                exists d, Graph.edge a b g = Ok d.
Proof.
  induction 1 as [|u v p Hw (Hhd & Hlast & Hedges) Hadj].
  - split; [eauto|]. split; [reflexivity|].
    intros i a b _ Hb. destruct i; discriminate.
  - destruct Hhd as [others ->]. split; [simpl; eauto|].
    split; [apply last_last|].
    intros i a b Ha Hb.
    destruct (decide (S i < length (s :: others))%nat) as [Hlt|Hge].
    + rewrite lookup_app_l in Ha by lia. rewrite lookup_app_l in Hb by lia.
      eapply Hedges; eassumption.
    + assert (Hi : S i = length (s :: others)).
      { apply lookup_lt_Some in Hb. rewrite length_app in Hb. simpl in *. lia. }
      rewrite lookup_app_l in Ha by lia.
      rewrite Hi, list_lookup_middle in Hb by reflexivity. injection Hb as <-.
      assert (a = u) as ->.
      { rewrite <- Hlast. symmetry. eapply lookup_last_node; [|exact Ha].
        symmetry. exact Hi. }
      apply adjacent_edge, Hadj.
Qed.

(** X8: a path that [shortest_path] returns is a walk of the graph: it
    starts at the source, ends at the target, and every two consecutive
    nodes are joined by an edge, so that the edge lookup in the loop of
    [read_path] does not fail on it. *)
Theorem shortest_path_is_walk (self : TopImage) (source target : Node) (p : list Node) :
  shortest_path self source target = Ok p ->
  (exists others, p = source :: others) /\
  List.last p source = target /\
  forall i a b, p !! i = Some a -> p !! S i = Some b ->
                exists d, Graph.edge a b (graph self) = Ok d.
Proof.
  unfold shortest_path. intros H. apply bind_ok in H as ([d p'] & Hd & H).
  injection H as <-. simpl. eapply walk_to_list, dijkstra_walk, Hd.
Qed.

Lemma shortest_path_is_walk_witness :
  (exists others, [(1, 1); (2, 1); (3, 1); (4, 1)] = (1, 1) :: others) /\
  List.last [(1, 1); (2, 1); (3, 1); (4, 1)] (1, 1) = (4, 1) /\
  forall i a b,
    [(1, 1); (2, 1); (3, 1); (4, 1)] !! i = Some a ->
    [(1, 1); (2, 1); (3, 1); (4, 1)] !! S i = Some b ->
    exists d, Graph.edge a b (graph Scenario.grid64) = Ok d.
Proof.
  apply (shortest_path_is_walk Scenario.grid64 (1, 1) (4, 1)).
  vm_compute. reflexivity.
Defined.

(** ** The search finds every connected node *)

Lemma pop_min_rest (q : list Dijkstra.entry) :
  forall x r, Dijkstra.pop_min q = Some (x, r) -> forall y, y ∈ q -> y = x \/ y ∈ r.
Proof.
  induction q as [|a q IH]; intros x r H y Hy; [discriminate|].
  simpl in H. destruct (Dijkstra.pop_min q) as [[z r']|] eqn:E.
  - destruct (Dijkstra.entry_le a z); injection H as <- <-.
    + apply elem_of_cons in Hy as [->|Hy]; auto.
    + apply elem_of_cons in Hy as [->|Hy]; [right; apply list_elem_of_here|].
      destruct (IH z r' eq_refl y Hy) as [->|Hr]; [auto|].
      right. apply list_elem_of_further, Hr.
  - injection H as <- <-. apply pop_min_none in E. subst q.
    apply list_elem_of_singleton in Hy. auto.
Qed.

Lemma neighbors_adjacent (g : Graph) (v u : Node) :
  adjacent g v u -> exists d, (u, d) ∈ Graph.neighbors v g.
Proof.
  intros (e & He & Hends). exists e.2. unfold Graph.neighbors.
  apply list_elem_of_omap. exists e. split; [exact He|].
  destruct (bool_decide (e.1.1 = v)) eqn:E1.
  - apply bool_decide_eq_true in E1.
    destruct Hends as [[_ <-]|[<- H2]]; [reflexivity|]. congruence.
  - apply bool_decide_eq_false in E1.
    destruct Hends as [[H1 _]|[<- H2]]; [contradiction|].
    rewrite bool_decide_eq_true_2 by exact H2. reflexivity.
Qed.

Lemma push_closed (g : Graph) (source v u : Node) (x : Z) (cover : Node -> Node -> Prop)
    (st st' : Dijkstra.state) :
  closed_upto g source cover st ->
  Dijkstra.push v u x st = Ok st' ->
  closed_upto g source (fun a b => cover a b \/ b = u) st' /\
  Dijkstra.dist st' = Dijkstra.dist st /\
  (forall n, is_Some (Dijkstra.paths st !! n) -> is_Some (Dijkstra.paths st' !! n)).
Proof.
  intros (K1 & K2 & K3 & K4) H. apply push_inv in H as (pv & Hpv & ->). simpl.
  assert (Hnew : reached
                   (Dijkstra.mkState (Dijkstra.dist st) (<[u := x]> (Dijkstra.seen st))
                      (<[u := pv ++ [u]]> (Dijkstra.paths st))
                      ((x, Dijkstra.count st, u) :: Dijkstra.fringe st)
                      (S (Dijkstra.count st))) u).
  { right. exists (x, Dijkstra.count st, u). split; [apply list_elem_of_here|reflexivity]. }
  assert (Hmono : forall n, reached st n ->
            reached
              (Dijkstra.mkState (Dijkstra.dist st) (<[u := x]> (Dijkstra.seen st))
                 (<[u := pv ++ [u]]> (Dijkstra.paths st))
                 ((x, Dijkstra.count st, u) :: Dijkstra.fringe st)
                 (S (Dijkstra.count st))) n).
  { intros n [Hn|(y & Hy & Hn)]; [left; exact Hn|].
    right. exists y. split; [apply list_elem_of_further, Hy|exact Hn]. }
  assert (Hp : forall n, is_Some (Dijkstra.paths st !! n) ->
                         is_Some (<[u := pv ++ [u]]> (Dijkstra.paths st) !! n)).
  { intros n Hn. apply lookup_insert_is_Some. destruct (decide (u = n)); auto. }
  split; [|split; [reflexivity|exact Hp]].
  split; [|split; [|split]]; simpl.
  - intros a b Ha Hab [Hc| ->]; [apply Hmono, (K1 a b Ha Hab Hc)|exact Hnew].
  - intros n Hn. apply lookup_insert_is_Some in Hn as [<-|[_ Hn]]; [exact Hnew|].
    apply Hmono, K2, Hn.
  - apply lookup_insert_is_Some. destruct (decide (u = source)); auto.
  - intros n [Hn|(y & Hy & Hn)].
    + apply Hp, K4. left. exact Hn.
    + apply elem_of_cons in Hy as [->|Hy].
      * simpl in Hn. subst n. rewrite lookup_insert_eq. eauto.
      * apply Hp, K4. right. eauto.
Qed.

Lemma closed_upto_weaken (g : Graph) (source : Node) (cover cover' : Node -> Node -> Prop)
    (st : Dijkstra.state) :
  (forall a b, adjacent g a b -> cover' a b -> cover a b) ->
  closed_upto g source cover st -> closed_upto g source cover' st.
Proof.
  intros Hc (K1 & K2 & K3 & K4). split; [|split; [|split]]; auto.
  intros a b Ha Hab Hcov. apply (K1 a b Ha Hab), Hc; assumption.
Qed.

Lemma relax_closed (g : Graph) (source v : Node) (dv : Z) (cover : Node -> Node -> Prop)
    (st st' : Dijkstra.state) (ue : Node * EdgeData) :
  closed_upto g source cover st ->
  Dijkstra.relax v dv st ue = Ok st' ->
  closed_upto g source (fun a b => cover a b \/ b = ue.1) st' /\
  Dijkstra.dist st' = Dijkstra.dist st /\
  (forall n, is_Some (Dijkstra.paths st !! n) -> is_Some (Dijkstra.paths st' !! n)).
Proof.
  intros Hc H.
  assert (Hstay : reached st ue.1 ->
            closed_upto g source (fun a b => cover a b \/ b = ue.1) st).
  { intros Hr. destruct Hc as (K1 & K2 & K3 & K4). split; [|split; [|split]]; auto.
    intros a b Ha Hab [Hcov| ->]; [eauto|exact Hr]. }
  unfold Dijkstra.relax in H.
  destruct (Dijkstra.dist st !! ue.1) eqn:Hd.
  - destruct (_ <? _); [discriminate|]. apply Ok_inj in H. subst st'.
    split; [|auto]. apply Hstay. left. rewrite Hd. eauto.
  - destruct (Dijkstra.seen st !! ue.1) eqn:Hseen.
    + destruct (_ <? _); [eapply push_closed; eassumption|].
      apply Ok_inj in H. subst st'. split; [|auto].
      apply Hstay. apply Hc. rewrite Hseen. eauto.
    + eapply push_closed; eassumption.
Qed.

Lemma relax_all_closed (g : Graph) (source v : Node) (dv : Z)
    (ues : list (Node * EdgeData)) :
  forall (cover : Node -> Node -> Prop) (st st' : Dijkstra.state),
    closed_upto g source cover st ->
    Dijkstra.relax_all v dv ues st = Ok st' ->
    closed_upto g source (fun a b => cover a b \/ exists d, (b, d) ∈ ues) st' /\
    Dijkstra.dist st' = Dijkstra.dist st /\
    (forall n, is_Some (Dijkstra.paths st !! n) -> is_Some (Dijkstra.paths st' !! n)).
Proof.
  induction ues as [|ue ues IH]; intros cover st st' Hc H.
  - apply Ok_inj in H. subst st'. split; [|auto].
    eapply closed_upto_weaken; [|exact Hc].
    intros a b _ [Hcov|[d Hd]]; [exact Hcov|]. apply elem_of_nil in Hd. contradiction.
  - simpl in H. apply bind_ok in H as (st1 & H1 & H).
    destruct (relax_closed g source v dv cover st st1 ue Hc H1) as (Hc1 & Hd1 & Hp1).
    destruct (IH _ st1 st' Hc1 H) as (Hc2 & Hd2 & Hp2).
    split; [|split; [congruence|auto]].
    eapply closed_upto_weaken; [|exact Hc2].
    intros a b _ [Hcov|[d Hd]]; [auto|].
    apply elem_of_cons in Hd as [Heq|Hd]; [|eauto].
    left. right. rewrite <- Heq. reflexivity.
Qed.

(** When the loop ends without an error, the target is settled with a path
    recorded, or the fringe is empty and the settled nodes are closed under
    adjacency. *)
Lemma loop_closed (g : Graph) (source target : Node) (fuel : nat) :
  forall st st',
    closed_upto g source (fun _ _ => True) st ->
    Dijkstra.loop fuel g target st = Some (Ok st') ->
    (forall n, is_Some (Dijkstra.dist st' !! n) -> is_Some (Dijkstra.paths st' !! n)) /\
    (is_Some (Dijkstra.dist st' !! target) \/
     (Dijkstra.fringe st' = [] /\ closed_upto g source (fun _ _ => True) st')).
Proof.
  induction fuel as [|fuel IH]; intros st st' Hc H; [discriminate|].
  simpl in H.
  destruct (Dijkstra.pop_min (Dijkstra.fringe st)) as [[[[d c] v] q]|] eqn:Hpop.
  - pose proof (pop_min_rest _ _ _ Hpop) as Hrest.
    apply pop_min_some in Hpop as (Hin & Hsub & _ & _).
    destruct Hc as (K1 & K2 & K3 & K4).
    destruct (Dijkstra.dist st !! v) as [dv|] eqn:Hdv.
    + apply IH in H; [exact H|].
      assert (Hmono : forall n, reached st n ->
                reached (Dijkstra.mkState (Dijkstra.dist st) (Dijkstra.seen st)
                           (Dijkstra.paths st) q (Dijkstra.count st)) n).
      { intros n [Hn|(y & Hy & Hn)]; [left; exact Hn|].
        destruct (Hrest y Hy) as [->|Hq].
        - left. simpl in *. subst n. rewrite Hdv. eauto.
        - right. eauto. }
      split; [|split; [|split]]; simpl.
      * intros a b Ha Hab _. apply Hmono, (K1 a b Ha Hab I).
      * intros n Hn. apply Hmono, K2, Hn.
      * exact K3.
      * intros n [Hn|(y & Hy & Hn)]; apply K4; [left; exact Hn|].
        right. exists y. split; [apply Hsub, Hy|exact Hn].
    + assert (Hmono : forall n, reached st n ->
                reached (Dijkstra.mkState (<[v := d]> (Dijkstra.dist st)) (Dijkstra.seen st)
                           (Dijkstra.paths st) q (Dijkstra.count st)) n).
      { intros n [Hn|(y & Hy & Hn)].
        - left. simpl. apply lookup_insert_is_Some. destruct (decide (v = n)); auto.
        - destruct (Hrest y Hy) as [->|Hq].
          + left. simpl in *. subst n. rewrite lookup_insert_eq. eauto.
          + right. eauto. }
      assert (Hpaths : forall n,
                reached (Dijkstra.mkState (<[v := d]> (Dijkstra.dist st)) (Dijkstra.seen st)
                           (Dijkstra.paths st) q (Dijkstra.count st)) n ->
                is_Some (Dijkstra.paths st !! n)).
      { intros n [Hn|(y & Hy & Hn)].
        - simpl in Hn. apply lookup_insert_is_Some in Hn as [<-|[_ Hn]].
          + apply K4. right. exists (d, c, v). auto.
          + apply K4. left. exact Hn.
        - apply K4. right. exists y. split; [apply Hsub, Hy|exact Hn]. }
      destruct (bool_decide (v = target)) eqn:Hvt.
      * apply bool_decide_eq_true in Hvt. injection H as <-. simpl. split.
        -- intros n Hn. apply Hpaths. left. exact Hn.
        -- left. subst v. rewrite lookup_insert_eq. eauto.
      * destruct (Dijkstra.relax_all _ _ _ _) as [st2|e] eqn:Hrel; [|discriminate].
        apply (relax_all_closed g source v d (Graph.neighbors v g) (fun a _ => a <> v))
          in Hrel as (Hc2 & _ & _).
        -- apply IH in H; [exact H|].
           eapply closed_upto_weaken; [|exact Hc2].
           intros a b Hab _. simpl. destruct (decide (a = v)) as [->|Hne]; [|auto].
           right. apply neighbors_adjacent, Hab.
        -- split; [|split; [|split]]; simpl.
           ++ intros a b Ha Hab Hne. apply Hmono.
              apply lookup_insert_is_Some in Ha as [Heq|[_ Ha]]; [congruence|].
              apply (K1 a b Ha Hab I).
           ++ intros n Hn. apply Hmono, K2, Hn.
           ++ exact K3.
           ++ exact Hpaths.
  - injection H as <-. apply pop_min_none in Hpop. split.
    + intros n Hn. apply Hc. left. exact Hn.
    + right. split; [exact Hpop|exact Hc].
Qed.


Lemma start_closed (g : Graph) (source : Node) :
  closed_upto g source (fun _ _ => True) (Dijkstra.start source).
Proof.
  assert (Hr : forall n, reached (Dijkstra.start source) n -> n = source).
  { intros n [Hn|(y & Hy & Hn)].
    - simpl in Hn. rewrite lookup_empty in Hn. destruct Hn. discriminate.
    - simpl in Hy. apply list_elem_of_singleton in Hy as ->. symmetry. exact Hn. }
  assert (Hs : reached (Dijkstra.start source) source).
  { right. exists (0, 0%nat, source). split; [apply list_elem_of_here|reflexivity]. }
  split; [|split; [|split]]; simpl.
  - intros v u Hv. rewrite lookup_empty in Hv. destruct Hv. discriminate.
  - intros u Hu. destruct Hu as [x Hx].
    apply lookup_singleton_Some in Hx as [<- _]. exact Hs.
  - rewrite lookup_singleton_eq. eauto.
  - intros n Hn. apply Hr in Hn as ->. rewrite lookup_singleton_eq. eauto.
Qed.

(** With non-negative weights the search returns a path to every node that
    is connected to the source. *)
Lemma dijkstra_complete (g : Graph) (source target : Node) :
  Graph.has_node source g = true ->
  (forall e, e ∈ g_edges g -> 0 <= weight e.2) ->
  connected g source target ->
  exists d p, Dijkstra.single_source_dijkstra g source target = Ok (d, p).
Proof.
  intros Hs Hw Hc. unfold Dijkstra.single_source_dijkstra. rewrite Hs. cbn [negb].
  destruct (bool_decide (target = source)); [eauto|].
  destruct (start_terminates g source target) as [r Hr]. rewrite Hr.
  destruct (loop_sound g source target Hw _ _ _ (start_sound g source) Hr)
    as (st' & -> & _).
  destruct (loop_closed g source target _ _ _ (start_closed g source) Hr)
    as (Hpaths & Hend).
  assert (Ht : is_Some (Dijkstra.dist st' !! target)).
  { destruct Hend as [Ht|(Hfringe & K1 & K2 & K3 & _)]; [exact Ht|].
    assert (Hsettled : forall n, reached st' n -> is_Some (Dijkstra.dist st' !! n)).
    { intros n [Hn|(y & Hy & _)]; [exact Hn|].
      rewrite Hfringe in Hy. apply elem_of_nil in Hy. contradiction. }
    revert Hc. unfold connected.
    apply (rtc_ind_r (fun z => is_Some (Dijkstra.dist st' !! z)) source).
    - apply Hsettled, K2, K3.
    - intros y z _ Hadj Hy. apply Hsettled, (K1 y z Hy Hadj I). }
  destruct Ht as [d Hd]. destruct (Hpaths target) as [p Hp]; [eauto|].
  rewrite Hd, Hp. eauto.
Qed.

Lemma walk_to_connected (g : Graph) (s t : Node) (p : list Node) :
  walk_to g s t p -> connected g s t.
Proof.
  induction 1 as [|u v p _ IH Hadj]; [apply rtc_refl|].
  eapply rtc_r; eassumption.
Qed.

(** X9: in a graph that [read_edges] has built from a table of non-negative
    costs, [shortest_path] from a node succeeds exactly when a connecting
    path to the target exists: the search loses no connected node and its
    loop ends. *)
Theorem shortest_path_finds_connected (table : gmap Color (string * Z))
    (before self : TopImage) (source target : Node) :
  (forall c d, table !! c = Some d -> 0 <= d.2) ->
  read_edges table before = (Ok tt, self) ->
  Graph.has_node source (graph self) = true ->
  connected (graph self) source target <->
  exists p, shortest_path self source target = Ok p.
Proof.
  intros Hcost H Hnode. unfold shortest_path. split.
  - intros Hc.
    destruct (dijkstra_complete (graph self) source target Hnode) as (d & p & Hp);
      [|exact Hc|].
    + destruct (read_edges_inv _ _ _ H) as (step' & sources & _ & _ & _ & Hall).
      intros e He. eapply star_attributes_weight; [exact Hcost|apply Hall, He].
    + exists p. rewrite Hp. reflexivity.
  - intros [p Hp]. apply bind_ok in Hp as ([d p'] & Hd & _).
    eapply walk_to_connected, dijkstra_walk, Hd.
Qed.

Lemma shortest_path_finds_connected_witness :
  connected (graph Scenario.grid64) (1, 1) (4, 1) <->
  exists p, shortest_path Scenario.grid64 (1, 1) (4, 1) = Ok p.
Proof.
  apply (shortest_path_finds_connected Scenario.table
           (read_nodes 1 (init Scenario.image64)).2 Scenario.grid64 (1, 1) (4, 1)).
  - exact scenario_table_nonneg.
  - vm_compute. reflexivity.
  - vm_compute. reflexivity.
Defined.

(** ** The click on the map *)

Lemma read_edges_keeps_frame (table : gmap Color (string * Z)) (self : TopImage) :
  step_size (read_edges table self).2 = step_size self /\
  image (read_edges table self).2 = image self.
Proof.
  unfold read_edges. cbn [step_size image set_density_dict set_graph].
  destruct (step_size self) eqn:E; [|simpl; auto].
  destruct (sweep _ _); [|simpl; auto].
  destruct (for_each _ _ _). simpl. auto.
Qed.

Lemma snap_grid (step c : Z) :
  0 < step ->
  exists x, snap (Some step) c = Ok x /\ (x <= c < x + step /\ x mod step = 0) /\
            (0 <= x <-> 0 <= c).
Proof.
  intros Hs. exists (c - c mod step). unfold snap.
  destruct (step =? 0) eqn:E; [lia|].
  pose proof (Z.mod_pos_bound c step Hs) as Hb.
  pose proof (Z.div_mod c step ltac:(lia)) as Hd.
  split; [reflexivity|]. split; [split; [lia|]|].
  - replace (c - c mod step) with (c / step * step) by lia. apply Z.mod_mul. lia.
  - split; [lia|]. intros Hc.
    pose proof (Z.div_pos c step Hc Hs). nia.
Qed.

(** X10: on an object built with a positive step, the position that
    [map_menu] computes from a click is the grid point at or just before
    the click in both coordinates, and it is a node of the graph exactly when
    it lies in the sampled frame, 0 <= x < width - 1 and 0 <= y < height - 1:
    a click on the last column or row of the image, or a negative one, gives
    a position that is no node. *)
Theorem click_snaps_to_grid (table : gmap Color (string * Z)) (step : Z)
    (before : TopImage) (pos : Z * Z) :
  0 < step ->
  exists n,
    snap_position (step_size (read_edges table (read_nodes step before).2).2) pos = Ok n /\
    (n.1 <= pos.1 < n.1 + step /\ n.1 mod step = 0) /\
    (n.2 <= pos.2 < n.2 + step /\ n.2 mod step = 0) /\
    (Graph.has_node n (graph (read_edges table (read_nodes step before).2).2) = true <->
     (0 <= pos.1 /\ n.1 < width (image before) - 1) /\
     (0 <= pos.2 /\ n.2 < height (image before) - 1)).
Proof.
  intros Hs.
  destruct (read_nodes_sampled step before Hs) as (_ & Himg & Hstep & _ & Hn).
  destruct (read_edges_keeps_frame table (read_nodes step before).2) as [Hstep' _].
  rewrite Hstep', Hstep.
  destruct (snap_grid step pos.1 Hs) as (x & Hx & Hxg & Hx0).
  destruct (snap_grid step pos.2 Hs) as (y & Hy & Hyg & Hy0).
  exists (x, y). unfold snap_position. rewrite Hx, Hy. simpl.
  split; [reflexivity|]. split; [exact Hxg|]. split; [exact Hyg|].
  unfold Graph.has_node.
  rewrite (read_edges_keeps_nodes table step _ Hs Hstep).
  - destruct (decide ((0 <= x < width (image before) - 1 /\ x mod step = 0) /\
                      (0 <= y < height (image before) - 1 /\ y mod step = 0)))
      as [Hin|Hout].
    + rewrite (proj1 (Hn (x, y)) Hin).
      rewrite bool_decide_eq_true_2 by eauto. split; [|reflexivity].
      intros _. lia.
    + rewrite (proj2 (Hn (x, y)) Hout).
      rewrite bool_decide_eq_false_2 by (intros [? ?]; discriminate).
      split; [discriminate|]. intros Hc. exfalso. apply Hout. lia.
  - intros n Hsam. rewrite Himg in Hsam. rewrite (proj1 (Hn n) Hsam). eauto.
Qed.

Lemma click_snaps_to_grid_witness :
  exists n,
    snap_position
      (step_size (read_edges Scenario.table (read_nodes 2 (init Scenario.image64)).2).2)
      (5, 1) = Ok n /\
    (n.1 <= 5 < n.1 + 2 /\ n.1 mod 2 = 0) /\
    (n.2 <= 1 < n.2 + 2 /\ n.2 mod 2 = 0) /\
    (Graph.has_node n
       (graph (read_edges Scenario.table (read_nodes 2 (init Scenario.image64)).2).2) = true <->
     (0 <= 5 /\ n.1 < 6 - 1) /\ (0 <= 1 /\ n.2 < 4 - 1)).
Proof.
  apply (click_snaps_to_grid Scenario.table 2 (init Scenario.image64) (5, 1)). lia.
Defined.

(** ** A route from a node to itself *)

(** X11: a query whose target is its source, a node of the graph, walks no
    edge: when the colour of the node is a key of the table the result has
    no stage and no rest and its node list is the node alone (the stage that
    closes at the last node is never emitted); when the node has no colour in
    the table the query fails with [KeyError]. *)
Theorem read_path_same_node (self : TopImage) (source : Node) (pixel_length rest : float) :
  Graph.has_node source (graph self) = true ->
  ((exists c, Graph.node_color source (graph self) = Ok c /\
              is_Some (density_dict self !! c)) ->
   read_path self source source pixel_length rest = Ok (mkItinerary [] [] [source])) /\
  (unclassified (density_dict self) (graph self) source ->
   read_path self source source pixel_length rest = Raise KeyError).
Proof.
  intros Hnode.
  assert (Hsp : shortest_path self source source = Ok [source]).
  { unfold shortest_path, Dijkstra.single_source_dijkstra. rewrite Hnode. cbn [negb].
    rewrite bool_decide_eq_true_2 by reflexivity. reflexivity. }
  unfold read_path. rewrite Hsp. cbn [bind]. unfold segment. split.
  - intros (c & Hc & d & Hd). rewrite Hc. cbn [bind]. rewrite Hd. reflexivity.
  - intros Hun. destruct (Graph.node_color source (graph self)) as [c|e] eqn:Hc.
    + cbn [bind]. rewrite (Hun c Hc). reflexivity.
    + cbn [bind]. unfold Graph.node_color in Hc.
      destruct (g_nodes (graph self) !! source) as [[c|]|]; congruence.
Qed.

Lemma read_path_same_node_witness :
  read_path Scenario.grid55 (1, 1) (1, 1) (Scenario.fl 1) PyFloat.zero
    = Ok (mkItinerary [] [] [(1, 1)]) /\
  read_path (Scenario.build Scenario.image55_corner 1 Scenario.table).2 (0, 0) (0, 0)
    (Scenario.fl 1) PyFloat.zero = Raise KeyError.
Proof.
  split.
  - apply (proj1 (read_path_same_node Scenario.grid55 (1, 1) (Scenario.fl 1) PyFloat.zero
                    ltac:(vm_compute; reflexivity))).
    exists Scenario.plain. split; [vm_compute; reflexivity|].
    exists ("Plain"%string, 1). vm_compute. reflexivity.
  - apply (proj2 (read_path_same_node
                    (Scenario.build Scenario.image55_corner 1 Scenario.table).2 (0, 0)
                    (Scenario.fl 1) PyFloat.zero ltac:(vm_compute; reflexivity))).
    intros c Hc. vm_compute in Hc. injection Hc as <-. vm_compute. reflexivity.
Defined.

(** ** The edges that the sweep builds *)

Lemma joins_sym (a b : Node) (e : Edge) : joins a b e = joins b a e.
Proof. unfold joins. apply orb_comm. Qed.

Lemma joins_ends (a b : Node) (e : Edge) :
  joins a b e = true <-> (e.1.1 = a /\ e.1.2 = b) \/ (e.1.1 = b /\ e.1.2 = a).
Proof.
  unfold joins. rewrite orb_true_iff, !bool_decide_eq_true. reflexivity.
Qed.

Lemma put_edge_new (u v : Node) (d : EdgeData) (es : list Edge) :
  (u, v, d) ∈ Graph.put_edge u v d es.
Proof.
  induction es as [|e0 es IH]; simpl.
  - apply list_elem_of_here.
  - destruct (joins u v e0); [apply list_elem_of_here|apply list_elem_of_further, IH].
Qed.

Lemma put_edge_joined (u v a b : Node) (d : EdgeData) (es : list Edge) :
  (exists e, e ∈ es /\ joins a b e = true) ->
  exists e, e ∈ Graph.put_edge u v d es /\ joins a b e = true.
Proof.
  induction es as [|e0 es IH]; intros (e & He & Hj).
  - apply elem_of_nil in He. contradiction.
  - simpl. destruct (joins u v e0) eqn:Huv.
    + apply elem_of_cons in He as [->|He].
      * exists (u, v, d). split; [apply list_elem_of_here|].
        apply joins_ends in Hj, Huv. apply joins_ends. simpl.
        destruct Hj as [[? ?]|[? ?]], Huv as [[? ?]|[? ?]]; [left|right|right|left];
          split; congruence.
      * exists e. split; [apply list_elem_of_further, He|exact Hj].
    + apply elem_of_cons in He as [->|He].
      * exists e0. split; [apply list_elem_of_here|exact Hj].
      * destruct IH as (e' & He' & Hj'); [eauto|].
        exists e'. split; [apply list_elem_of_further, He'|exact Hj'].
Qed.

(** A pass of [add_edges_from] that raises nothing leaves an edge for
    every triple it was given, and loses none of the pairs joined before. *)
Lemma for_each_add_star_edge_joined (table : gmap Color (string * Z))
    (triples : list (Node * (Node * pynum))) :
  forall g g',
    for_each (add_star_edge table) triples g = (Ok tt, g') ->
    (forall a b, (exists e, e ∈ g_edges g /\ joins a b e = true) ->
                 exists e, e ∈ g_edges g' /\ joins a b e = true) /\
    (forall stf, stf ∈ triples ->
                 exists e, e ∈ g_edges g' /\ joins stf.1 stf.2.1 e = true).
Proof.
  induction triples as [|[s tf] triples IH]; intros g g' H.
  - simpl in H. injection H as <-. split; [auto|].
    intros stf Hin. apply elem_of_nil in Hin. contradiction.
  - simpl in H. unfold add_star_edge in H at 1. simpl in H.
    destruct (star_edge table g s tf) as [d|err]; [|discriminate].
    destruct (IH _ _ H) as [Hkeep Hnew]. split.
    + intros a b Hab. apply Hkeep. simpl. apply put_edge_joined, Hab.
    + intros stf Hin. apply elem_of_cons in Hin as [->|Hin]; [|apply Hnew, Hin].
      apply Hkeep. simpl. exists (s, tf.1, d). split; [apply put_edge_new|].
      apply joins_ends. simpl. auto.
Qed.

Lemma edge_joined (a b : Node) (g : Graph) :
  (exists e, e ∈ g_edges g /\ joins a b e = true) ->
  exists e, e ∈ g_edges g /\ joins a b e = true /\
            Graph.edge a b g = Ok e.2 /\ Graph.edge b a g = Ok e.2.
Proof.
  intros (e & He & Hj). unfold Graph.edge.
  assert (Hf : List.find (joins b a) (g_edges g) = List.find (joins a b) (g_edges g)).
  { generalize (g_edges g). intros l. induction l as [|x l IHl]; [reflexivity|].
    simpl. rewrite (joins_sym b a x), IHl. reflexivity. }
  rewrite Hf.
  destruct (List.find (joins a b) (g_edges g)) as [e'|] eqn:Hfind.
  - apply find_some in Hfind as [Hin Hj']. exists e'.
    split; [apply list_elem_of_In, Hin|]. auto.
  - apply list_elem_of_In in He. pose proof (find_none _ _ Hfind e He). congruence.
Qed.

(** The four targets of a star are distinct, and no star leads back. *)
Lemma star_target_factor (step : Z) (s t : Node) (f f' : pynum) :
  0 < step -> (t, f) ∈ star step s -> (t, f') ∈ star step s -> f = f'.
Proof.
  intros Hs H H'. unfold star in H, H'. destruct s as [i j], t as [x y]. simpl in *.
  repeat (apply elem_of_cons in H as [H|H]);
    repeat (apply elem_of_cons in H' as [H'|H']);
    try (apply elem_of_nil in H; contradiction);
    try (apply elem_of_nil in H'; contradiction);
    inversion H; subst; inversion H'; subst; try reflexivity; lia.
Qed.

Lemma star_no_return (step : Z) (s t : Node) (f f' : pynum) :
  0 < step -> (t, f) ∈ star step s -> (s, f') ∈ star step t -> False.
Proof.
  intros Hs H H'. unfold star in H, H'. destruct s as [i j], t as [x y]. simpl in *.
  repeat (apply elem_of_cons in H as [H|H]);
    repeat (apply elem_of_cons in H' as [H'|H']);
    try (apply elem_of_nil in H; contradiction);
    try (apply elem_of_nil in H'; contradiction);
    inversion H; subst; inversion H'; lia.
Qed.

(** X12: a successful [read_edges] with a positive step leaves, for every
    node of the sweep and each of its four forward neighbours, the edge
    between the two, found from either end, with the factor of that
    neighbour (1 along the axes, 1.5 on the diagonals): no edge of a star is
    skipped, and none is overwritten by the star of another node. *)
Theorem read_edges_builds_stars (table : gmap Color (string * Z))
    (before self : TopImage) (step : Z) (s t : Node) (f : pynum) :
  0 < step ->
  read_edges table before = (Ok tt, self) ->
  step_size self = Some step ->
  swept (image self) step s ->
  (t, f) ∈ star step s ->
  exists d, Graph.edge s t (graph self) = Ok d /\
            Graph.edge t s (graph self) = Ok d /\
            factor d = f.
Proof.
  intros Hs H Hstep Hsw Hst.
  destruct (read_edges_inv _ _ _ H) as (step' & sources & Hstep' & Hsweep & _ & Hall).
  assert (step' = step) as -> by congruence.
  assert (Hjoined : exists e, e ∈ g_edges (graph self) /\ joins s t e = true).
  { unfold read_edges in H. simpl in H.
    destruct (step_size before) as [step0|] eqn:Hstep0; [|discriminate].
    destruct (sweep (image before) step0) as [sources0|err] eqn:Hsw0; [|discriminate].
    destruct (for_each _ _ _) as [r g'] eqn:Hfe.
    injection H as -> <-. simpl in *.
    assert (step0 = step) as -> by congruence.
    assert (sources0 = sources) as -> by congruence.
    apply for_each_add_star_edge_joined in Hfe as [_ Hnew].
    apply (Hnew (s, (t, f))). apply triples_elem. split; [|exact Hst].
    apply (sweep_elem _ _ _ Hs Hsweep). exact Hsw. }
  apply edge_joined in Hjoined as (e & He & Hj & Hst' & Hts').
  exists e.2. split; [exact Hst'|]. split; [exact Hts'|].
  destruct (Hall e He) as (cs & ct & ds & dt & _ & Hstar & _).
  apply joins_ends in Hj as [[H1 H2]|[H1 H2]]; rewrite H1, H2 in Hstar.
  - eapply star_target_factor; eassumption.
  - exfalso. eapply star_no_return; eassumption.
Qed.

Lemma read_edges_builds_stars_witness :
  exists d, Graph.edge (1, 2) (2, 1) (graph Scenario.grid55) = Ok d /\
            Graph.edge (2, 1) (1, 2) (graph Scenario.grid55) = Ok d /\
            factor d = PFloat PyFloat.one_and_half.
Proof.
  apply (read_edges_builds_stars Scenario.table
           (read_nodes 1 (init Scenario.image55)).2 Scenario.grid55 1).
  - lia.
  - vm_compute. reflexivity.
  - vm_compute. reflexivity.
  - replace (image Scenario.grid55) with Scenario.image55 by (vm_compute; reflexivity).
    unfold swept. cbn. repeat split; solve [lia | reflexivity].
  - unfold star. cbn. do 3 apply list_elem_of_further. apply list_elem_of_here.
Defined.

(** ** What a route on a built graph can raise *)

Lemma float_of_int_cases (z : Z) :
  (exists x, float_of_int z = Ok x) \/ float_of_int z = Raise OverflowError.
Proof. unfold float_of_int. destruct (PyFloat.of_Z z); eauto. Qed.

Lemma float_of_star_factor (f : pynum) :
  f = PInt 1 \/ f = PFloat PyFloat.one_and_half ->
  exists y, float_of_num f = Ok y /\ PyFloat.is_zero y = false.
Proof.
  intros [->| ->]; eexists; split; vm_compute; reflexivity.
Qed.

Lemma edge_metrics_cases (self : TopImage) (pixel_length : float) (a b : Node)
    (d : EdgeData) (step : Z) :
  Graph.edge a b (graph self) = Ok d ->
  factor d = PInt 1 \/ factor d = PFloat PyFloat.one_and_half ->
  step_size self = Some step ->
  (exists m, edge_metrics self pixel_length a b = Ok m) \/
  edge_metrics self pixel_length a b = Raise OverflowError.
Proof.
  intros He Hf Hstep. unfold edge_metrics. rewrite He, Hstep. cbn [bind of_option].
  destruct (float_of_star_factor _ Hf) as (y & Hy & Hy0).
  unfold float_mul, float_div. rewrite Hy. cbn [bind float_of_num].
  destruct (float_of_int_cases step) as [[x ->]| ->]; [|auto]. cbn [bind].
  destruct (float_of_int_cases (weight d)) as [[x' ->]| ->]; [|auto]. cbn [bind].
  rewrite Hy0. eauto.
Qed.

Lemma walk_cases (self : TopImage) (pixel_length rest : float) (final : Node) (step : Z) :
  step_size self = Some step ->
  (forall a b d, Graph.edge a b (graph self) = Ok d ->
                 factor d = PInt 1 \/ factor d = PFloat PyFloat.one_and_half) ->
  forall others w,
    (forall i a b, (last_node w :: others) !! i = Some a ->
                   (last_node w :: others) !! S i = Some b ->
                   exists d, Graph.edge a b (graph self) = Ok d) ->
    (exists w', walk self pixel_length rest final others w = Ok w') \/
    walk self pixel_length rest final others w = Raise OverflowError.
Proof.
  intros Hstep Hfac. induction others as [|node others IH]; intros w Hedges.
  - left. simpl. eauto.
  - simpl. unfold walk_step.
    destruct (Hedges 0%nat (last_node w) node eq_refl eq_refl) as [d Hd].
    destruct (edge_metrics_cases self pixel_length _ _ d step Hd (Hfac _ _ _ Hd) Hstep)
      as [[m ->]| ->]; [|auto].
    cbn [bind]. apply IH. rewrite advance_last_node.
    intros i a b Ha Hb. apply (Hedges (S i) a b); assumption.
Qed.

Lemma edge_found (a b : Node) (g : Graph) (d : EdgeData) :
  Graph.edge a b g = Ok d ->
  exists e, e ∈ g_edges g /\ joins a b e = true /\ d = e.2.
Proof.
  unfold Graph.edge. intros H.
  destruct (List.find (joins a b) (g_edges g)) as [e|] eqn:Hf; [|discriminate].
  injection H as <-. apply find_some in Hf as [Hin Hj].
  exists e. split; [apply list_elem_of_In, Hin|auto].
Qed.

(** X13: on a graph that [read_edges] has built from a table of non-negative
    costs, a query from a node to another coordinate that is connected to it
    fails in no lookup: the search returns a path, the start node has a
    classified colour, every edge of the path is found and its factor is not
    zero.  [read_path] returns its result, unless the conversion of the step
    or of an edge weight to a float overflows. *)
Theorem read_path_raises_only_overflow (table : gmap Color (string * Z))
    (before self : TopImage) (source target : Node) (pixel_length rest : float) :
  (forall c d, table !! c = Some d -> 0 <= d.2) ->
  read_edges table before = (Ok tt, self) ->
  Graph.has_node source (graph self) = true ->
  target <> source ->
  connected (graph self) source target ->
  (exists it, read_path self source target pixel_length rest = Ok it) \/
  read_path self source target pixel_length rest = Raise OverflowError.
Proof.
  intros Hcost H Hnode Hne Hc.
  destruct (read_edges_inv _ _ _ H) as (step & sources & Hstep & _ & Htable & Hall).
  destruct (dijkstra_complete (graph self) source target Hnode) as (dd & p & Hp);
    [|exact Hc|].
  { intros e He. eapply star_attributes_weight; [exact Hcost|apply Hall, He]. }
  destruct (walk_to_list _ _ _ _ (dijkstra_walk _ _ _ _ _ Hp))
    as ([others ->] & Hlast & Hedges).
  unfold read_path, shortest_path. rewrite Hp. cbn [bind snd].
  destruct others as [|b others]; [simpl in Hlast; congruence|].
  destruct (Hedges 0%nat source b eq_refl eq_refl) as [d Hd].
  apply edge_found in Hd as (e & He & Hj & _).
  destruct (Hall e He) as (cs & ct & ds & dt & _ & _ & Hcs & Hds & Hct & Hdt & _).
  assert (Hsrc : exists c dc, Graph.node_color source (graph self) = Ok c /\
                              density_dict self !! c = Some dc).
  { rewrite Htable. apply joins_ends in Hj as [[<- _]|[_ <-]]; eauto. }
  destruct Hsrc as (c & dc & Hcol & Hdc).
  unfold segment. rewrite Hcol. cbn [bind]. rewrite Hdc. cbn [bind of_option].
  destruct (walk_cases self pixel_length rest (List.last (source :: b :: others) source)
              step Hstep) with (others := b :: others)
      (w := mkWalk source [] [] PyFloat.zero PyFloat.zero PyFloat.zero PyFloat.zero dc.1)
    as [[w' Hw]|Hw].
  - intros a' b' d' Hd'. apply edge_found in Hd' as (e' & He' & _ & ->).
    destruct (Hall e' He') as (_ & _ & _ & _ & _ & Hstar & _).
    eapply star_factor, Hstar.
  - exact Hedges.
  - left. rewrite Hw. cbn [bind]. eauto.
  - right. rewrite Hw. reflexivity.
Qed.

Lemma read_path_raises_only_overflow_witness :
  (exists it, read_path Scenario.grid64 (1, 1) (4, 1) Scenario.miles_per_pixel
                (Scenario.fl 4) = Ok it) \/
  read_path Scenario.grid64 (1, 1) (4, 1) Scenario.miles_per_pixel (Scenario.fl 4)
    = Raise OverflowError.
Proof.
  apply (read_path_raises_only_overflow Scenario.table
           (read_nodes 1 (init Scenario.image64)).2 Scenario.grid64 (1, 1) (4, 1)).
  - exact scenario_table_nonneg.
  - vm_compute. reflexivity.
  - vm_compute. reflexivity.
  - discriminate.
  - apply (walk_to_connected _ _ _ [(1, 1); (2, 1); (3, 1); (4, 1)]).
    apply (dijkstra_walk _ _ _ 2001). vm_compute. reflexivity.
Defined.

(** ** The path of least weight *)

Section Lightest.

Variable g : Graph.
Variable source : Node.
Hypothesis weights_nonneg : forall e, e ∈ g_edges g -> 0 <= weight e.2.

Lemma neighbor_weight_nonneg (v : Node) (ue : Node * EdgeData) :
  ue ∈ Graph.neighbors v g -> 0 <= weight ue.2.
Proof.
  destruct ue as [u d]. intros H.
  apply neighbors_elem in H as (_ & e & He & ->). apply weights_nonneg, He.
Qed.

Lemma weighed_nonneg (u : Node) (p : list Node) (w : Z) :
  weighed g source u p w -> 0 <= w.
Proof.
  induction 1 as [|u v p w d _ IH Hd]; [lia|].
  pose proof (neighbor_weight_nonneg u (v, d) Hd). simpl in *. lia.
Qed.

(** Every walk from the source ends at a settled node or passes the fringe
    at an entry that is not above its weight. *)
Lemma frontier (st : Dijkstra.state) (u : Node) (p : list Node) (w : Z) :
  optimal g source (fun _ _ => True) st ->
  weighed g source u p w ->
  is_Some (Dijkstra.dist st !! u) \/ exists y, y ∈ Dijkstra.fringe st /\ y.1.1 <= w.
Proof.
  intros Ho. induction 1 as [|u v p w d Hw IH Hd].
  - destruct (opt_source _ _ _ _ Ho) as [Hs|[c Hc]]; [auto|].
    right. exists (0, c, source). split; [exact Hc|simpl; lia].
  - pose proof (neighbor_weight_nonneg u (v, d) Hd) as Hd0. simpl in Hd0.
    destruct IH as [[du Hu]|(y & Hy & Hle)].
    + destruct (Dijkstra.dist st !! v) as [dv|] eqn:Hv; [left; eauto|].
      destruct (opt_relaxed _ _ _ _ Ho u du (v, d) Hu Hd I) as [[dv Hv']|(su & Hsu & Hle)];
        simpl in *; [congruence|].
      destruct (opt_entry _ _ _ _ Ho v su Hv Hsu) as [c Hc].
      pose proof (opt_least _ _ _ _ Ho u du p w Hu Hw).
      right. exists (su, c, v). split; [exact Hc|simpl; lia].
    + right. exists y. split; [exact Hy|lia].
Qed.

Lemma optimal_cover (cover cover' : Node -> Node * EdgeData -> Prop)
    (st : Dijkstra.state) :
  optimal g source cover st ->
  (forall v dv ue,
     Dijkstra.dist st !! v = Some dv -> ue ∈ Graph.neighbors v g -> cover' v ue ->
     cover v ue \/
     (is_Some (Dijkstra.dist st !! ue.1) \/
      exists su, Dijkstra.seen st !! ue.1 = Some su /\ su <= dv + weight ue.2)) ->
  optimal g source cover' st.
Proof.
  intros Ho Hc. destruct Ho as [A A' B C C' D E].
  split; try assumption.
  intros v dv ue Hv Hue Hcov.
  destruct (Hc v dv ue Hv Hue Hcov) as [Hold|Hnew]; [eauto|exact Hnew].
Qed.

Lemma push_optimal (cover : Node -> Node * EdgeData -> Prop) (st st' : Dijkstra.state)
    (v u : Node) (dv : Z) (e : EdgeData) :
  optimal g source cover st ->
  Dijkstra.dist st !! v = Some dv ->
  (u, e) ∈ Graph.neighbors v g ->
  Dijkstra.dist st !! u = None ->
  (forall su, Dijkstra.seen st !! u = Some su -> dv + weight e < su) ->
  Dijkstra.push v u (dv + weight e) st = Ok st' ->
  optimal g source (fun a x => cover a x \/ (a = v /\ x = (u, e))) st' /\
  Dijkstra.dist st' = Dijkstra.dist st.
Proof.
  intros [A A' B C C' D E] Hv Hue Hu Hlt H.
  apply push_inv in H as (pv & Hpv & ->). split; [|reflexivity].
  destruct (A' v dv Hv) as (pv' & Hpv' & Hwv).
  assert (pv' = pv) as -> by congruence.
  split; simpl.
  - exact A.
  - intros n dn Hn. destruct (A' n dn Hn) as (p & Hp & Hw).
    exists p. split; [|exact Hw].
    rewrite lookup_insert_ne by congruence. exact Hp.
  - intros n sn Hn. apply lookup_insert_Some in Hn as [[<- <-]|[Hne Hn]].
    + exists (pv ++ [u]). rewrite lookup_insert_eq. split; [reflexivity|].
      eapply weighed_on; eassumption.
    + rewrite lookup_insert_ne by exact Hne. apply B, Hn.
  - intros n sn Hd Hn. apply lookup_insert_Some in Hn as [[<- <-]|[Hne Hn]].
    + exists (Dijkstra.count st). apply list_elem_of_here.
    + destruct (C n sn Hd Hn) as [c Hc]. exists c. apply list_elem_of_further, Hc.
  - intros x Hx Hd. apply elem_of_cons in Hx as [->|Hx].
    + simpl. rewrite lookup_insert_eq. eexists. split; [reflexivity|lia].
    + destruct (C' x Hx Hd) as (sx & Hsx & Hle).
      destruct (decide (u = x.2)) as [Heq|Hne].
      * rewrite <- Heq in *. rewrite lookup_insert_eq.
        eexists. split; [reflexivity|]. specialize (Hlt sx Hsx). lia.
      * rewrite lookup_insert_ne by exact Hne. eauto.
  - intros a da x Ha Hx [Hcov|[-> ->]].
    + destruct (D a da x Ha Hx Hcov) as [Hl|(sx & Hsx & Hle)]; [auto|].
      right. destruct (decide (u = x.1)) as [Heq|Hne].
      * rewrite <- Heq in *. rewrite lookup_insert_eq.
        eexists. split; [reflexivity|]. specialize (Hlt sx Hsx). lia.
      * rewrite lookup_insert_ne by exact Hne. eauto.
    + right. simpl. rewrite lookup_insert_eq.
      eexists. split; [reflexivity|]. assert (da = dv) by congruence. lia.
  - destruct E as [Hs|[c Hc]]; [auto|]. right. exists c. apply list_elem_of_further, Hc.
Qed.

Lemma relax_optimal (cover : Node -> Node * EdgeData -> Prop) (st st' : Dijkstra.state)
    (v : Node) (dv : Z) (ue : Node * EdgeData) :
  optimal g source cover st ->
  Dijkstra.dist st !! v = Some dv ->
  ue ∈ Graph.neighbors v g ->
  Dijkstra.relax v dv st ue = Ok st' ->
  optimal g source (fun a x => cover a x \/ (a = v /\ x = ue)) st' /\
  Dijkstra.dist st' = Dijkstra.dist st.
Proof.
  intros Ho Hv Hue H. destruct ue as [u e]. unfold Dijkstra.relax in H. simpl in H.
  destruct (Dijkstra.dist st !! u) as [du|] eqn:Hu.
  - destruct (_ <? _); [discriminate|]. apply Ok_inj in H. subst st'.
    split; [|reflexivity]. apply (optimal_cover cover); [exact Ho|].
    intros a da x Ha Hx [Hcov|[-> ->]]; [auto|]. right. left. simpl. rewrite Hu. eauto.
  - destruct (Dijkstra.seen st !! u) as [su|] eqn:Hsu.
    + destruct (Z.ltb_spec (dv + weight e) su) as [Hlt|Hge].
      * eapply push_optimal; try eassumption. intros su' Hsu'. congruence.
      * apply Ok_inj in H. subst st'. split; [|reflexivity].
        apply (optimal_cover cover); [exact Ho|].
        intros a da x Ha Hx [Hcov|[-> ->]]; [auto|]. right. right. simpl.
        exists su. split; [exact Hsu|]. assert (da = dv) by congruence. lia.
    + eapply push_optimal; try eassumption. intros su' Hsu'. congruence.
Qed.

Lemma relax_all_optimal (v : Node) (dv : Z) (ues : list (Node * EdgeData)) :
  (forall ue, ue ∈ ues -> ue ∈ Graph.neighbors v g) ->
  forall (cover : Node -> Node * EdgeData -> Prop) (st st' : Dijkstra.state),
    optimal g source cover st ->
    Dijkstra.dist st !! v = Some dv ->
    Dijkstra.relax_all v dv ues st = Ok st' ->
    optimal g source (fun a x => cover a x \/ (a = v /\ x ∈ ues)) st'.
Proof.
  induction ues as [|ue ues IH]; intros Hsub cover st st' Ho Hv H.
  - apply Ok_inj in H. subst st'. apply (optimal_cover cover); [exact Ho|].
    intros a da x _ _ [Hcov|[_ Hin]]; [auto|]. apply elem_of_nil in Hin. contradiction.
  - simpl in H. apply bind_ok in H as (st1 & H1 & H).
    destruct (relax_optimal cover st st1 v dv ue Ho Hv) as [Ho1 Hd1]; [|exact H1|].
    { apply Hsub, list_elem_of_here. }
    assert (Hv1 : Dijkstra.dist st1 !! v = Some dv) by (rewrite Hd1; exact Hv).
    pose proof (IH (fun x Hx => Hsub x (list_elem_of_further _ _ _ Hx)) _ st1 st' Ho1 Hv1 H)
      as Ho2.
    apply (optimal_cover _ _ _ Ho2).
    intros a da x _ _ [Hcov|[-> Hin]]; [auto|]. left.
    apply elem_of_cons in Hin as [->|Hin]; auto.
Qed.

Lemma loop_optimal (target : Node) (fuel : nat) :
  forall st st',
    optimal g source (fun _ _ => True) st ->
    Dijkstra.loop fuel g target st = Some (Ok st') ->
    exists cover, optimal g source cover st'.
Proof.
  induction fuel as [|fuel IH]; intros st st' Ho H; [discriminate|].
  simpl in H.
  destruct (Dijkstra.pop_min (Dijkstra.fringe st)) as [[[[d c] v] q]|] eqn:Hpop;
    [|injection H as <-; eauto].
  pose proof (pop_min_rest _ _ _ Hpop) as Hrest.
  apply pop_min_some in Hpop as (Hin & Hsub & Hmin & _).
  pose proof Ho as [A A' B C C' D E].
  destruct (Dijkstra.dist st !! v) as [dv|] eqn:Hdv.
  - apply IH in H; [exact H|]. split; simpl; try assumption.
    + intros n sn Hd Hn. destruct (C n sn Hd Hn) as [c' Hc'].
      destruct (Hrest _ Hc') as [Heq|Hq]; [congruence|eauto].
    + intros x Hx Hd. apply C'; [apply Hsub, Hx|exact Hd].
    + destruct E as [Hs|[c' Hc']]; [auto|].
      destruct (Hrest _ Hc') as [Heq|Hq]; [|eauto].
      left. injection Heq as _ _ ->. rewrite Hdv. eauto.
  - destruct (C' (d, c, v) Hin Hdv) as (sv & Hsv & Hle). simpl in Hsv, Hle.
    destruct (C v sv Hdv Hsv) as [c' Hc'].
    pose proof (Hmin _ Hc') as Hge. simpl in Hge.
    assert (sv = d) as -> by lia.
    assert (Ho1 : optimal g source (fun a _ => a <> v)
                    (Dijkstra.mkState (<[v := d]> (Dijkstra.dist st)) (Dijkstra.seen st)
                       (Dijkstra.paths st) q (Dijkstra.count st))).
    { split; simpl.
      - intros n dn p w Hn Hw. apply lookup_insert_Some in Hn as [[<- <-]|[_ Hn]]; [|eauto].
        destruct (frontier st v p w Ho Hw) as [[x Hx]|(y & Hy & Hyw)]; [congruence|].
        pose proof (Hmin y Hy). simpl in *. lia.
      - intros n dn Hn. apply lookup_insert_Some in Hn as [[<- <-]|[_ Hn]]; eauto.
      - exact B.
      - intros n sn Hd Hn. apply lookup_insert_None in Hd as [Hd Hne].
        destruct (C n sn Hd Hn) as [c'' Hc''].
        destruct (Hrest _ Hc'') as [Heq|Hq]; [congruence|eauto].
      - intros x Hx Hd. apply lookup_insert_None in Hd as [Hd _].
        apply C'; [apply Hsub, Hx|exact Hd].
      - intros a da x Ha Hx Hne. rewrite lookup_insert_ne in Ha by congruence.
        destruct (D a da x Ha Hx I) as [Hl|Hr]; [|auto].
        left. apply lookup_insert_is_Some. destruct (decide (v = x.1)); auto.
      - destruct E as [Hs|[c'' Hc'']].
        + left. apply lookup_insert_is_Some. destruct (decide (v = source)); auto.
        + destruct (Hrest _ Hc'') as [Heq|Hq]; [|eauto].
          left. injection Heq as _ _ ->. rewrite lookup_insert_eq. eauto. }
    destruct (bool_decide (v = target)).
    + injection H as <-. eauto.
    + destruct (Dijkstra.relax_all _ _ _ _) as [st2|err] eqn:Hrel; [|discriminate].
      apply (relax_all_optimal v d (Graph.neighbors v g) (fun _ Hx => Hx) _ _ _ Ho1)
        in Hrel; [|simpl; apply lookup_insert_eq].
      apply IH in H; [exact H|].
      apply (optimal_cover _ _ _ Hrel).
      intros a da x _ Hx _. left. destruct (decide (a = v)) as [->|Hne]; auto.
Qed.

Lemma start_optimal : optimal g source (fun _ _ => True) (Dijkstra.start source).
Proof.
  split; simpl.
  - intros u du p w Hu. rewrite lookup_empty in Hu. discriminate.
  - intros u du Hu. rewrite lookup_empty in Hu. discriminate.
  - intros u su Hu. apply lookup_singleton_Some in Hu as [<- <-].
    exists [source]. rewrite lookup_singleton_eq. split; [reflexivity|constructor].
  - intros u su _ Hu. apply lookup_singleton_Some in Hu as [<- <-].
    exists 0%nat. apply list_elem_of_here.
  - intros x Hx _. apply list_elem_of_singleton in Hx as ->. simpl.
    exists 0. rewrite lookup_singleton_eq. split; [reflexivity|lia].
  - intros v dv ue Hv. rewrite lookup_empty in Hv. discriminate.
  - right. exists 0%nat. apply list_elem_of_here.
Qed.

Lemma dijkstra_lightest (target : Node) (d : Z) (p : list Node) :
  Dijkstra.single_source_dijkstra g source target = Ok (d, p) ->
  weighed g source target p d /\
  forall p' w', weighed g source target p' w' -> d <= w'.
Proof.
  unfold Dijkstra.single_source_dijkstra. intros H.
  destruct (negb _); [discriminate|].
  destruct (bool_decide (target = source)) eqn:Heq.
  - apply bool_decide_eq_true in Heq. injection H as <- <-. subst target.
    split; [constructor|]. intros p' w'. apply weighed_nonneg.
  - destruct (Dijkstra.loop _ _ _ _) as [[st|e]|] eqn:Hloop; try discriminate.
    destruct (Dijkstra.dist st !! target) as [dt|] eqn:Hdt; [|discriminate].
    destruct (Dijkstra.paths st !! target) as [pt|] eqn:Hpt; [|discriminate].
    injection H as <- <-.
    destruct (loop_optimal target _ _ _ start_optimal Hloop) as [cover Ho].
    destruct (opt_path _ _ _ _ Ho target dt Hdt) as (p' & Hp' & Hw).
    assert (p' = pt) as -> by congruence.
    split; [exact Hw|]. intros p'' w''. apply (opt_least _ _ _ _ Ho), Hdt.
Qed.

End Lightest.

(** *** One edge for each pair *)

Lemma joins_same_ends (a b : Node) (e e' : Edge) :
  joins a b e = true -> joins a b e' = joins e.1.1 e.1.2 e'.
Proof.
  intros H. apply joins_ends in H as [[<- <-]|[<- <-]]; [reflexivity|apply joins_sym].
Qed.

Lemma put_edge_simple (u v : Node) (d : EdgeData) (es : list Edge) :
  simple es -> simple (Graph.put_edge u v d es).
Proof.
  induction 1 as [|e0 es Hfresh Hs IH]; simpl.
  - constructor; [|constructor]. intros e' He'. apply elem_of_nil in He'. contradiction.
  - destruct (joins u v e0) eqn:Huv.
    + constructor; [|exact Hs]. intros e' He'. simpl.
      rewrite (joins_same_ends u v e0 e' Huv). apply Hfresh, He'.
    + constructor; [|exact IH]. intros e' He'.
      apply put_edge_elem in He' as [->|He']; [|apply Hfresh, He'].
      rewrite <- Huv. unfold joins. simpl.
      apply eq_true_iff_eq. rewrite !orb_true_iff, !bool_decide_eq_true.
      intuition congruence.
Qed.

Lemma for_each_add_star_edge_simple (table : gmap Color (string * Z))
    (triples : list (Node * (Node * pynum))) :
  forall g g' r,
    simple (g_edges g) ->
    for_each (add_star_edge table) triples g = (r, g') ->
    simple (g_edges g').
Proof.
  induction triples as [|[s tf] triples IH]; intros g g' r Hs H.
  - simpl in H. injection H as _ <-. exact Hs.
  - simpl in H. unfold add_star_edge in H at 1. simpl in H.
    destruct (star_edge table g s tf) as [d|err].
    + refine (IH (Graph.add_edge s tf.1 d g) g' r _ H).
      simpl. apply put_edge_simple, Hs.
    + injection H as _ <-. exact Hs.
Qed.

(** Whatever it returns, [read_edges] leaves one edge for each pair at most. *)
Lemma read_edges_simple (table : gmap Color (string * Z)) (self : TopImage) :
  simple (g_edges (graph (read_edges table self).2)).
Proof.
  unfold read_edges. cbn [step_size image graph set_density_dict set_graph].
  destruct (step_size self); [|simpl; constructor].
  destruct (sweep _ _); [|simpl; constructor].
  destruct (for_each _ _ _) as [r g'] eqn:Hfe. simpl.
  eapply for_each_add_star_edge_simple; [|exact Hfe]. simpl. constructor.
Qed.

Lemma simple_find (a b : Node) (es : list Edge) (e : Edge) :
  simple es -> e ∈ es -> joins a b e = true -> List.find (joins a b) es = Some e.
Proof.
  induction 1 as [|e0 es Hfresh Hs IH]; intros He Hj.
  - apply elem_of_nil in He. contradiction.
  - simpl. destruct (joins a b e0) eqn:H0.
    + apply elem_of_cons in He as [->|He]; [reflexivity|].
      rewrite (joins_same_ends a b e0 e H0), (Hfresh e He) in Hj. discriminate.
    + apply elem_of_cons in He as [->|He]; [congruence|]. apply IH; assumption.
Qed.

(** In such a graph the adjacency entries are the edges that the lookup
    [G.edges[(u, v)]] finds. *)
Lemma neighbors_edge (g : Graph) (u v : Node) (d : EdgeData) :
  simple (g_edges g) ->
  (v, d) ∈ Graph.neighbors u g <-> Graph.edge u v g = Ok d.
Proof.
  intros Hs. split.
  - intros H. unfold Graph.neighbors in H.
    apply list_elem_of_omap in H as (e & He & Hf).
    assert (Hj : joins u v e = true /\ d = e.2).
    { destruct (bool_decide (e.1.1 = u)) eqn:E1.
      - apply bool_decide_eq_true in E1. injection Hf as <- <-.
        split; [apply joins_ends; auto|reflexivity].
      - destruct (bool_decide (e.1.2 = u)) eqn:E2; [|discriminate].
        apply bool_decide_eq_true in E2. injection Hf as <- <-.
        split; [apply joins_ends; auto|reflexivity]. }
    destruct Hj as [Hj ->]. unfold Graph.edge.
    rewrite (simple_find u v _ e Hs He Hj). reflexivity.
  - intros H. apply edge_found in H as (e & He & Hj & ->).
    unfold Graph.neighbors. apply list_elem_of_omap. exists e. split; [exact He|].
    apply joins_ends in Hj.
    destruct (bool_decide (e.1.1 = u)) eqn:E1.
    + apply bool_decide_eq_true in E1.
      destruct Hj as [[_ <-]|[<- H2]]; [reflexivity|]. f_equal. f_equal. congruence.
    + apply bool_decide_eq_false in E1.
      destruct Hj as [[H1 _]|[<- H2]]; [contradiction|].
      rewrite bool_decide_eq_true_2 by exact H2. reflexivity.
Qed.

(** *** The two ways to weigh a path *)

Lemma path_weight_snoc (g : Graph) (v : Node) (d : EdgeData) (others : list Node) :
  forall a w,
    path_weight g a others = Ok w ->
    Graph.edge (List.last others a) v g = Ok d ->
    path_weight g a (others ++ [v]) = Ok (w + weight d).
Proof.
  induction others as [|b others IH]; intros a w Hw Hd.
  - simpl in *. injection Hw as <-. rewrite Hd. cbn [bind]. f_equal. lia.
  - rewrite last_cons_default in Hd. simpl in Hw.
    apply bind_ok in Hw as (d0 & Hd0 & Hw). apply bind_ok in Hw as (w1 & Hw1 & Hw).
    injection Hw as <-.
    simpl. rewrite Hd0. cbn [bind]. rewrite (IH b w1 Hw1 Hd). cbn [bind].
    f_equal. lia.
Qed.

Lemma weighed_path_weight (g : Graph) (s t : Node) (p : list Node) (w : Z) :
  simple (g_edges g) ->
  weighed g s t p w ->
  exists others, p = s :: others /\ List.last others s = t /\
                 path_weight g s others = Ok w.
Proof.
  intros Hs. induction 1 as [|u v p w d _ (others & -> & Hlast & Hw) Hd].
  - exists []. auto.
  - exists (others ++ [v]). split; [reflexivity|]. split; [apply last_last|].
    apply path_weight_snoc; [exact Hw|]. rewrite Hlast.
    apply neighbors_edge; assumption.
Qed.

Lemma path_weight_weighed (g : Graph) (s : Node) (others : list Node) :
  simple (g_edges g) ->
  forall a p w0 w,
    weighed g s a p w0 ->
    path_weight g a others = Ok w ->
    weighed g s (List.last others a) (p ++ others) (w0 + w).
Proof.
  intros Hs. induction others as [|b others IH]; intros a p w0 w Hp Hw.
  - simpl in *. injection Hw as <-. rewrite app_nil_r, Z.add_0_r. exact Hp.
  - simpl in Hw. apply bind_ok in Hw as (d & Hd & Hw).
    apply bind_ok in Hw as (w1 & Hw1 & Hw). injection Hw as <-.
    rewrite last_cons_default.
    replace (p ++ b :: others) with ((p ++ [b]) ++ others)
      by (rewrite <- app_assoc; reflexivity).
    replace (w0 + (weight d + w1)) with (w0 + weight d + w1) by lia.
    apply IH; [|exact Hw1].
    eapply weighed_on; [exact Hp|]. apply neighbors_edge; assumption.
Qed.

(** X14: on a graph that [read_edges] has built from a table of
    non-negative costs, the node list that [shortest_path] returns is a path
    of least total weight: it starts at the source, all its edges are found,
    and no node list from the source to the target whose edges are found
    weighs less, the weight being the sum of the [weight] attributes of the
    edges between consecutive nodes. *)
Theorem shortest_path_is_lightest (table : gmap Color (string * Z))
    (before self : TopImage) (source target : Node) (p : list Node) :
  (forall c d, table !! c = Some d -> 0 <= d.2) ->
  read_edges table before = (Ok tt, self) ->
  shortest_path self source target = Ok p ->
  exists others w,
    p = source :: others /\
    path_weight (graph self) source others = Ok w /\
    forall others' w',
      List.last others' source = target ->
      path_weight (graph self) source others' = Ok w' ->
      w <= w'.
Proof.
  intros Hcost H Hp.
  assert (Hs : simple (g_edges (graph self))).
  { pose proof (read_edges_simple table before) as Hs. rewrite H in Hs. exact Hs. }
  assert (Hw : forall e, e ∈ g_edges (graph self) -> 0 <= weight e.2).
  { destruct (read_edges_inv _ _ _ H) as (step' & sources & _ & _ & _ & Hall).
    intros e He. eapply star_attributes_weight; [exact Hcost|apply Hall, He]. }
  unfold shortest_path in Hp. apply bind_ok in Hp as ([d p'] & Hd & Hp).
  injection Hp as <-. simpl.
  destruct (dijkstra_lightest (graph self) source Hw target d p' Hd) as [Hweighed Hleast].
  destruct (weighed_path_weight _ _ _ _ _ Hs Hweighed) as (others & -> & _ & Hpw).
  exists others, d. split; [reflexivity|]. split; [exact Hpw|].
  intros others' w' Hlast Hpw'.
  apply (Hleast ([source] ++ others')).
  rewrite <- Hlast. rewrite <- (Z.add_0_l w').
  apply path_weight_weighed; [exact Hs|constructor|exact Hpw'].
Qed.

Lemma shortest_path_is_lightest_witness :
  exists others w,
    [(1, 1); (2, 1); (3, 1); (4, 1)] = (1, 1) :: others /\
    path_weight (graph Scenario.grid64) (1, 1) others = Ok w /\
    forall others' w',
      List.last others' (1, 1) = (4, 1) ->
      path_weight (graph Scenario.grid64) (1, 1) others' = Ok w' ->
      w <= w'.
Proof.
  apply (shortest_path_is_lightest Scenario.table
           (read_nodes 1 (init Scenario.image64)).2 Scenario.grid64 (1, 1) (4, 1)).
  - exact scenario_table_nonneg.
  - vm_compute. reflexivity.
  - vm_compute. reflexivity.
Defined.
